(** * CLQO: the cutting-plane solver of [LPSolver.cpp]

    A shallow embedding of [LPSolver.cpp] (index mapping between pairs of QP
    variables and LP columns, the minimal non-PSD core search, the rounding
    fallback and the [solve] loop), followed by the properties proved about
    it.

    Conventions of the embedding.
    - [uint32_t] values are integers in [Z] with the wrap-around modulo 2^32
      written out ([u32]); [int] counters are [Z].
    - [float] and [double] data (relaxation values, matrix entries, bounds)
      are the rationals they denote ([Q]).  An operation the code does on
      them is the exact operation followed by the rounding of IEEE-754, to
      the nearest value with ties to even: [fl64] where the operation is
      done in [double], [fl32] where the result is stored in a [float].
      Only finite values are represented: overflow to an infinity, NaN and
      the sign of a zero are outside the embedding (a division by zero
      gives 0, as in [Q]).  Where the rounding of double arithmetic decides
      an integer result, [floor(sqrt(2*v)+1./2)] in [getQPVars], the code
      is modelled bit for bit with the IEEE-754 binary64 operations of
      [SpecFloat].
    - A call either returns, throws [std::runtime_error], runs into
      behaviour C++ leaves undefined, or is aborted by GLPK: type [outcome].
    - Eigen (eigenvalues, Cholesky factor), GLPK's simplex, the random
      shuffle, the normal samples and the cut generator are inputs of the
      model.
    - [LPSolver.hpp] is not at hand: the members [nQP] and [nLP] are taken
      to be [uint32_t], as the loops and comparisons of the code treat
      them, and [upperBound] to be a [float], as
      [std::min(upperBound, scoreRelaxation())] needs it.  The entries of
      [coeffs] and [constantTerm] are taken to be [double]s; [lowerBound]
      keeps the value of the evaluator [Problem::score] as it is. *)

From Stdlib Require Import ZArith QArith Qabs Qround Qminmax List Bool Lia Lqa.
From Stdlib Require Import Permutation FinFun.
From Stdlib Require Import Floats.SpecFloat.
Import ListNotations.
Open Scope Z_scope.

(* ================================================================== *)
(** * Part I: the embedding                                            *)
(* ================================================================== *)

(** ** Machine integers *)

(** [uint32_t] arithmetic wraps modulo 2^32. *)
Definition u32 (z : Z) : Z := z mod 2 ^ 32.

(** ** IEEE-754 binary64, for [floor(sqrt(2*v)+1./2)] *)

Module Double.

Definition prec : Z := 53.
Definition emax : Z := 1024.

(** Conversion of an unsigned integer to [double]. *)
Definition of_Z (m : Z) : spec_float := binary_normalize prec emax m 0 false.

(** The literal [1./2]. *)
Definition half : spec_float := S754_finite false (2 ^ 52) (-53).

Definition sqrt (d : spec_float) : spec_float := SFsqrt prec emax d.
Definition add (a b : spec_float) : spec_float := SFadd prec emax a b.

(** [floor] followed by the conversion of its integral result to an
    integer type. *)
Definition floor (d : spec_float) : Z :=
  match d with
  | S754_finite s m e =>
      let z := if s then Z.neg m else Z.pos m in
      if 0 <=? e then z * 2 ^ e else z / 2 ^ (- e)
  | _ => 0
  end.

(** [floor(sqrt(m)+1./2)] for an unsigned [m]. *)
Definition sqrt_half_floor (m : Z) : Z := floor (add (sqrt (of_Z m)) half).

End Double.

(** ** Rounding to [float] and to [double] *)

Module Rounding.

(** 2^e, for any integer [e]. *)
Definition pow2 (e : Z) : Q :=
  if 0 <=? e then inject_Z (2 ^ e) else 1 # Z.to_pos (2 ^ (- e)).

(** The exponent [e] with 2^e <= x < 2^(e+1), for a positive [x]. *)
Definition ilog2 (x : Q) : Z :=
  let e := Z.log2 (Qnum x) - Z.log2 (Z.pos (Qden x)) in
  if Qle_bool (pow2 e) x then e else e - 1.

(** The nearest integer, halves to the even one. *)
Definition nearest_even (x : Q) : Z :=
  let f := Qfloor x in
  match Qcompare (x - inject_Z f) (1 # 2) with
  | Lt => f
  | Gt => f + 1
  | Eq => if Z.even f then f else f + 1
  end.

(** The exponent of the last bit of the significand of a number of the
    size of [x], in a binary format with [prec] bits of significand whose
    subnormal numbers are the multiples of 2^emin. *)
Definition fexp (prec emin : Z) (x : Q) : Z := Z.max (ilog2 (Qabs x) + 1 - prec) emin.

(** The nearest value of that format: [x] is rounded to a multiple of
    2^fe, for [fe] the exponent [fexp] gives. *)
Definition round (prec emin : Z) (x : Q) : Q :=
  let x := Qred x in
  match Qnum x with
  | 0 => 0%Q
  | _ => let fe := fexp prec emin x in
         Qred (inject_Z (nearest_even (x / pow2 fe)) * pow2 fe)
  end.

End Rounding.

(** The conversion to [float] (binary32) and the rounding of an operation
    on [double]s (binary64). *)
Definition fl32 : Q -> Q := Rounding.round 24 (-149).
Definition fl64 : Q -> Q := Rounding.round 53 (-1074).

(** The rational a finite number of [SpecFloat] denotes (0 for a zero and
    for what is not finite). *)
Definition float_value (d : spec_float) : Q :=
  match d with
  | S754_finite s m e =>
      let v := (inject_Z (Z.pos m) * Rounding.pow2 e)%Q in if s then (- v)%Q else v
  | _ => 0%Q
  end.

(** ** Outcomes of a call *)

Inductive failure : Type :=
| Bad_LP (x y : Z)            (* runtime_error "Bad LP: x, y" *)
| Bad_LP_range (x y n : Z)    (* runtime_error "Bad LP: x, y, nQP" *)
| Bad_vQP (v n : Z)           (* runtime_error "Bad vQP: v, nLP" *)
| Bad_QP (x y v : Z)          (* runtime_error "Bad QP: x, y, v" *)
| undefined_behaviour         (* back() of an empty vector, subscript out of range *)
| glpk_abort.                 (* GLPK rejects a row or column number *)

Inductive outcome (A : Type) : Type :=
| Ret (a : A)
| Fail (f : failure).
Arguments Ret {A} a.
Arguments Fail {A} f.

Definition bind {A B : Type} (m : outcome A) (k : A -> outcome B) : outcome B :=
  match m with
  | Ret a => k a
  | Fail f => Fail f
  end.

Notation "x <- m ;; k" := (bind m (fun x => k))
  (at level 61, m at next level, right associativity).

(** A call that fails by throwing one of the index errors. *)
Definition index_error {A : Type} (o : outcome A) : Prop :=
  match o with
  | Fail (Bad_LP _ _) | Fail (Bad_LP_range _ _ _)
  | Fail (Bad_vQP _ _) | Fail (Bad_QP _ _ _) => True
  | _ => False
  end.

Fixpoint mapM {A B : Type} (f : A -> outcome B) (l : list A) : outcome (list B) :=
  match l with
  | [] => Ret []
  | a :: l' => b <- f a ;; bs <- mapM f l' ;; Ret (b :: bs)
  end.

Fixpoint foldM {A S : Type} (f : S -> A -> outcome S) (l : list A) (s : S) : outcome S :=
  match l with
  | [] => Ret s
  | a :: l' => s' <- f s a ;; foldM f l' s'
  end.

(** The values [lo, lo+1, ..., hi-1] of a [for] loop. *)
Definition range (lo hi : Z) : list Z :=
  map (fun k => lo + Z.of_nat k) (seq 0 (Z.to_nat (hi - lo))).

(** [v[i]] and [v[i] = a] on a [std::vector] or an Eigen vector. *)
Definition vec_at {A : Type} (v : list A) (i : Z) : outcome A :=
  if i <? 0 then Fail undefined_behaviour
  else match nth_error v (Z.to_nat i) with
       | Some a => Ret a
       | None => Fail undefined_behaviour
       end.

Fixpoint list_set {A : Type} (v : list A) (i : nat) (a : A) : list A :=
  match v, i with
  | [], _ => []
  | _ :: v', O => a :: v'
  | b :: v', S i' => b :: list_set v' i' a
  end.

Definition vec_set {A : Type} (v : list A) (i : Z) (a : A) : outcome (list A) :=
  if (0 <=? i) && (i <? Z.of_nat (length v)) then Ret (list_set v (Z.to_nat i) a)
  else Fail undefined_behaviour.

(** ** Numeric data *)

Definition matrix : Type := list (list Q).

Definition Qltb (a b : Q) : bool := negb (Qle_bool b a).

(** The preprocessor constants: each floating literal is the binary64
    number nearest to it. *)
Definition PSD_EIGEN_TOL : Q := 5902958103587057 # 590295810358705651712.
Definition MAX_TRIES_ROUNDING : Z := 20.
Definition CONSTRAINT_FAIL_LIMIT : Z := 5.
Definition CONSTRAINT_REMOVAL_SLACK : Q := 4458563631096791 # 4503599627370496.

(** [lround]: the nearest integer, halves away from zero. *)
Definition lround (x : Q) : Z :=
  if Qle_bool 0 x then Qfloor (x + (1 # 2)) else Qceiling (x - (1 # 2)).

(** [std::copysign(1.0, x)]. *)
Definition copysign1 (x : Q) : Q := if Qltb x 0 then (-1)%Q else 1%Q.

(** ** The collaborators *)

(** The part of class [Problem] the solver reads: [nQP], [coeffs(i,j)] and
    [constantTerm]. *)
Record Problem : Type := {
  p_nQP : Z;
  coeffs : Z -> Z -> Q;
  constantTerm : Q
}.

Fixpoint sumQ (l : list Q) : Q :=
  match l with
  | [] => 0%Q
  | a :: l' => (a + sumQ l')%Q
  end.

(** Modelled from the spec: [Problem::score] is not in [LPSolver.cpp]; the
    evaluator is [constantTerm] plus the sum over the pairs i<j of
    [coeffs(i,j) * s_i * s_j]. *)
Definition score (p : Problem) (s : list Q) : Q :=
  (constantTerm p
   + sumQ (map (fun i =>
        sumQ (map (fun j => coeffs p i j
                            * nth (Z.to_nat i) s 0 * nth (Z.to_nat j) s 0)
                  (range (i + 1) (p_nQP p))))
        (range 0 (p_nQP p))))%Q.

(** An assignment of +1 or -1 to each of the [n] variables. *)
Definition sign_vector (n : Z) (sv : list Q) : Prop :=
  length sv = Z.to_nat n /\ Forall (fun x => x == 1 \/ x == -1)%Q sv.

(** Modelled from the spec: GLPK is an external library; a problem object
    is its list of columns and rows, a row has a sparse coefficient list, a
    lower bound and the primal value of the last solve. *)
Record lp_col : Type := { col_lb : Q; col_ub : Q; obj_coef : Q; col_prim : Q }.
Record lp_row : Type := { row_ind : list Z; row_val : list Q; row_lb : Q; row_prim : Q }.
Record glp_prob : Type := { lp_cols : list lp_col; lp_rows : list lp_row; lp_status : Z }.

Definition GLP_EINSTAB : Z := 17.
Definition GLP_OPT : Z := 5.
Definition GLP_UNDEF : Z := 1.

Definition glp_create_prob : glp_prob := {| lp_cols := []; lp_rows := []; lp_status := GLP_UNDEF |}.

(** A new column is fixed at 0 with objective coefficient 0, a new row is
    empty and free; adding fewer than one is refused. *)
Definition new_col : lp_col := {| col_lb := 0; col_ub := 0; obj_coef := 0; col_prim := 0 |}.
Definition new_row : lp_row := {| row_ind := []; row_val := []; row_lb := 0; row_prim := 0 |}.

Definition glp_add_cols (lp : glp_prob) (n : Z) : outcome glp_prob :=
  if n <? 1 then Fail glpk_abort
  else Ret {| lp_cols := lp_cols lp ++ repeat new_col (Z.to_nat n);
              lp_rows := lp_rows lp; lp_status := lp_status lp |}.

(** Rows and columns are numbered from 1. *)
Definition glp_item {A : Type} (l : list A) (i : Z) : outcome A :=
  if i <? 1 then Fail glpk_abort
  else match nth_error l (Z.to_nat (i - 1)) with
       | Some a => Ret a
       | None => Fail glpk_abort
       end.

Definition glp_set_item {A : Type} (l : list A) (i : Z) (a : A) : outcome (list A) :=
  if (1 <=? i) && (i <=? Z.of_nat (length l)) then Ret (list_set l (Z.to_nat (i - 1)) a)
  else Fail glpk_abort.

Definition glp_set_col_bnds (lp : glp_prob) (i : Z) (lb ub : Q) : outcome glp_prob :=
  c <- glp_item (lp_cols lp) i ;;
  cs <- glp_set_item (lp_cols lp) i
          {| col_lb := lb; col_ub := ub; obj_coef := obj_coef c; col_prim := col_prim c |} ;;
  Ret {| lp_cols := cs; lp_rows := lp_rows lp; lp_status := lp_status lp |}.

Definition glp_set_obj_coef (lp : glp_prob) (i : Z) (w : Q) : outcome glp_prob :=
  c <- glp_item (lp_cols lp) i ;;
  cs <- glp_set_item (lp_cols lp) i
          {| col_lb := col_lb c; col_ub := col_ub c; obj_coef := w; col_prim := col_prim c |} ;;
  Ret {| lp_cols := cs; lp_rows := lp_rows lp; lp_status := lp_status lp |}.

Definition glp_get_num_rows (lp : glp_prob) : Z := Z.of_nat (length (lp_rows lp)).

Definition glp_get_row_prim (lp : glp_prob) (i : Z) : outcome Q :=
  r <- glp_item (lp_rows lp) i ;; Ret (row_prim r).

Definition glp_get_row_lb (lp : glp_prob) (i : Z) : outcome Q :=
  r <- glp_item (lp_rows lp) i ;; Ret (row_lb r).

Definition glp_get_col_prim (lp : glp_prob) (i : Z) : outcome Q :=
  c <- glp_item (lp_cols lp) i ;; Ret (col_prim c).

Fixpoint remove_nth {A : Type} (l : list A) (i : nat) : list A :=
  match l, i with
  | [], _ => []
  | _ :: l', O => l'
  | a :: l', S i' => a :: remove_nth l' i'
  end.

(** [glp_del_rows(lp, 1, num)] with [num[1] = i]: the rows above row [i]
    move down by one, the others keep their number and their values. *)
Definition glp_del_row (lp : glp_prob) (i : Z) : outcome glp_prob :=
  _ <- glp_item (lp_rows lp) i ;;
  Ret {| lp_cols := lp_cols lp; lp_rows := remove_nth (lp_rows lp) (Z.to_nat (i - 1));
         lp_status := lp_status lp |}.

Definition glp_add_rows (lp : glp_prob) (n : Z) : outcome glp_prob :=
  if n <? 1 then Fail glpk_abort
  else Ret {| lp_cols := lp_cols lp;
              lp_rows := lp_rows lp ++ repeat new_row (Z.to_nat n);
              lp_status := lp_status lp |}.

(** [glp_set_mat_row(lp, i, len, ind, val)]: the column numbers must be
    columns of the problem. *)
Definition glp_set_mat_row (lp : glp_prob) (i : Z) (ind : list Z) (val : list Q)
  : outcome glp_prob :=
  r <- glp_item (lp_rows lp) i ;;
  _ <- mapM (glp_item (lp_cols lp)) ind ;;
  rs <- glp_set_item (lp_rows lp) i
          {| row_ind := ind; row_val := val; row_lb := row_lb r; row_prim := row_prim r |} ;;
  Ret {| lp_cols := lp_cols lp; lp_rows := rs; lp_status := lp_status lp |}.

(** [glp_set_row_bnds(lp, i, GLP_LO, lb, 0.0)]. *)
Definition glp_set_row_bnds (lp : glp_prob) (i : Z) (lb : Q) : outcome glp_prob :=
  r <- glp_item (lp_rows lp) i ;;
  rs <- glp_set_item (lp_rows lp) i
          {| row_ind := row_ind r; row_val := row_val r; row_lb := lb; row_prim := row_prim r |} ;;
  Ret {| lp_cols := lp_cols lp; lp_rows := rs; lp_status := lp_status lp |}.

(** What one call of [glp_simplex] (or [glp_interior]) leaves behind: its
    return code, the solution status and the primal values of the columns
    and rows. *)
Record simplex_reply : Type := {
  simplex_err : Z;
  simplex_status : Z;
  simplex_cols : list Q;
  simplex_rows : list Q
}.

Fixpoint store_prims {A : Type} (upd : A -> Q -> A) (l : list A) (v : list Q) : list A :=
  match l, v with
  | a :: l', x :: v' => upd a x :: store_prims upd l' v'
  | _, _ => l
  end.

Definition glp_simplex (lp : glp_prob) (r : simplex_reply) : glp_prob :=
  {| lp_cols := store_prims (fun c x => {| col_lb := col_lb c; col_ub := col_ub c;
                                           obj_coef := obj_coef c; col_prim := x |})
                            (lp_cols lp) (simplex_cols r);
     lp_rows := store_prims (fun w x => {| row_ind := row_ind w; row_val := row_val w;
                                           row_lb := row_lb w; row_prim := x |})
                            (lp_rows lp) (simplex_rows r);
     lp_status := simplex_status r |}.

(** ** The solver object *)

Record LPSolver : Type := {
  problem : Problem;
  nQP : Z;
  nLP : Z;
  bestSol : list Q;
  lowerBound : Q;
  upperBound : Q;
  lp : glp_prob;
  currSol : list Q;
  active_clauses : list (list Q)
}.

(** ** Index mapping *)

(** [getLPVar] once its arguments are ordered, [y < x]. *)
Definition getLPVar_ordered (s : LPSolver) (x y : Z) : outcome Z :=
  if (nQP s <=? y) || (nQP s <=? x) then Fail (Bad_LP_range x y (nQP s))
  else Ret (u32 (1 + y + u32 (x * u32 (x - 1)) / 2)).

Definition getLPVar (s : LPSolver) (x y : Z) : outcome Z :=
  if y =? x then Fail (Bad_LP x y)
  else if x <? y then getLPVar_ordered s y x   (* return getLPVar(y, x) *)
  else getLPVar_ordered s x y.

Definition getQPVars (s : LPSolver) (v : Z) : outcome (Z * Z) :=
  if nLP s <? v then Fail (Bad_vQP v (nLP s))
  else
    let x := u32 (Double.sqrt_half_floor (u32 (2 * v))) in
    let y := u32 (v - 1 - u32 (x * u32 (x - 1)) / 2) in
    if x <=? y then Fail (Bad_QP x y v)
    else Ret (x, y).

(** The sizes as the constructor sets them: [nQP] is a [uint32_t] and
    [nLP = nQP*(nQP-1)/2] in [uint32_t] arithmetic. *)
Definition sized (s : LPSolver) : Prop :=
  0 <= nQP s < 2 ^ 32 /\ nLP s = u32 (nQP s * u32 (nQP s - 1)) / 2.

(** [toPair(toPacked(x,y))] of the spec. *)
Definition toPair_toPacked (s : LPSolver) (x y : Z) : outcome (Z * Z) :=
  v <- getLPVar s x y ;; getQPVars s v.

(** ** Construction *)

Definition set_lp (s : LPSolver) (l : glp_prob) : LPSolver :=
  {| problem := problem s; nQP := nQP s; nLP := nLP s; bestSol := bestSol s;
     lowerBound := lowerBound s; upperBound := upperBound s; lp := l;
     currSol := currSol s; active_clauses := active_clauses s |}.

Definition set_currSol (s : LPSolver) (c : list Q) : LPSolver :=
  {| problem := problem s; nQP := nQP s; nLP := nLP s; bestSol := bestSol s;
     lowerBound := lowerBound s; upperBound := upperBound s; lp := lp s;
     currSol := c; active_clauses := active_clauses s |}.

Definition set_upperBound (s : LPSolver) (u : Q) : LPSolver :=
  {| problem := problem s; nQP := nQP s; nLP := nLP s; bestSol := bestSol s;
     lowerBound := lowerBound s; upperBound := u; lp := lp s;
     currSol := currSol s; active_clauses := active_clauses s |}.

Definition set_bestSol (s : LPSolver) (b : list Q) : LPSolver :=
  {| problem := problem s; nQP := nQP s; nLP := nLP s; bestSol := b;
     lowerBound := lowerBound s; upperBound := upperBound s; lp := lp s;
     currSol := currSol s; active_clauses := active_clauses s |}.

(** The loop of the constructor that adds [fabs(coeffs(i,j))] over i<j
    onto [constantTerm], in the [float] member [upperBound]: each
    [upperBound += fabs(...)] adds in [double] and stores the sum as a
    [float]. *)
Definition initial_upperBound (p : Problem) (n : Z) : Q :=
  fold_left (fun ub i =>
               fold_left (fun ub j => fl32 (fl64 (ub + Qabs (coeffs p i j))))
                         (range (i + 1) n) ub)
            (range 0 n) (fl32 (constantTerm p)).

(** [LPSolver::LPSolver(Problem* p)]. *)
Definition new_LPSolver (p : Problem) : outcome LPSolver :=
  let n := p_nQP p in
  let m := u32 (n * u32 (n - 1)) / 2 in
  let ones := repeat 1%Q (Z.to_nat n) in
  l0 <- glp_add_cols glp_create_prob m ;;
  let s0 := {| problem := p; nQP := n; nLP := m; bestSol := ones;
               lowerBound := score p ones;
               upperBound := initial_upperBound p n;
               lp := l0;
               currSol := repeat 0%Q (Z.to_nat m);
               active_clauses := [] |} in
  l <- foldM (fun l i =>
                l1 <- glp_set_col_bnds l i (-1) 1 ;;
                xy <- getQPVars s0 i ;;
                glp_set_obj_coef l1 i (coeffs p (snd xy) (fst xy)))
             (range 1 (m + 1)) (lp s0) ;;
  Ret (set_lp s0 l).

(** ** Matrices of the relaxation point *)

(** [currSol[getLPVar(a,b)-1]]. *)
Definition pair_value (s : LPSolver) (a b : Z) : outcome Q :=
  v <- getLPVar s a b ;; vec_at (currSol s) (u32 (v - 1)).

(** Prepend one entry to every row. *)
Fixpoint cons_column (c : list Q) (M : matrix) : matrix :=
  match c, M with
  | x :: c', r :: M' => (x :: r) :: cons_column c' M'
  | _, _ => []
  end.

(** The two nested loops [getSubmatrix] and [getMatrix] share: for each
    position i, in order, entry (i,i) is set to 1 and, for each j > i in
    order, entries (i,j) and (j,i) to [currSol[getLPVar(idx[i],idx[j])-1]].
    The first row is 1 followed by the values of the first index against
    the others; below it the same values form the first column, next to
    the matrix of the remaining indices. *)
Fixpoint unit_symmetric (s : LPSolver) (idx : list Z) : outcome matrix :=
  match idx with
  | [] => Ret []
  | a :: rest =>
      r <- mapM (pair_value s a) rest ;;
      M <- unit_symmetric s rest ;;
      Ret ((1%Q :: r) :: cons_column r M)
  end.

(** [getSubmatrix(rows)]. *)
Definition getSubmatrix (s : LPSolver) (rows : list Z) : outcome matrix :=
  unit_symmetric s rows.

(** [getMatrix()]: the loops run over the variables [0 .. nQP-1]. *)
Definition getMatrix (s : LPSolver) : outcome matrix :=
  unit_symmetric s (range 0 (nQP s)).

(** [scoreRelaxation()]: the local [score] is a [float]; each
    [score += currSol[...] * coeffs(i,j)] multiplies and adds in [double]
    and stores the sum as a [float]. *)
Definition scoreRelaxation (s : LPSolver) : outcome Q :=
  foldM (fun sc i =>
           foldM (fun sc j =>
                    x <- pair_value s i j ;;
                    Ret (fl32 (fl64 (sc + fl64 (x * coeffs (problem s) i j)))))
                 (range (i + 1) (nQP s)) sc)
        (range 0 (nQP s)) (fl32 (constantTerm (problem s))).

Fixpoint dot (u v : list Q) : Q :=
  match u, v with
  | a :: u', b :: v' => (a * b + dot u' v')%Q
  | _, _ => 0%Q
  end.

Definition mat_vec (M : matrix) (v : list Q) : list Q := map (fun row => dot row v) M.

(** [L * v] on [double]s.  [LPSolver.cpp] leaves the order of the
    additions to Eigen; it is taken to be the order of the columns: each
    entry adds the rounded products, one after the other, to a sum that
    starts at 0. *)
Fixpoint dot_double (acc : Q) (u v : list Q) : Q :=
  match u, v with
  | a :: u', b :: v' => dot_double (fl64 (acc + fl64 (a * b))) u' v'
  | _, _ => acc
  end.

Definition mat_vec_double (M : matrix) (v : list Q) : list Q :=
  map (fun row => dot_double 0 row v) M.

(** [M *= c] and [A += B] on matrices of [double]s, entry by entry. *)
Definition mat_scale (M : matrix) (c : Q) : matrix := map (map (fun a => fl64 (a * c))) M.

Fixpoint vec_add (u v : list Q) : list Q :=
  match u, v with
  | a :: u', b :: v' => fl64 (a + b) :: vec_add u' v'
  | _, _ => []
  end.

Fixpoint mat_add (A B : matrix) : matrix :=
  match A, B with
  | a :: A', b :: B' => vec_add a b :: mat_add A' B'
  | _, _ => []
  end.

Definition mat_identity (n : Z) : matrix :=
  map (fun i => map (fun j => if i =? j then 1%Q else 0%Q) (range 0 n)) (range 0 n).

(** ** The spectrum of a symmetric matrix *)

(** v^T M v. *)
Definition quad (M : matrix) (v : list Q) : Q := dot v (mat_vec M v).

(** The smallest eigenvalue of a symmetric matrix is the minimum of the
    Rayleigh quotient v^T M v / v^T v.  So it is below [b] exactly when
    some vector has v^T M v < b v^T v (a rational one, by density), and at
    least [b] exactly when no vector has. *)
Definition has_eig_below (M : matrix) (b : Q) : Prop :=
  exists v, length v = length M /\ (quad M v < b * dot v v)%Q.

Definition min_eig_ge (M : matrix) (b : Q) : Prop :=
  forall v, length v = length M -> (b * dot v v <= quad M v)%Q.

(** ** Search for a minimal non-PSD core, rounding, and the solve loop *)

Section Solver.

(** [Eigen::SelfAdjointEigenSolver<MatrixXd>(M).eigenvalues()], in
    increasing order, and the factor [L] of [Eigen::LLT<MatrixXd>]. *)
Variable eigenvalues : matrix -> list Q.
Variable llt : matrix -> matrix.

(** The build-time switch between [glp_interior] and [glp_simplex]. *)
Variable USE_INTERIOR : bool.

(** The loop over [evals] that clears [isPSD] at the first eigenvalue
    below [-PSD_EIGEN_TOL]. *)
Definition isPSD (evals : list Q) : bool :=
  forallb (fun e => negb (Qltb e (- PSD_EIGEN_TOL))) evals.

(** The [do ... while(true)] loop; [pool] is [notInCore] read from its
    back.  [None] stands for the cleared core returned when the pool runs
    out. *)
Fixpoint grow (s : LPSolver) (core pool : list Z) : outcome (option (list Z)) :=
  match pool with
  | [] => Fail undefined_behaviour            (* notInCore.back() *)
  | newRow :: rest =>
      let core := core ++ [newRow] in
      subMat <- getSubmatrix s core ;;
      if isPSD (eigenvalues subMat) then
        match rest with
        | [] => Ret None
        | _ :: _ => grow s core rest
        end
      else Ret (Some core)
  end.

(** The [for] loop that pares the core down, [iters] rounds to go. *)
Fixpoint shrink (s : LPSolver) (iters : nat) (core : list Z) : outcome (list Z) :=
  match iters with
  | O => Ret core
  | S k =>
      match core with
      | [] => Fail undefined_behaviour        (* core[0] *)
      | removedRow :: rest =>
          subMat <- getSubmatrix s rest ;;
          if isPSD (eigenvalues subMat) then shrink s k (rest ++ [removedRow])
          else shrink s k rest
      end
  end.

(** [nonPSDcore()]; [order] is [notInCore] after [std::random_shuffle]. *)
Definition nonPSDcore (s : LPSolver) (order : list Z) : outcome (list Z) :=
  g <- grow s [] (rev order) ;;
  match g with
  | None => Ret []
  | Some core => shrink s (length core) core
  end.

(** [roundToSol()]; [normal t i] is the [i]-th sample drawn in trial [t].
    The result pairs the scores printed with the solver afterwards. *)
Definition roundToSol (s : LPSolver) (normal : Z -> Z -> Q) : outcome (list Q * LPSolver) :=
  solMat <- getMatrix s ;;
  evals0 <- vec_at (eigenvalues solMat) 0 ;;
  let minEigenvalue := fl64 (evals0 - PSD_EIGEN_TOL) in
  let solMat := mat_scale solMat (fl64 (-1 / fl64 (-1 + minEigenvalue))) in
  let solMat := mat_add solMat
                  (mat_scale (mat_identity (nQP s))
                             (fl64 (minEigenvalue / fl64 (-1 + minEigenvalue)))) in
  let L := llt solMat in
  let trial := fun tries =>
    let v := map (fun i => if i =? 0 then Qabs (normal tries i) else normal tries i)
                 (range 0 (nQP s)) in
    let resultVec := map copysign1 (mat_vec_double L v) in
    score (problem s) resultVec in
  Ret (map trial (range 0 MAX_TRIES_ROUNDING), s).

(** The labels of [solve()] and the ways it ends. *)
Inductive label : Type :=
| at_solve
| at_findcore
| at_rounding
| at_complete
| returned
| exited (code : Z)
| crashed (f : failure).

Record config : Type := {
  pc : label;
  constraintsEver : Z;
  succConstraintFail : Z;
  self : LPSolver;
  printed_scores : list Q
}.

(** Modelled from the spec: [LPSolver::findConstraint], the cut generator,
    is not in [LPSolver.cpp]; it returns an empty vector or a constant
    followed by one coefficient per pair of the core.  Its answer, like
    those of GLPK's solve, of the shuffle and of the random generator, is
    part of what the outside world replies during one block of [solve()]. *)
Record reply : Type := {
  simplex : simplex_reply;          (* glp_simplex / glp_interior *)
  shuffle : list Z;                 (* std::random_shuffle *)
  findConstraint : matrix -> list Q; (* the cut generator *)
  normal : Z -> Z -> Q              (* std::normal_distribution *)
}.

Definition goto (c : config) (l : label) : config :=
  {| pc := l; constraintsEver := constraintsEver c;
     succConstraintFail := succConstraintFail c; self := self c;
     printed_scores := printed_scores c |}.

Definition set_self (c : config) (s : LPSolver) : config :=
  {| pc := pc c; constraintsEver := constraintsEver c;
     succConstraintFail := succConstraintFail c; self := s;
     printed_scores := printed_scores c |}.

Definition set_succConstraintFail (c : config) (n : Z) : config :=
  {| pc := pc c; constraintsEver := constraintsEver c;
     succConstraintFail := n; self := self c;
     printed_scores := printed_scores c |}.

Definition set_constraintsEver (c : config) (n : Z) : config :=
  {| pc := pc c; constraintsEver := n;
     succConstraintFail := succConstraintFail c; self := self c;
     printed_scores := printed_scores c |}.

Definition print_scores (c : config) (l : list Q) : config :=
  {| pc := pc c; constraintsEver := constraintsEver c;
     succConstraintFail := succConstraintFail c; self := self c;
     printed_scores := printed_scores c ++ l |}.

(** Label [solve]: run the LP, read the columns back into the [float]s of
    [currSol], tighten the bound. *)
Definition solve_block (c : config) (r : reply) : config :=
  let s := set_lp (self c) (glp_simplex (lp (self c)) (simplex r)) in
  let c := set_self c s in
  let err := simplex_err (simplex r) in
  if negb (err =? 0) && negb (err =? GLP_EINSTAB) then goto c (exited 1)
  else if negb USE_INTERIOR && negb (lp_status (lp s) =? GLP_OPT) then goto c (exited 2)
  else
    match
      (cs <- foldM (fun cs i =>
                      x <- glp_get_col_prim (lp s) i ;; vec_set cs (u32 (i - 1)) (fl32 x))
                   (range 1 (nLP s + 1)) (currSol s) ;;
       let s := set_currSol s cs in
       sr <- scoreRelaxation s ;;
       Ret (set_upperBound s (Qmin (upperBound s) sr)))
    with
    | Ret s' => goto (set_self c s') at_findcore
    | Fail f => goto c (crashed f)
    end.

(** The loop that drops the rows whose slack, the difference of two
    [double]s, is above the threshold. *)
Definition prune_rows (l : glp_prob) : outcome glp_prob :=
  foldM (fun l i =>
           p <- glp_get_row_prim l i ;;
           b <- glp_get_row_lb l i ;;
           let slack := fl64 (p - b) in
           if Qltb CONSTRAINT_REMOVAL_SLACK slack then glp_del_row l i else Ret l)
        (rev (range 1 (glp_get_num_rows l + 1))) l.

(** The cut is accepted: prune, add the row, translate its local pair
    indices to columns of the whole problem. *)
Definition apply_constraint (s : LPSolver) (core : list Z) (constraint : list Q)
  : outcome LPSolver :=
  l <- prune_rows (lp s) ;;
  l <- glp_add_rows l 1 ;;
  let rowNum := glp_get_num_rows l in
  indices <- mapM (fun v =>
                     ij <- getQPVars s (u32 (1 + v)) ;;
                     largeI <- vec_at core (fst ij) ;;
                     largeJ <- vec_at core (snd ij) ;;
                     getLPVar s largeI largeJ)
                  (range 0 (u32 (Z.of_nat (length constraint) - 1))) ;;
  l <- glp_set_mat_row l rowNum indices (tl constraint) ;;
  c0 <- vec_at constraint 0 ;;
  l <- glp_set_row_bnds l rowNum c0 ;;
  Ret (set_lp s l).

(** Label [findcore]. *)
Definition findcore_block (c : config) (r : reply) : config :=
  let s := self c in
  match nonPSDcore s (shuffle r) with
  | Fail f => goto c (crashed f)
  | Ret core =>
      if (length core =? 0)%nat then goto c at_complete
      else
        match getSubmatrix s core with
        | Fail f => goto c (crashed f)
        | Ret coreMat =>
            let constraint := findConstraint r coreMat in
            if (length constraint =? 0)%nat then
              let c := set_succConstraintFail c (succConstraintFail c + 1) in
              if succConstraintFail c =? CONSTRAINT_FAIL_LIMIT then goto c at_rounding
              else goto c at_findcore
            else
              let c := set_succConstraintFail c 0 in
              match apply_constraint s core constraint with
              | Fail f => goto c (crashed f)
              | Ret s' =>
                  goto (set_constraintsEver (set_self c s') (constraintsEver c + 1)) at_solve
              end
        end
  end.

(** Label [rounding]. *)
Definition rounding_block (c : config) (r : reply) : config :=
  match roundToSol (self c) (normal r) with
  | Fail f => goto c (crashed f)
  | Ret (sc, s') => goto (print_scores (set_self c s') sc) returned
  end.

(** The assignments to [bestSol] under label [complete]. *)
Definition extract_bestSol (s : LPSolver) : outcome (list Q) :=
  b <- vec_set (bestSol s) 0 1%Q ;;
  foldM (fun b i =>
           x <- pair_value s 0 i ;;
           vec_set b i (inject_Z (lround x)))
        (range 1 (nQP s)) b.

(** Label [complete]. *)
Definition complete_block (c : config) : config :=
  match extract_bestSol (self c) with
  | Fail f => goto c (crashed f)
  | Ret b =>
      let s := set_bestSol (self c) b in
      goto (print_scores (set_self c s) [score (problem s) b]) returned
  end.

(** One block of [solve()], up to its next [goto] or [return]. *)
Definition step (c : config) (r : reply) : config :=
  match pc c with
  | at_solve => solve_block c r
  | at_findcore => findcore_block c r
  | at_rounding => rounding_block c r
  | at_complete => complete_block c
  | returned | exited _ | crashed _ => c
  end.

Definition run (c : config) (rs : list reply) : config := fold_left step rs c.

(** Entry of [solve()]. *)
Definition solve_entry (s : LPSolver) : config :=
  {| pc := at_solve; constraintsEver := 0; succConstraintFail := 0; self := s;
     printed_scores := [] |}.

End Solver.

(** ** Notions used to state and prove the properties *)

(** The entry of the correlation matrix for the variables [a] and [b]. *)
Definition entry (s : LPSolver) (a b : Z) : Q :=
  if a =? b then 1%Q
  else match pair_value s a b with
       | Ret q => q
       | Fail _ => 0%Q
       end.

(** The correlation matrix induced by the variables [l]. *)
Definition entries (s : LPSolver) (l : list Z) : matrix :=
  map (fun a => map (entry s a) l) l.

(** The vector [v], indexed like [l], as a weight on the variables. *)
Fixpoint weight (l : list Z) (v : list Q) (a : Z) : Q :=
  match l, v with
  | x :: l', y :: v' => if a =? x then y else weight l' v' a
  | _, _ => 0%Q
  end.

(** The index lists on which the builder returns: no index occurs twice
    and every pair of them has a relaxation value. *)
Definition buildable (s : LPSolver) (l : list Z) : Prop :=
  NoDup l /\ forall a b, In a l -> In b l -> a <> b -> exists q, pair_value s a b = Ret q.

(** The correlation submatrix of the variables [l] has smallest eigenvalue
    below [-PSD_EIGEN_TOL], respectively at least [-PSD_EIGEN_TOL]. *)
Definition violated (s : LPSolver) (l : list Z) : Prop :=
  exists M, getSubmatrix s l = Ret M /\ has_eig_below M (- PSD_EIGEN_TOL).

Definition satisfied (s : LPSolver) (l : list Z) : Prop :=
  exists M, getSubmatrix s l = Ret M /\ min_eig_ge M (- PSD_EIGEN_TOL).

(** The verdict computed from Eigen's eigenvalues is the true one on every
    submatrix of the variables [0 .. nQP-1]. *)
Definition eigen_exact (eigenvalues : matrix -> list Q) (s : LPSolver) : Prop :=
  forall rows M, incl rows (range 0 (nQP s)) -> getSubmatrix s rows = Ret M ->
    (isPSD (eigenvalues M) = false <-> has_eig_below M (- PSD_EIGEN_TOL)).

(** A solver whose vectors have the sizes the constructor gives them, for
    a number of variables whose pairs can be counted in 32 bits. *)
Definition well_formed (s : LPSolver) : Prop :=
  sized s /\ 1 <= nQP s <= 65536
  /\ length (currSol s) = Z.to_nat (nLP s)
  /\ length (bestSol s) = Z.to_nat (nQP s).

(** The test of the pruning loop: the slack of the row, as the [double]
    subtraction gives it, is above [CONSTRAINT_REMOVAL_SLACK]. *)
Definition slack_above (r : lp_row) : bool :=
  Qltb CONSTRAINT_REMOVAL_SLACK (fl64 (row_prim r - row_lb r)).

(** One round of the pruning loop, as [prune_rows] writes it. *)
Definition prune_step (l : glp_prob) (i : Z) : outcome glp_prob :=
  p <- glp_get_row_prim l i ;;
  b <- glp_get_row_lb l i ;;
  let slack := fl64 (p - b) in
  if Qltb CONSTRAINT_REMOVAL_SLACK slack then glp_del_row l i else Ret l.

(** The oracle finds a core and the cut generator has no cut for it. *)
Definition cut_fails (eigenvalues : matrix -> list Q) (s : LPSolver) (r : reply) : Prop :=
  exists core M, nonPSDcore eigenvalues s (shuffle r) = Ret core /\ core <> []
                 /\ getSubmatrix s core = Ret M /\ findConstraint r M = [].

(** The oracle finds a core and the cut generator returns a cut for it. *)
Definition cut_found (eigenvalues : matrix -> list Q) (s : LPSolver) (r : reply) : Prop :=
  exists core M, nonPSDcore eigenvalues s (shuffle r) = Ret core /\ core <> []
                 /\ getSubmatrix s core = Ret M /\ findConstraint r M <> [].

(** [solve()] has come to an end. *)
Definition halted (l : label) : Prop :=
  match l with
  | returned | exited _ | crashed _ => True
  | _ => False
  end.

(** The counter stays within its limit and reaches it only on the way to
    the fallback. *)
Definition counter_ok (c : config) : Prop :=
  match pc c with
  | at_solve | at_findcore | at_complete =>
      0 <= succConstraintFail c < CONSTRAINT_FAIL_LIMIT
  | at_rounding => succConstraintFail c = CONSTRAINT_FAIL_LIMIT
  | returned | exited _ | crashed _ =>
      0 <= succConstraintFail c <= CONSTRAINT_FAIL_LIMIT
  end.

(** ** Notions for the further properties *)

(** Entry (i,j) of a matrix, rows and columns counted from 0. *)
Definition mat_at (M : matrix) (i j : nat) : Q := nth j (nth i M []) 0%Q.

(** A rational that is an integer. *)
Definition is_integer (q : Q) : Prop := exists z : Z, (q == inject_Z z)%Q.

(** The exact sum of the absolute values of the coefficients of the pairs
    i<j. *)
Definition abs_coeffs_sum (p : Problem) : Q :=
  sumQ (map (fun i => sumQ (map (fun j => Qabs (coeffs p i j)) (range (i + 1) (p_nQP p))))
            (range 0 (p_nQP p))).

(** A problem of small integers: the constant term and the coefficients
    are integers whose absolute values add up to less than 2^24, so that
    every sum a [float] loop over the pairs forms is an integer a [float]
    holds. *)
Definition small_integers (p : Problem) : Prop :=
  is_integer (constantTerm p)
  /\ (forall i j, is_integer (coeffs p i j))
  /\ (Qabs (constantTerm p) + abs_coeffs_sum p < 16777216)%Q.

(** The objective coefficient the constructor gives column [v]:
    [coeffs(xy.second, xy.first)] for [xy = getQPVars(v)]. *)
Definition column_coeff (s : LPSolver) (v : Z) : Q :=
  match getQPVars s v with
  | Ret xy => coeffs (problem s) (snd xy) (fst xy)
  | Fail _ => 0%Q
  end.

(** Column [v] as the constructor leaves it. *)
Definition built_col (s : LPSolver) (v : Z) : lp_col :=
  {| col_lb := -1; col_ub := 1; obj_coef := column_coeff s v; col_prim := 0 |}.

(** The matrix [roundToSol()] hands to [Eigen::LLT]: [solMat] times
    [-1. / (-1 + minEigenvalue)] plus the identity times
    [minEigenvalue / (-1 + minEigenvalue)], for
    [minEigenvalue = evals[0] - 0.00001], every operation in [double]. *)
Definition sdp_shift (n : Z) (solMat : matrix) (evals0 : Q) : matrix :=
  let minEigenvalue := fl64 (evals0 - PSD_EIGEN_TOL) in
  mat_add (mat_scale solMat (fl64 (-1 / fl64 (-1 + minEigenvalue))))
          (mat_scale (mat_identity n) (fl64 (minEigenvalue / fl64 (-1 + minEigenvalue)))).

(** The random vector [v] of trial [tries]: normal samples, the first one
    made non-negative. *)
Definition rounding_vector (n : Z) (normal : Z -> Z -> Q) (tries : Z) : list Q :=
  map (fun i => if i =? 0 then Qabs (normal tries i) else normal tries i) (range 0 n).

(** The assignment of trial [tries]: the signs of [L * v]. *)
Definition rounding_candidate (L : matrix) (n : Z) (normal : Z -> Z -> Q) (tries : Z)
  : list Q :=
  map copysign1 (mat_vec_double L (rounding_vector n normal tries)).

(** The translation of position [v] of a cut, as the loop of [solve()]
    writes it: the pair [getQPVars(1+v)] of the matrix of the core names
    two positions of the core, and the coefficient goes to the column of
    the pair of variables found there. *)
Definition cut_column (s : LPSolver) (core : list Z) (v : Z) : outcome Z :=
  ij <- getQPVars s (u32 (1 + v)) ;;
  largeI <- vec_at core (fst ij) ;;
  largeJ <- vec_at core (snd ij) ;;
  getLPVar s largeI largeJ.

(** The row a cut adds to the LP. *)
Definition cut_row (indices : list Z) (constraint : list Q) (c0 : Q) : lp_row :=
  {| row_ind := indices; row_val := tl constraint; row_lb := c0; row_prim := 0 |}.

(** What [solve()] never writes, and the sizes it keeps: the problem, the
    two dimensions, the lower bound, the lengths of [currSol] and
    [bestSol], the number of columns of the LP. *)
Definition same_shape (a b : LPSolver) : Prop :=
  problem b = problem a /\ nQP b = nQP a /\ nLP b = nLP a
  /\ lowerBound b = lowerBound a
  /\ length (currSol b) = length (currSol a)
  /\ length (bestSol b) = length (bestSol a)
  /\ length (lp_cols (lp b)) = length (lp_cols (lp a)).

(** Rows of the LP that are not accounted for by the count of cuts. *)
Definition rows_not_counted (c : config) : Z :=
  Z.of_nat (length (lp_rows (lp (self c)))) - constraintsEver c.


(** ** Concrete inputs for the examples *)

(** A problem whose pairs all weigh [w]. *)
Definition uniform_problem (n : Z) (w : Q) : Problem :=
  {| p_nQP := n; coeffs := fun _ _ => w; constantTerm := 0 |}.

(** The solver as the constructor leaves it before it fills the LP
    columns, at the relaxation point [cs]. *)
Definition bare_solver (p : Problem) (cs : list Q) : LPSolver :=
  let n := p_nQP p in
  let m := u32 (n * u32 (n - 1)) / 2 in
  {| problem := p; nQP := n; nLP := m; bestSol := repeat 1%Q (Z.to_nat n);
     lowerBound := score p (repeat 1%Q (Z.to_nat n));
     upperBound := initial_upperBound p n;
     lp := {| lp_cols := repeat new_col (Z.to_nat m); lp_rows := []; lp_status := GLP_UNDEF |};
     currSol := cs;
     active_clauses := [] |}.

(** Three variables whose first pair weighs 2^24 and the two other pairs
    1. *)
Definition heavy_pair_problem : Problem :=
  {| p_nQP := 3;
     coeffs := fun i j => if (i =? 0) && (j =? 1) then 16777216%Q else 1%Q;
     constantTerm := 0 |}.

(** The spectrum of a 1x1 matrix and of a symmetric 2x2 matrix with equal
    diagonal entries, [[a, b], [b, a]]: a - |b| and a + |b|. *)
Definition small_eigenvalues (M : matrix) : list Q :=
  match M with
  | [[a]] => [a]
  | [[a; b]; [_; _]] => [a - Qabs b; a + Qabs b]%Q
  | _ => []
  end.

(** Two variables whose relaxation value is -3/2: the correlation matrix is
    [[1, -3/2], [-3/2, 1]], with eigenvalues -1/2 and 5/2. *)
Definition two_var_solver : LPSolver := bare_solver (uniform_problem 2 1) [-3 # 2]%Q.

(** Two variables with relaxation value 0: the correlation matrix is the
    identity. *)
Definition flat_solver : LPSolver := bare_solver (uniform_problem 2 0) [0%Q].

(** Three variables at the relaxation point 1, -1, -1 of the pairs (1,0),
    (2,0), (2,1). *)
Definition three_var_solver : LPSolver := bare_solver (uniform_problem 3 1) [1; -1; -1]%Q.

(** Three variables whose pairs all weigh the [double] nearest to 0.1, at
    the relaxation point 1, -1/2, 1/4. *)
Definition tenth_solver : LPSolver :=
  bare_solver (uniform_problem 3 (fl64 (1 # 10))) [1; - (1 # 2); 1 # 4]%Q.

(** An LP with two rows, of slack 1/2 and 3/2. *)
Definition two_rows : glp_prob :=
  {| lp_cols := lp_cols (lp two_var_solver);
     lp_rows := [ {| row_ind := [1]; row_val := [1%Q]; row_lb := 0; row_prim := 1 # 2 |};
                  {| row_ind := [1]; row_val := [(-1)%Q]; row_lb := 2; row_prim := 7 # 2 |} ];
     lp_status := GLP_OPT |}.

(** A row whose primal value is 0.99 and whose lower bound is -2^-60. *)
Definition tight_row : lp_row :=
  {| row_ind := [1]; row_val := [1%Q]; row_lb := - (1 # 2 ^ 60);
     row_prim := CONSTRAINT_REMOVAL_SLACK |}.

(** A world in which the simplex returns 0 for the only column, the
    shuffle leaves the order alone, the cut generator never finds a cut and
    every normal sample is 1. *)
Definition quiet_reply : reply :=
  {| simplex := {| simplex_err := 0; simplex_status := GLP_OPT;
                   simplex_cols := [0%Q]; simplex_rows := [] |};
     shuffle := [0; 1];
     findConstraint := fun _ => [];
     normal := fun _ _ => 1%Q |}.

(** The same world, but the simplex returns the [double] nearest to 0.1 for
    the only column. *)
Definition tenth_reply : reply :=
  {| simplex := {| simplex_err := 0; simplex_status := GLP_OPT;
                   simplex_cols := [fl64 (1 # 10)]; simplex_rows := [] |};
     shuffle := [0; 1];
     findConstraint := fun _ => [];
     normal := fun _ _ => 1%Q |}.

(** Integers [m] and exponents [e] whose products m * 2^e sit halfway
    between two numbers of a format, among its subnormal numbers, below
    them, or need more bits than it has. *)
Definition rounding_samples : list (Z * Z) :=
  [(16777217, 0); (16777219, 0); (-16777217, 0); (33554430, -1); (1, -150); (3, -150);
   (1, -149); (-5, -151); (3602879701896397, -55); (9007199254740993, 0);
   (9007199254740995, 3); (1, -1075); (3, -1075); (-1, -1074); (-7, -1077);
   (123456789123456789123, -40); (7, 100); (99, -200)].

(** Operands whose sums, differences, products and quotients need
    rounding, some down to the subnormal numbers or to zero, and none
    beyond the largest [double]. *)
Definition operand_samples : list (Z * Z) :=
  [(16777217, 0); (-16777217, 0); (3602879701896397, -55); (9007199254740993, 0);
   (4458563631096791, -52); (1, -60); (1, -149); (-5, -151);
   (123456789123456789123, -40); (99, -200); (12345, -984)].

(** How [SpecFloat] rounds m * 2^e to binary32 and to binary64, and the
    four operations of binary64 on two operands. *)
Definition to_binary32 (t : Z * Z) : spec_float := binary_normalize 24 128 (fst t) (snd t) false.
Definition to_binary64 (t : Z * Z) : spec_float := binary_normalize 53 1024 (fst t) (snd t) false.

Definition double_operations (t u : Z * Z) : list (spec_float * Q) :=
  let a := to_binary64 t in
  let b := to_binary64 u in
  [(SFadd 53 1024 a b, fl64 (float_value a + float_value b));
   (SFsub 53 1024 a b, fl64 (float_value a - float_value b));
   (SFmul 53 1024 a b, fl64 (float_value a * float_value b));
   (SFdiv 53 1024 a b, fl64 (float_value a / float_value b))].

(** The rule as the spec words it: a row goes when its slack exceeds the
    fraction [c] of the bound of the row. *)
Definition exceeds_fraction_of_bound (c : Q) (r : lp_row) : bool :=
  Qltb (c * row_lb r) (row_prim r - row_lb r).

(* ================================================================== *)
(** * Part II: properties                                              *)
(* ================================================================== *)

(** ** Binary64: [floor(sqrt(m)+1./2)] is computed exactly *)

Module DoubleFacts.
Import Double.

Lemma digits2_pos_size (p : positive) : digits2_pos p = Pos.size p.
Proof. induction p; simpl; congruence. Qed.

Lemma Zdigits2_bounds (m : Z) : 0 < m -> 2 ^ (Zdigits2 m - 1) <= m < 2 ^ Zdigits2 m.
Proof.
  destruct m as [|p|p]; try lia. intros _. simpl Zdigits2.
  rewrite digits2_pos_size. split.
  - pose proof (Pos.size_le p) as H.
    assert (Hz : (2 ^ Z.pos (Pos.size p) <= 2 * Z.pos p)).
    { change 2 with (Z.pos 2). rewrite <- Pos2Z.inj_pow, <- Pos2Z.inj_mul. apply Pos2Z.pos_le_pos. exact H. }
    replace (Z.pos (Pos.size p)) with (Z.succ (Z.pos (Pos.size p) - 1)) in Hz by lia.
    rewrite Z.pow_succ_r in Hz by lia. lia.
  - pose proof (Pos.size_gt p) as H.
    change 2 with (Z.pos 2). rewrite <- Pos2Z.inj_pow. apply Pos2Z.pos_lt_pos. exact H.
Qed.

Lemma Zdigits2_unique (m d : Z) : 2 ^ (d - 1) <= m < 2 ^ d -> 0 < d -> Zdigits2 m = d.
Proof.
  intros H Hd.
  assert (Hm : 0 < m). { pose proof (Z.pow_pos_nonneg 2 (d-1)); lia. }
  pose proof (Zdigits2_bounds m Hm) as B.
  assert (0 < Zdigits2 m). { destruct m; try lia. simpl. lia. }
  destruct (Z.lt_trichotomy (Zdigits2 m) d) as [L|[E|G]]; trivial.
  - assert (2 ^ Zdigits2 m <= 2 ^ (d - 1)) by (apply Z.pow_le_mono_r; lia). lia.
  - assert (2 ^ d <= 2 ^ (Zdigits2 m - 1)) by (apply Z.pow_le_mono_r; lia). lia.
Qed.

Lemma shr_1_m (x : shr_record) : 0 <= shr_m x -> shr_m (shr_1 x) = shr_m x / 2.
Proof.
  destruct x as [m r s]. simpl. intros H.
  destruct m as [|[p|p|]|p]; cbn [shr_m]; try lia; try reflexivity.
  - apply Z.div_unique with 1; lia.
  - apply Z.div_unique with 0; lia.
Qed.

Lemma iter_shr_1_m (n : positive) : forall x, 0 <= shr_m x ->
  shr_m (iter_pos shr_1 n x) = shr_m x / 2 ^ Z.pos n.
Proof.
  induction n as [n IH|n IH|]; intros x Hx; simpl iter_pos.
  - assert (H1 : 0 <= shr_m (shr_1 x)) by (rewrite shr_1_m by trivial; apply Z.div_pos; lia).
    assert (H2 : 0 <= shr_m (iter_pos shr_1 n (shr_1 x))) by (rewrite IH by trivial; apply Z.div_pos; lia).
    rewrite IH, IH, shr_1_m by trivial.
    rewrite !Z.div_div by lia. f_equal.
    replace (Z.pos n~1) with (Z.pos n + Z.pos n + 1) by lia.
    rewrite !Z.pow_add_r by lia. ring.
  - assert (H2 : 0 <= shr_m (iter_pos shr_1 n x)) by (rewrite IH by trivial; apply Z.div_pos; lia).
    rewrite IH, IH by trivial.
    rewrite !Z.div_div by lia. f_equal.
    replace (Z.pos n~0) with (Z.pos n + Z.pos n) by lia.
    rewrite Z.pow_add_r by lia. ring.
  - rewrite shr_1_m by trivial. reflexivity.
Qed.

Lemma loc_of_record_of_loc m l : loc_of_shr_record (shr_record_of_loc m l) = l.
Proof. destruct l as [|[]]; reflexivity. Qed.

Lemma shr_m_record_of_loc m l : shr_m (shr_record_of_loc m l) = m.
Proof. destruct l as [|[]]; reflexivity. Qed.

Lemma round_nearest_even_bounds m l : m <= round_nearest_even m l <= m + 1.
Proof. destruct l as [|[]]; simpl; try lia. destruct (Z.even m); lia. Qed.

Lemma shr_fexp_spec mx ex lx :
  0 < mx -> -1021 <= Zdigits2 mx + ex ->
  shr_fexp prec emax mx ex lx =
    (match Zdigits2 mx - 53 with
     | Z.pos p => iter_pos shr_1 p (shr_record_of_loc mx lx)
     | _ => shr_record_of_loc mx lx
     end, ex + Z.max 0 (Zdigits2 mx - 53)).
Proof.
  intros Hm He. unfold shr_fexp, shr.
  assert (E : fexp prec emax (Zdigits2 mx + ex) - ex = Zdigits2 mx - 53).
  { unfold fexp, SpecFloat.emin, prec, emax. lia. }
  rewrite E. destruct (Zdigits2 mx - 53) eqn:Hn.
  - f_equal; lia.
  - f_equal; lia.
  - f_equal; lia.
Qed.

Lemma binary_round_aux_bounds mx ex lx :
  0 < mx -> -1021 <= Zdigits2 mx + ex ->
  ex + Z.max 0 (Zdigits2 mx - 53) < 971 ->
  exists m' d,
    binary_round_aux prec emax false mx ex lx
      = S754_finite false m' (ex + Z.max 0 (Zdigits2 mx - 53) + d)
    /\ 0 <= d <= 1
    /\ mx / 2 ^ Z.max 0 (Zdigits2 mx - 53) <= Z.pos m' * 2 ^ d
         <= mx / 2 ^ Z.max 0 (Zdigits2 mx - 53) + 1
    /\ (Zdigits2 mx <= 53 -> lx = loc_Exact -> Z.pos m' = mx /\ d = 0).
Proof.
  intros Hm Hlo Hhi.
  pose proof (Zdigits2_bounds mx Hm) as HD.
  assert (HDpos : 0 < Zdigits2 mx) by (destruct mx; simpl; lia).
  unfold binary_round_aux. rewrite shr_fexp_spec by trivial.
  set (n := Z.max 0 (Zdigits2 mx - 53)) in *.
  set (mrs := match Zdigits2 mx - 53 with
              | Z.pos p => iter_pos shr_1 p (shr_record_of_loc mx lx)
              | _ => shr_record_of_loc mx lx end).
  assert (Hmrs : shr_m mrs = mx / 2 ^ n).
  { unfold mrs, n. destruct (Zdigits2 mx - 53) eqn:Hn.
    - rewrite shr_m_record_of_loc. rewrite Z.max_l by lia. simpl. now rewrite Z.div_1_r.
    - rewrite iter_shr_1_m by (rewrite shr_m_record_of_loc; lia).
      rewrite shr_m_record_of_loc. rewrite Z.max_r by lia. reflexivity.
    - rewrite shr_m_record_of_loc. rewrite Z.max_l by lia. simpl. now rewrite Z.div_1_r. }
  set (tr := mx / 2 ^ n) in *.
  set (D := Z.min (Zdigits2 mx) 53).
  assert (Htr : 2 ^ (D - 1) <= tr < 2 ^ D).
  { unfold tr, D, n. destruct (Z.le_gt_cases (Zdigits2 mx) 53) as [L|G].
    - rewrite Z.max_l, Z.min_l by lia. simpl (2 ^ 0). rewrite Z.div_1_r. exact HD.
    - rewrite Z.max_r, Z.min_r by lia.
      assert (P : 0 < 2 ^ (Zdigits2 mx - 53)) by (apply Z.pow_pos_nonneg; lia).
      split.
      + apply Z.div_le_lower_bound; trivial.
        rewrite <- Z.pow_add_r by lia.
        replace (Zdigits2 mx - 53 + (53 - 1)) with (Zdigits2 mx - 1) by lia. lia.
      + apply Z.div_lt_upper_bound; trivial.
        rewrite <- Z.pow_add_r by lia.
        replace (Zdigits2 mx - 53 + 53) with (Zdigits2 mx) by lia. lia. }
  set (r := round_nearest_even (shr_m mrs) (loc_of_shr_record mrs)).
  assert (Hr : tr <= r <= tr + 1).
  { unfold r. rewrite Hmrs. apply round_nearest_even_bounds. }
  assert (HDD : 0 < D <= 53) by (unfold D; lia).
  assert (Htr0 : 0 < tr). { pose proof (Z.pow_pos_nonneg 2 (D - 1)). lia. }
  assert (Hp53 : 2 ^ D <= 2 ^ 53) by (apply Z.pow_le_mono_r; lia).
  assert (Hexact : Zdigits2 mx <= 53 -> lx = loc_Exact -> r = mx).
  { intros L ->. unfold r, mrs. 
    destruct (Zdigits2 mx - 53) eqn:Hn; try lia; reflexivity. }
  destruct (Z.lt_ge_cases r (2 ^ 53)) as [Hlt|Hge].
  - (* the rounded mantissa still fits *)
    assert (Hdr : Zdigits2 r <= 53).
    { pose proof (Zdigits2_bounds r ltac:(lia)) as B.
      destruct (Z.le_gt_cases (Zdigits2 r) 53); trivial.
      assert (2 ^ 53 <= 2 ^ (Zdigits2 r - 1)) by (apply Z.pow_le_mono_r; lia). lia. }
    assert (Hdr0 : 0 < Zdigits2 r) by (destruct r; simpl; lia).
    rewrite shr_fexp_spec; try lia.
    2:{ pose proof (Zdigits2_bounds r ltac:(lia)) as B.
        destruct (Z.le_gt_cases (Zdigits2 mx) 53) as [L|G].
        - fold n. replace n with 0 by (unfold n; lia). 
          assert (Zdigits2 mx <= Zdigits2 r).
          { destruct (Z.le_gt_cases (Zdigits2 mx) (Zdigits2 r)); trivial.
            assert (2 ^ Zdigits2 r <= 2 ^ (Zdigits2 mx - 1)) by (apply Z.pow_le_mono_r; lia).
            unfold tr, n in Hr. rewrite Z.max_l in Hr by lia. simpl (2^0) in Hr.
            rewrite Z.div_1_r in Hr. lia. }
          lia.
        - assert (53 <= Zdigits2 r).
          { destruct (Z.le_gt_cases 53 (Zdigits2 r)); trivial.
            assert (2 ^ Zdigits2 r <= 2 ^ (53 - 1)) by (apply Z.pow_le_mono_r; lia).
            unfold D in Htr. rewrite Z.min_r in Htr by lia. lia. }
          fold n. unfold n. lia. }
    replace (Zdigits2 r - 53) with (Zdigits2 r - 53) by reflexivity.
    destruct (Zdigits2 r - 53) eqn:Hn; try lia.
    + cbn [shr_record_of_loc shr_m]. destruct r as [|pr|pr]; try lia.
      exists pr, 0. fold n. rewrite Z.max_l by lia.
      replace (ex + n + 0 <=? emax - prec) with true by (symmetry; apply Z.leb_le; unfold emax, prec; lia).
      split; [reflexivity|]. split; [lia|]. split; [rewrite Z.mul_1_r; exact Hr|].
      intros L E. split; [now apply Hexact| reflexivity].
    + cbn [shr_record_of_loc shr_m]. destruct r as [|pr|pr]; try lia.
      exists pr, 0. fold n. rewrite Z.max_l by lia.
      replace (ex + n + 0 <=? emax - prec) with true by (symmetry; apply Z.leb_le; unfold emax, prec; lia).
      split; [reflexivity|]. split; [lia|]. split; [rewrite Z.mul_1_r; exact Hr|].
      intros L E. split; [now apply Hexact| reflexivity].
  - (* rounding carried into a 54th bit: r = 2^53 *)
    assert (Er : r = 2 ^ 53) by lia.
    assert (HD53 : D = 53).
    { destruct (Z.eq_dec D 53); trivial.
      assert (2 ^ D <= 2 ^ 52) by (apply Z.pow_le_mono_r; lia). lia. }
    assert (Hdr : Zdigits2 r = 54) by (rewrite Er; reflexivity).
    rewrite shr_fexp_spec; try lia.
    rewrite Hdr. simpl (54 - 53). cbn [iter_pos]. rewrite Er.
    cbn -[Z.add Z.max Z.leb Z.mul Z.div Z.pow].
    exists (2 ^ 52)%positive, 1. fold n. 
    replace (ex + n + Z.max 0 1 <=? emax - prec) with true by (symmetry; apply Z.leb_le; unfold emax, prec; lia).
    split; [reflexivity|]. split; [lia|]. split.
    + change (Z.pos (2 ^ 52) * 2 ^ 1) with (2 ^ 53). lia.
    + intros L E. exfalso. rewrite (Hexact L E) in Er. 
      unfold D in HD53. pose proof (Z.pow_lt_mono_r 2 (Zdigits2 mx) 54). 
      assert (2 ^ Zdigits2 mx <= 2 ^ 53) by (apply Z.pow_le_mono_r; lia). lia.
Qed.

Lemma Pos_iter_xO (p d : positive) : Z.pos (Pos.iter xO p d) = Z.pos p * 2 ^ Z.pos d.
Proof.
  revert p. induction d as [|d IH] using Pos.peano_ind; intros p.
  - simpl. lia.
  - rewrite Pos.iter_succ, Pos2Z.inj_xO, IH, Pos2Z.inj_succ, Z.pow_succ_r by lia. ring.
Qed.

Lemma shl_align_spec (p : positive) (e e' : Z) :
  fst (shl_align p e e') = Z.to_pos (Z.pos p * 2 ^ Z.max 0 (e - e'))
  /\ snd (shl_align p e e') = Z.min e e'.
Proof.
  unfold shl_align. destruct (e' - e) eqn:E; cbn [fst snd].
  - rewrite Z.max_l by lia. simpl (2 ^ 0). rewrite Z.mul_1_r. split; [reflexivity|lia].
  - rewrite Z.max_l by lia. simpl (2 ^ 0). rewrite Z.mul_1_r. split; [reflexivity|lia].
  - rewrite Z.max_r by lia. replace (e - e') with (Z.pos p0) by lia.
    rewrite <- Pos_iter_xO. split; [reflexivity|lia].
Qed.

Lemma binary_round_bounds (p : positive) (e : Z) :
  -1021 <= Zdigits2 (Z.pos p) + e -> e + Zdigits2 (Z.pos p) < 971 ->
  let D := Zdigits2 (Z.pos p) in
  exists m' d,
    binary_round prec emax false p e = S754_finite false m' (e + (D - 53) + d)
    /\ 0 <= d <= 1
    /\ (D <= 53 -> Z.pos m' = Z.pos p * 2 ^ (53 - D) /\ d = 0)
    /\ (53 <= D -> Z.pos p / 2 ^ (D - 53) <= Z.pos m' * 2 ^ d <= Z.pos p / 2 ^ (D - 53) + 1).
Proof.
  intros Hlo Hhi D. unfold binary_round.
  pose proof (Zdigits2_bounds (Z.pos p) ltac:(lia)) as HD. fold D in HD, Hlo, Hhi.
  assert (HD0 : 0 < D) by (unfold D; simpl; lia).
  change (Z.pos (digits2_pos p)) with D.
  assert (Ef : fexp prec emax (D + e) = D + e - 53)
    by (unfold fexp, SpecFloat.emin, prec, emax; lia).
  rewrite Ef.
  destruct (shl_align_spec p e (D + e - 53)) as [A1 A2].
  destruct (shl_align p e (D + e - 53)) as [mz ez]. cbn [fst snd] in A1, A2.
  replace (e - (D + e - 53)) with (53 - D) in A1 by lia.
  assert (Hmz : Z.pos mz = Z.pos p * 2 ^ Z.max 0 (53 - D)).
  { rewrite A1. rewrite Z2Pos.id; trivial.
    assert (0 < 2 ^ Z.max 0 (53 - D)) by (apply Z.pow_pos_nonneg; lia). lia. }
  destruct (Z.le_gt_cases D 53) as [L|G].
  - (* short mantissa: aligned to 53 digits, nothing is rounded away *)
    rewrite Z.max_r in Hmz by lia.
    assert (Hdig : Zdigits2 (Z.pos mz) = 53).
    { apply Zdigits2_unique; try lia. rewrite Hmz.
      assert (P : 0 < 2 ^ (53 - D)) by (apply Z.pow_pos_nonneg; lia).
      replace (2 ^ (53 - 1)) with (2 ^ (D - 1) * 2 ^ (53 - D))
        by (rewrite <- Z.pow_add_r by lia; f_equal; lia).
      replace (2 ^ 53) with (2 ^ D * 2 ^ (53 - D))
        by (rewrite <- Z.pow_add_r by lia; f_equal; lia).
      split; [apply Z.mul_le_mono_nonneg_r|apply Z.mul_lt_mono_pos_r]; lia. }
    destruct (binary_round_aux_bounds (Z.pos mz) ez loc_Exact) as (m' & d & R & Hd & B & X);
      try lia.
    rewrite Hdig in *. destruct X as [X1 X2]; [lia|reflexivity|]. subst d.
    exists m', 0. rewrite R. split; [f_equal; lia|]. split; [lia|]. split.
    + intros _. split; [congruence|reflexivity].
    + intros L'. assert (D = 53) by lia. replace (D - 53) with 0 by lia.
      simpl (2 ^ 0). rewrite Z.div_1_r, Z.mul_1_r, X1, Hmz.
      replace (53 - D) with 0 by lia. simpl (2 ^ 0). lia.
  - (* long mantissa: rounded to 53 digits *)
    rewrite Z.max_l in Hmz by lia. simpl (2 ^ 0) in Hmz. rewrite Z.mul_1_r in Hmz.
    injection Hmz as ->.
    destruct (binary_round_aux_bounds (Z.pos p) ez loc_Exact) as (m' & d & R & Hd & B & X);
      fold D; try lia.
    fold D in R, B. rewrite Z.max_r in R, B by lia.
    exists m', d. rewrite R. split; [f_equal; lia|]. split; [lia|]. split; [lia|].
    intros _. exact B.
Qed.

Lemma of_Z_spec (m : Z) :
  0 < m < 2 ^ 53 ->
  exists m0, of_Z m = S754_finite false m0 (Zdigits2 m - 53)
             /\ Z.pos m0 = m * 2 ^ (53 - Zdigits2 m)
             /\ Zdigits2 (Z.pos m0) = 53.
Proof.
  intros Hm. destruct m as [|p|p]; try lia.
  pose proof (Zdigits2_bounds (Z.pos p) ltac:(lia)) as HD.
  assert (HD0 : 0 < Zdigits2 (Z.pos p)) by (simpl; lia).
  assert (HD53 : Zdigits2 (Z.pos p) <= 53).
  { destruct (Z.le_gt_cases (Zdigits2 (Z.pos p)) 53); trivial.
    assert (2 ^ 53 <= 2 ^ (Zdigits2 (Z.pos p) - 1)) by (apply Z.pow_le_mono_r; lia). lia. }
  unfold of_Z, binary_normalize.
  destruct (binary_round_bounds p 0) as (m' & d & R & Hd & S & _); try lia.
  destruct (S HD53) as [S1 ->].
  exists m'. rewrite R. split; [f_equal; lia|]. split; [exact S1|].
  apply Zdigits2_unique; try lia. rewrite S1.
  set (D := Zdigits2 (Z.pos p)) in *.
  assert (P : 0 < 2 ^ (53 - D)) by (apply Z.pow_pos_nonneg; lia).
  replace (2 ^ (53 - 1)) with (2 ^ (D - 1) * 2 ^ (53 - D))
    by (rewrite <- Z.pow_add_r by lia; f_equal; lia).
  replace (2 ^ 53) with (2 ^ D * 2 ^ (53 - D))
    by (rewrite <- Z.pow_add_r by lia; f_equal; lia).
  split; [apply Z.mul_le_mono_nonneg_r|apply Z.mul_lt_mono_pos_r]; lia.
Qed.

Lemma sqrt_bounds (m0 : positive) (e0 : Z) :
  Zdigits2 (Z.pos m0) = 53 -> -52 <= e0 <= 0 ->
  let t := 53 - (e0 + 54) / 2 in
  exists m1 d1,
    sqrt (S754_finite false m0 e0) = S754_finite false m1 (- t + d1)
    /\ 0 <= d1 <= 1
    /\ Z.sqrt (Z.pos m0 * 2 ^ (e0 + 2 * t)) <= Z.pos m1 * 2 ^ d1
         <= Z.sqrt (Z.pos m0 * 2 ^ (e0 + 2 * t)) + 1
    /\ Z.sqrt (Z.pos m0 * 2 ^ (e0 + 2 * t)) < 2 ^ 53.
Proof.
  intros Hdig He t. unfold sqrt, SFsqrt, SFsqrt_core_binary. rewrite Hdig.
  assert (E1 : Z.min (fexp prec emax (Z.div2 (53 + e0 + 1))) (Z.div2 e0) = - t).
  { rewrite !Z.div2_div. unfold fexp, SpecFloat.emin, prec, emax, t. 
    replace (53 + e0 + 1) with (e0 + 54) by lia. Z.div_mod_to_equations. lia. }
  rewrite E1.
  assert (Hs : 52 <= e0 - 2 * - t <= 53) by (unfold t; Z.div_mod_to_equations; lia).
  replace (e0 - 2 * - t) with (e0 + 2 * t) in * by lia.
  set (s := e0 + 2 * t) in *.
  set (m' := Z.pos m0 * 2 ^ s).
  assert (Em : match s with Z.pos _ => Z.shiftl (Z.pos m0) s | 0 => Z.pos m0 | Z.neg _ => 0 end = m').
  { unfold m'. destruct s eqn:Es; try lia. rewrite Z.shiftl_mul_pow2 by lia. reflexivity. }
  rewrite Em.
  pose proof (Zdigits2_bounds (Z.pos m0) ltac:(lia)) as B0. rewrite Hdig in B0.
  assert (Hm'lo : 2 ^ 52 * 2 ^ 52 <= m').
  { unfold m'. apply Z.mul_le_mono_nonneg; try lia. apply Z.pow_le_mono_r; lia. }
  assert (Hm'hi : m' < 2 ^ 53 * 2 ^ 53).
  { unfold m'. assert (2 ^ s <= 2 ^ 53) by (apply Z.pow_le_mono_r; lia).
    assert (0 < 2 ^ s) by (apply Z.pow_pos_nonneg; lia). nia. }
  pose proof (Z.sqrtrem_sqrt m') as Eq.
  destruct (Z.sqrtrem m') as [q r]. cbn [fst] in Eq. subst q.
  set (q := Z.sqrt m') in *.
  assert (Hqlo : 2 ^ 52 <= q).
  { unfold q. apply Z.sqrt_le_square; lia. }
  assert (Hqhi : q < 2 ^ 53).
  { unfold q. apply Z.sqrt_lt_square; lia. }
  assert (Hdq : Zdigits2 q = 53) by (apply Zdigits2_unique; simpl (53 - 1); lia).
  set (l := if r =? 0 then loc_Exact else loc_Inexact (if r <=? q then Lt else Gt)).
  destruct (binary_round_aux_bounds q (- t) l) as (m1 & d1 & R & Hd & B & _);
    rewrite ?Hdq; unfold t; try (Z.div_mod_to_equations; lia).
  rewrite Hdq in R, B. rewrite Z.max_l in R, B by lia.
  simpl (2 ^ 0) in B. rewrite Z.div_1_r in B.
  exists m1, d1. unfold t in R. rewrite R. split; [f_equal; lia|]. 
  split; [lia|]. split; [exact B|exact Hqhi].
Qed.

Lemma add_half_bounds (m1 : positive) (e1 : Z) :
  -52 <= e1 <= 0 -> Z.pos m1 < 2 ^ 54 ->
  let sum := Z.pos m1 * 2 ^ (e1 + 53) + 2 ^ 52 in
  let D := Zdigits2 sum in
  exists m2 d2,
    add (S754_finite false m1 e1) half
      = S754_finite false m2 (-53 + (D - 53) + d2)
    /\ 0 <= d2 <= 1 /\ 53 <= D
    /\ sum / 2 ^ (D - 53) <= Z.pos m2 * 2 ^ d2 <= sum / 2 ^ (D - 53) + 1.
Proof.
  intros He Hm1 sum D. unfold add, SFadd, half.
  replace (Z.min e1 (-53)) with (-53) by lia.
  destruct (shl_align_spec m1 e1 (-53)) as [A1 _].
  destruct (shl_align_spec (2 ^ 52) (-53) (-53)) as [A2 _].
  rewrite A1, A2. cbn [cond_Zopp].
  replace (e1 - -53) with (e1 + 53) by lia. rewrite (Z.max_r 0 (e1 + 53)) by lia.
  replace (-53 - -53) with 0 by lia. rewrite Z.max_l by lia.
  assert (P : 0 < 2 ^ (e1 + 53)) by (apply Z.pow_pos_nonneg; lia).
  rewrite <- Pos2Z.inj_add.
  set (a := (Z.to_pos (Z.pos m1 * 2 ^ (e1 + 53)) + Z.to_pos (Z.pos (2 ^ 52) * 2 ^ 0))%positive).
  assert (Ea : Z.pos a = sum).
  { unfold a, sum. rewrite Pos2Z.inj_add, !Z2Pos.id by lia. reflexivity. }
  cbn [binary_normalize].
  assert (Hsum : 2 ^ 52 < sum) by (unfold sum; lia).
  assert (HD : 53 <= D).
  { unfold D. pose proof (Zdigits2_bounds sum ltac:(lia)) as B.
    destruct (Z.le_gt_cases 53 (Zdigits2 sum)); trivial.
    assert (2 ^ Zdigits2 sum <= 2 ^ 52) by (apply Z.pow_le_mono_r; lia). lia. }
  assert (HD' : D <= 108).
  { unfold D. pose proof (Zdigits2_bounds sum ltac:(lia)) as B.
    destruct (Z.le_gt_cases (Zdigits2 sum) 108); trivial.
    assert (2 ^ 108 <= 2 ^ (Zdigits2 sum - 1)) by (apply Z.pow_le_mono_r; lia).
    assert (2 ^ (e1 + 53) <= 2 ^ 53) by (apply Z.pow_le_mono_r; lia).
    assert (sum < 2 ^ 54 * 2 ^ 53 + 2 ^ 52) by (unfold sum; nia). lia. }
  destruct (binary_round_bounds a (-53)) as (m2 & d2 & R & Hd & _ & B);
    rewrite ?Ea; fold D; try lia.
  rewrite Ea in R, B. fold D in R, B.
  exists m2, d2. rewrite R. repeat split; try lia; apply B; lia.
Qed.

Lemma round_sqrt_facts (m : Z) :
  0 < m < 2 ^ 32 ->
  let k := (Z.sqrt (4 * m) + 1) / 2 in
  1 <= k <= 65536 /\ (2 * k - 1) * (2 * k - 1) <= 4 * m /\ m <= k * k + k.
Proof.
  intros Hm k. pose proof (Z.sqrt_spec (4 * m) ltac:(lia)) as S.
  unfold Z.succ in S.
  set (s := Z.sqrt (4 * m)) in *.
  assert (Hs0 : 0 <= s) by apply Z.sqrt_nonneg.
  assert (Hk : 2 * k - 1 <= s <= 2 * k) by (unfold k; Z.div_mod_to_equations; lia).
  assert (Hs2 : 2 <= s).
  { apply Z.nlt_ge. intros C. assert ((s + 1) * (s + 1) <= 2 * 2) by (apply Z.mul_le_mono_nonneg; lia). lia. }
  assert (Hs17 : s < 2 ^ 17).
  { apply Z.nle_gt. intros C. destruct S as [S _].
    assert (2 ^ 17 * 2 ^ 17 <= s * s) by (apply Z.mul_le_mono_nonneg; lia). lia. }
  split; [lia|]. split; [nia|nia].
Qed.

Theorem sqrt_half_floor_exact (m : Z) :
  0 <= m < 2 ^ 32 -> sqrt_half_floor m = (Z.sqrt (4 * m) + 1) / 2.
Proof.
  intros Hm. destruct (Z.eq_dec m 0) as [->|Hm0]; [reflexivity|].
  assert (Hm' : 0 < m < 2 ^ 32) by lia.
  destruct (round_sqrt_facts m Hm') as (Hk & Klo & Khi).
  set (k := (Z.sqrt (4 * m) + 1) / 2) in *.
  pose proof (Zdigits2_bounds m ltac:(lia)) as HD.
  set (D := Zdigits2 m) in *.
  assert (HD0 : 0 < D) by (unfold D; destruct m; simpl; lia).
  assert (HD32 : D <= 32).
  { destruct (Z.le_gt_cases D 32); trivial.
    assert (2 ^ 32 <= 2 ^ (D - 1)) by (apply Z.pow_le_mono_r; lia). lia. }
  unfold sqrt_half_floor.
  destruct (of_Z_spec m) as (m0 & E0 & V0 & Dig0); [lia|]. fold D in E0, V0.
  rewrite E0.
  destruct (sqrt_bounds m0 (D - 53) Dig0) as (m1 & d1 & E1 & Hd1 & B1 & Q53); [lia|].
  rewrite E1.
  set (t := 53 - (D - 53 + 54) / 2) in *.
  assert (Ht : 37 <= t <= 52) by (unfold t; Z.div_mod_to_equations; lia).
  assert (HtD : 2 * t + D = 105 \/ 2 * t + D = 106) by (unfold t; Z.div_mod_to_equations; lia).
  set (T := 2 ^ (t - 1)).
  set (C := 2 ^ (53 - t)).
  assert (HT : 2 ^ 36 <= T) by (apply Z.pow_le_mono_r; lia).
  assert (HC : 0 < C) by (apply Z.pow_pos_nonneg; lia).
  assert (HTC : T * C = 2 ^ 52).
  { unfold T, C. rewrite <- Z.pow_add_r by lia. f_equal. lia. }
  assert (Earg : Z.pos m0 * 2 ^ (D - 53 + 2 * t) = 4 * m * (T * T)).
  { rewrite V0. unfold T. rewrite <- Z.mul_assoc, <- !Z.pow_add_r by lia.
    replace (53 - D + (D - 53 + 2 * t)) with (2 + (t - 1 + (t - 1))) by lia.
    rewrite (Z.pow_add_r 2 2) by lia. change (2 ^ 2) with 4. ring. }
  rewrite Earg in B1, Q53.
  pose proof (Z.sqrt_spec (4 * m * (T * T)) ltac:(nia)) as Sq.
  unfold Z.succ in Sq.
  set (q := Z.sqrt (4 * m * (T * T))) in *.
  assert (Hq0 : 0 <= q) by apply Z.sqrt_nonneg.
  set (X := Z.pos m1 * 2 ^ d1) in *.
  (* the rounded root lies between the two half-integer thresholds *)
  assert (Qlo : (2 * k - 1) * T <= q).
  { apply Z.nlt_ge. intros Cn.
    assert ((q + 1) * (q + 1) <= ((2 * k - 1) * T) * ((2 * k - 1) * T))
      by (apply Z.mul_le_mono_nonneg; lia).
    nia. }
  assert (Qhi : q + 3 < (2 * k + 1) * T).
  { apply Z.nle_gt. intros Cn.
    assert (G : ((2 * k + 1) * T - 3) * ((2 * k + 1) * T - 3) <= q * q)
      by (apply Z.mul_le_mono_nonneg; nia).
    assert (G2 : ((2 * k + 1) * T - 3) * ((2 * k + 1) * T - 3)
                 = 4 * (k * k + k) * (T * T) + T * (T - 6 * (2 * k + 1)) + 9) by ring.
    assert (0 <= T * (T - 6 * (2 * k + 1))) by (apply Z.mul_nonneg_nonneg; lia).
    assert (4 * m * (T * T) <= 4 * (k * k + k) * (T * T)) by nia.
    lia. }
  assert (Hm1 : Z.pos m1 < 2 ^ 54).
  { assert (1 <= 2 ^ d1) by (pose proof (Z.pow_pos_nonneg 2 d1); lia). unfold X in B1. nia. }
  destruct (add_half_bounds m1 (- t + d1)) as (m2 & d2 & E2 & Hd2 & HD' & B2); [lia|exact Hm1|].
  rewrite E2.
  assert (Esum : Z.pos m1 * 2 ^ (- t + d1 + 53) + 2 ^ 52 = (X + T) * C).
  { unfold X, C. replace (- t + d1 + 53) with (d1 + (53 - t)) by lia.
    rewrite Z.pow_add_r by lia. fold C. rewrite <- HTC. ring. }
  rewrite Esum in *.
  set (sum := (X + T) * C) in *.
  pose proof (Zdigits2_bounds sum ltac:(unfold sum; nia)) as HDs.
  set (D' := Zdigits2 sum) in *.
  set (n := D' - 53) in *.
  assert (Hn : 0 <= n <= 54 - t).
  { split; [lia|]. apply Z.nlt_ge. intros Cn.
    assert (2 ^ (55 - t + 52) <= 2 ^ (D' - 1)) by (apply Z.pow_le_mono_r; lia).
    assert (E : 2 ^ (55 - t + 52) = 4 * C * 2 ^ 52).
    { unfold C. replace (55 - t + 52) with (2 + (53 - t) + 52) by lia.
      rewrite !Z.pow_add_r by lia. reflexivity. }
    assert (sum < 4 * C * 2 ^ 52) by (unfold sum; nia). lia. }
  assert (H2n : 0 < 2 ^ n <= 2 * C).
  { split; [apply Z.pow_pos_nonneg; lia|].
    replace (2 * C) with (2 ^ (54 - t)).
    - apply Z.pow_le_mono_r; lia.
    - unfold C. replace (54 - t) with (1 + (53 - t)) by lia. rewrite Z.pow_add_r by lia. reflexivity. }
  cbn [floor].
  replace (0 <=? -53 + n + d2) with false by (symmetry; apply Z.leb_gt; lia).
  set (N := - (-53 + n + d2)).
  set (P := 2 ^ (53 - n)).
  assert (HP : P * 2 ^ n = 2 ^ 53).
  { unfold P. rewrite <- Z.pow_add_r by lia. f_equal. lia. }
  assert (HN : 2 ^ N * 2 ^ d2 = P).
  { unfold P, N. rewrite <- Z.pow_add_r by lia. f_equal. lia. }
  assert (HN0 : 0 < 2 ^ N) by (apply Z.pow_pos_nonneg; unfold N; lia).
  assert (Hd20 : 0 < 2 ^ d2) by (apply Z.pow_pos_nonneg; lia).
  assert (HP0 : 0 < P) by (apply Z.pow_pos_nonneg; lia).
  set (Y := Z.pos m2 * 2 ^ d2) in *.
  assert (Ylo : k * P <= Y).
  { apply Z.le_trans with (sum / 2 ^ n); [|lia].
    apply Z.div_le_lower_bound; [lia|].
    replace (2 ^ n * (k * P)) with (k * 2 ^ 53) by (rewrite <- HP; ring).
    replace (2 ^ 53) with (2 * (T * C)) by (rewrite HTC; reflexivity).
    unfold sum. nia. }
  assert (Yhi : Y < (k + 1) * P).
  { assert (sum / 2 ^ n < (k + 1) * P - 1); [|lia].
    apply Z.div_lt_upper_bound; [lia|].
    replace (2 ^ n * ((k + 1) * P - 1)) with ((k + 1) * 2 ^ 53 - 2 ^ n) by (rewrite <- HP; ring).
    replace (2 ^ 53) with (2 * (T * C)) by (rewrite HTC; reflexivity).
    unfold sum. nia. }
  symmetry. apply Z.div_unique with (Z.pos m2 - k * 2 ^ N).
  - left. split.
    + assert (k * 2 ^ N <= Z.pos m2); [|lia].
      apply Z.mul_le_mono_pos_r with (2 ^ d2); trivial. 
      replace (k * 2 ^ N * 2 ^ d2) with (k * P) by (rewrite <- HN; ring). exact Ylo.
    + assert (Z.pos m2 < (k + 1) * 2 ^ N); [|lia].
      apply Z.mul_lt_mono_pos_r with (2 ^ d2); trivial.
      replace ((k + 1) * 2 ^ N * 2 ^ d2) with ((k + 1) * P) by (rewrite <- HN; ring). exact Yhi.
  - fold N. ring.
Qed.

End DoubleFacts.

(** ** Rounding: monotone, symmetric, exact on the numbers of the format *)

Module RoundingFacts.
Import Rounding.

Lemma pow2_pos (e : Z) : (0 < pow2 e)%Q.
Proof.
  unfold pow2. destruct (0 <=? e) eqn:E.
  - apply Z.leb_le in E. unfold Qlt. cbn. pose proof (Z.pow_pos_nonneg 2 e). lia.
  - reflexivity.
Qed.

Lemma pow2_succ (e : Z) : (pow2 (e + 1) == 2 * pow2 e)%Q.
Proof.
  unfold pow2. destruct (Z.leb_spec 0 e) as [H|H].
  - replace (0 <=? e + 1) with true by (symmetry; apply Z.leb_le; lia).
    rewrite Z.pow_add_r by lia. rewrite inject_Z_mult.
    change (inject_Z (2 ^ 1)) with 2%Q. ring.
  - destruct (Z.leb_spec 0 (e + 1)) as [H'|H'].
    + assert (e = -1) by lia. subst. reflexivity.
    + replace (- e) with (- (e + 1) + 1) by lia.
      rewrite Z.pow_add_r by lia.
      pose proof (Z.pow_pos_nonneg 2 (- (e + 1))) as P.
      unfold Qeq. cbn [Qnum Qden Qmult]. rewrite !Z2Pos.id by lia.
      rewrite Pos2Z.inj_mul. rewrite !Z2Pos.id by lia. lia.
Qed.

Lemma pow2_shift (e n : Z) : 0 <= n -> (pow2 (e + n) == pow2 e * inject_Z (2 ^ n))%Q.
Proof.
  intros Hn. revert e. pattern n. apply natlike_ind; [| |exact Hn].
  - intros e. rewrite Z.add_0_r. cbn. ring.
  - intros k Hk IH e. replace (e + Z.succ k) with (e + k + 1) by lia.
    rewrite pow2_succ, IH. rewrite Z.pow_succ_r by lia. rewrite inject_Z_mult. ring.
Qed.

Lemma pow2_le (a b : Z) : a <= b -> (pow2 a <= pow2 b)%Q.
Proof.
  intros H. replace b with (a + (b - a)) by lia. rewrite pow2_shift by lia.
  pose proof (pow2_pos a) as P.
  assert (H1 : (1 <= inject_Z (2 ^ (b - a)))%Q).
  { change 1%Q with (inject_Z 1). rewrite <- Zle_Qle. pose proof (Z.pow_pos_nonneg 2 (b - a)). lia. }
  nra.
Qed.

Lemma pow2_lt_inv (a b : Z) : (pow2 a < pow2 b)%Q -> a < b.
Proof.
  intros H. destruct (Z.lt_ge_cases a b) as [L|G]; [exact L|].
  apply pow2_le in G. lra.
Qed.

(** [ilog2] brackets a positive number between two powers of 2. *)
Lemma ilog2_spec (x : Q) :
  (0 < x)%Q -> (pow2 (ilog2 x) <= x < pow2 (ilog2 x + 1))%Q.
Proof.
  intros Hx. destruct x as [a b]. assert (Ha : 0 < a) by (unfold Qlt in Hx; cbn in Hx; lia).
  unfold ilog2. cbn [Qnum Qden].
  pose proof (Z.log2_spec a Ha) as [A1 A2].
  pose proof (Z.log2_spec (Z.pos b) (Pos2Z.is_pos b)) as [B1 B2].
  pose proof (Z.log2_nonneg a) as La. pose proof (Z.log2_nonneg (Z.pos b)) as Lb.
  set (la := Z.log2 a) in *. set (lb := Z.log2 (Z.pos b)) in *.
  assert (Exb : ((a # b) * inject_Z (Z.pos b) == inject_Z a)%Q).
  { unfold Qeq. cbn. lia. }
  assert (P1 : (0 < inject_Z (2 ^ lb))%Q).
  { change 0%Q with (inject_Z 0). rewrite <- Zlt_Qlt. apply Z.pow_pos_nonneg; lia. }
  assert (P2 : (0 < inject_Z (2 ^ (lb + 1)))%Q).
  { change 0%Q with (inject_Z 0). rewrite <- Zlt_Qlt. apply Z.pow_pos_nonneg; lia. }
  assert (Hi : (a # b < pow2 (la - lb + 1))%Q).
  { apply (Qmult_lt_r _ _ (inject_Z (2 ^ lb)) P1).
    rewrite <- pow2_shift by lia. replace (la - lb + 1 + lb) with (la + 1) by lia.
    apply Qle_lt_trans with (inject_Z a).
    - rewrite <- Exb. apply Qmult_le_l; [exact Hx|]. now rewrite <- Zle_Qle.
    - unfold pow2. replace (0 <=? la + 1) with true by (symmetry; apply Z.leb_le; lia).
      rewrite <- Zlt_Qlt. replace (la + 1) with (Z.succ la) by lia. exact A2. }
  assert (Lo : (pow2 (la - lb - 1) <= a # b)%Q).
  { apply (Qmult_le_r _ _ (inject_Z (2 ^ (lb + 1))) P2).
    rewrite <- pow2_shift by lia. replace (la - lb - 1 + (lb + 1)) with la by lia.
    apply Qle_trans with (inject_Z a).
    - unfold pow2. replace (0 <=? la) with true by (symmetry; apply Z.leb_le; lia).
      now rewrite <- Zle_Qle.
    - rewrite <- Exb. apply Qmult_le_l; [exact Hx|]. rewrite <- Zle_Qle.
      replace (lb + 1) with (Z.succ lb) by lia. lia. }
  destruct (Qle_bool (pow2 (la - lb)) (a # b)) eqn:E.
  - apply Qle_bool_iff in E. split; assumption.
  - replace (la - lb - 1 + 1) with (la - lb) by lia. split; [exact Lo|].
    apply Qnot_le_lt. intros C. apply Qle_bool_iff in C. congruence.
Qed.

Lemma ilog2_unique (x : Q) (l : Z) :
  (pow2 l <= x < pow2 (l + 1))%Q -> ilog2 x = l.
Proof.
  intros [L U]. assert (Hx : (0 < x)%Q) by (pose proof (pow2_pos l); lra).
  destruct (ilog2_spec x Hx) as [L' U'].
  assert (l < ilog2 x + 1) by (apply pow2_lt_inv; lra).
  assert (ilog2 x < l + 1) by (apply pow2_lt_inv; lra).
  lia.
Qed.

Lemma ilog2_comp (x y : Q) : (0 < x)%Q -> (x == y)%Q -> ilog2 x = ilog2 y.
Proof.
  intros Hx E. symmetry. apply ilog2_unique. rewrite <- E. now apply ilog2_spec.
Qed.

Lemma nearest_even_bounds (x : Q) : Qfloor x <= nearest_even x <= Qfloor x + 1.
Proof.
  unfold nearest_even.
  destruct (Qcompare (x - inject_Z (Qfloor x)) (1 # 2)); [destruct (Z.even _)| |]; lia.
Qed.

Lemma nearest_even_ge (x : Q) (n : Z) : (inject_Z n <= x)%Q -> n <= nearest_even x.
Proof.
  intros H. apply Qfloor_resp_le in H. rewrite Qfloor_Z in H.
  pose proof (nearest_even_bounds x). lia.
Qed.

Lemma nearest_even_le (x : Q) (n : Z) : (x <= inject_Z n)%Q -> nearest_even x <= n.
Proof.
  intros H. pose proof (Qfloor_resp_le _ _ H) as F. rewrite Qfloor_Z in F.
  pose proof (nearest_even_bounds x) as B.
  destruct (Z.eq_dec (Qfloor x) n) as [E|E]; [|lia].
  unfold nearest_even. rewrite E.
  destruct (Qcompare_spec (x - inject_Z n) (1 # 2)) as [C|C|C]; [lra|lia|lra].
Qed.

Lemma nearest_even_mono (x y : Q) : (x <= y)%Q -> nearest_even x <= nearest_even y.
Proof.
  intros H. pose proof (Qfloor_resp_le _ _ H) as F.
  pose proof (nearest_even_bounds x) as Bx. pose proof (nearest_even_bounds y) as By.
  destruct (Z.eq_dec (Qfloor x) (Qfloor y)) as [E|E]; [|lia].
  unfold nearest_even. rewrite <- E.
  set (f := Qfloor x) in *.
  destruct (Qcompare_spec (x - inject_Z f) (1 # 2)) as [C|C|C];
    destruct (Qcompare_spec (y - inject_Z f) (1 # 2)) as [D|D|D];
    try destruct (Z.even f); try lia; lra.
Qed.

Lemma nearest_even_comp (x y : Q) : (x == y)%Q -> nearest_even x = nearest_even y.
Proof.
  intros E. apply Z.le_antisymm; apply nearest_even_mono; rewrite E; apply Qle_refl.
Qed.

Lemma Qfloor_unique (x : Q) (n : Z) :
  (inject_Z n <= x < inject_Z (n + 1))%Q -> Qfloor x = n.
Proof.
  intros [L U]. pose proof (Qfloor_le x) as A. pose proof (Qlt_floor x) as B.
  assert (n < Qfloor x + 1) by (rewrite Zlt_Qlt; lra).
  assert (Qfloor x < n + 1) by (rewrite Zlt_Qlt; lra).
  lia.
Qed.

Lemma nearest_even_opp (x : Q) : nearest_even (- x) = - nearest_even x.
Proof.
  pose proof (Qfloor_le x) as A. pose proof (Qlt_floor x) as B.
  rewrite inject_Z_plus in B. change (inject_Z 1) with 1%Q in B.
  set (f := Qfloor x) in *.
  destruct (Qeq_dec x (inject_Z f)) as [E|N].
  - rewrite (nearest_even_comp (- x) (inject_Z (- f))) by (rewrite inject_Z_opp, E; reflexivity).
    rewrite (nearest_even_comp x (inject_Z f)) by exact E.
    assert (Z0 : forall n, nearest_even (inject_Z n) = n).
    { intros n. apply Z.le_antisymm;
        [apply nearest_even_le|apply nearest_even_ge]; apply Qle_refl. }
    now rewrite !Z0.
  - assert (Fo : Qfloor (- x) = - f - 1).
    { apply Qfloor_unique. rewrite !inject_Z_plus, ?inject_Z_opp.
      unfold Z.sub. rewrite !inject_Z_plus, !inject_Z_opp.
      change (inject_Z 1) with 1%Q. split; [|lra].
      assert (Hlt : (inject_Z f < x)%Q)
        by (apply Qle_lteq in A; destruct A as [A|A];
            [exact A|exfalso; apply N; now symmetry]).
      lra. }
    unfold nearest_even. rewrite Fo. fold f.
    assert (Ei : (inject_Z (- f - 1) == - inject_Z f - 1)%Q).
    { unfold Z.sub. rewrite !inject_Z_plus, !inject_Z_opp. reflexivity. }
    destruct (Qcompare_spec (x - inject_Z f) (1 # 2)) as [C|C|C];
      destruct (Qcompare_spec (- x - inject_Z (- f - 1)) (1 # 2)) as [D|D|D];
      rewrite Ei in D; try lra; try lia.
    replace (- f - 1) with (- (f + 1)) by lia. rewrite Z.even_opp.
    replace (f + 1) with (Z.succ f) by lia. rewrite Z.even_succ, <- Z.negb_even.
    destruct (Z.even f); cbn [negb]; lia.
Qed.

Lemma Qabs_nonzero (x : Q) : ~ (x == 0)%Q -> (0 < Qabs x)%Q.
Proof.
  intros N. destruct (Qlt_le_dec 0 x) as [P|P].
  - rewrite Qabs_pos; lra.
  - rewrite Qabs_neg by exact P.
    apply Qle_lteq in P. destruct P as [P|P]; [lra|contradiction].
Qed.

Section Format.

Variables prec emin : Z.
Hypothesis prec_pos : 1 <= prec.

Lemma round_comp (x y : Q) : (x == y)%Q -> round prec emin x = round prec emin y.
Proof. intros E. unfold round. now rewrite (Qred_complete _ _ E). Qed.

Lemma round_zero (x : Q) : (x == 0)%Q -> round prec emin x = 0%Q.
Proof. intros E. rewrite (round_comp _ _ E). reflexivity. Qed.

Lemma fexp_comp (x y : Q) :
  ~ (x == 0)%Q -> (x == y)%Q -> fexp prec emin x = fexp prec emin y.
Proof.
  intros N E. unfold fexp. f_equal. f_equal. f_equal. apply ilog2_comp.
  - now apply Qabs_nonzero.
  - now rewrite E.
Qed.

Lemma round_nonzero (x : Q) :
  ~ (x == 0)%Q ->
  (round prec emin x
   == inject_Z (nearest_even (x / pow2 (fexp prec emin x))) * pow2 (fexp prec emin x))%Q.
Proof.
  intros N. unfold round. cbv zeta.
  assert (E : (Qred x == x)%Q) by apply Qred_correct.
  assert (N' : ~ (Qred x == 0)%Q) by (now rewrite E).
  assert (F : fexp prec emin (Qred x) = fexp prec emin x) by (apply fexp_comp; assumption).
  assert (C : nearest_even (Qred x / pow2 (fexp prec emin x))
              = nearest_even (x / pow2 (fexp prec emin x)))
    by (apply nearest_even_comp; now rewrite E).
  destruct (Qnum (Qred x)) eqn:En.
  - exfalso. apply N'. unfold Qeq. rewrite En. reflexivity.
  - now rewrite Qred_correct, F, C.
  - now rewrite Qred_correct, F, C.
Qed.

Lemma round_nonneg (x : Q) : (0 <= x)%Q -> (0 <= round prec emin x)%Q.
Proof.
  intros H. destruct (Qeq_dec x 0) as [E|N]; [rewrite (round_zero _ E); apply Qle_refl|].
  rewrite (round_nonzero _ N). pose proof (pow2_pos (fexp prec emin x)) as P.
  assert (0 <= nearest_even (x / pow2 (fexp prec emin x))).
  { apply nearest_even_ge. change (inject_Z 0) with 0%Q. apply Qle_shift_div_l; [exact P|lra]. }
  apply Qmult_le_0_compat; [|lra]. change 0%Q with (inject_Z 0). now rewrite <- Zle_Qle.
Qed.

Lemma round_opp (x : Q) : (round prec emin (- x) == - round prec emin x)%Q.
Proof.
  destruct (Qeq_dec x 0) as [E|N].
  - rewrite (round_zero _ E), (round_zero (- x)) by (rewrite E; reflexivity). reflexivity.
  - assert (N' : ~ (- x == 0)%Q) by (intros C; apply N; lra).
    rewrite (round_nonzero _ N), (round_nonzero _ N').
    assert (F : fexp prec emin (- x) = fexp prec emin x).
    { unfold fexp. f_equal. f_equal. f_equal. apply ilog2_comp.
      - now apply Qabs_nonzero.
      - apply Qabs_opp. }
    rewrite F.
    rewrite (nearest_even_comp (- x / pow2 (fexp prec emin x)) (- (x / pow2 (fexp prec emin x)))).
    + rewrite nearest_even_opp, inject_Z_opp. ring.
    + field. pose proof (pow2_pos (fexp prec emin x)). lra.
Qed.

Lemma round_mono_pos (x y : Q) :
  (0 < x)%Q -> (x <= y)%Q -> (round prec emin x <= round prec emin y)%Q.
Proof.
  intros Hx Hxy. assert (Hy : (0 < y)%Q) by lra.
  rewrite (round_nonzero x), (round_nonzero y) by lra.
  assert (Ax : (Qabs x == x)%Q) by (apply Qabs_pos; lra).
  assert (Ay : (Qabs y == y)%Q) by (apply Qabs_pos; lra).
  destruct (ilog2_spec (Qabs x)) as [Lx Ux]; [lra|].
  destruct (ilog2_spec (Qabs y)) as [Ly Uy]; [lra|].
  unfold fexp. set (lx := ilog2 (Qabs x)) in *. set (ly := ilog2 (Qabs y)) in *.
  assert (Hl : lx <= ly) by (assert (lx < ly + 1) by (apply pow2_lt_inv; lra); lia).
  set (ex := Z.max (lx + 1 - prec) emin). set (ey := Z.max (ly + 1 - prec) emin).
  pose proof (pow2_pos ex) as Px. pose proof (pow2_pos ey) as Py.
  destruct (Z.eq_dec ex ey) as [E|E].
  - rewrite <- E. apply Qmult_le_r; [exact Px|]. rewrite <- Zle_Qle.
    apply nearest_even_mono. apply Qmult_le_r; [now apply Qinv_lt_0_compat|exact Hxy].
  - assert (Hey : ey = ly + 1 - prec) by lia.
    assert (Hex : ex < ey) by lia.
    assert (Hlt : lx < ly) by lia.
    assert (Bx : (x <= pow2 ly)%Q).
    { apply Qle_trans with (pow2 (lx + 1)); [lra|apply pow2_le; lia]. }
    assert (By : (pow2 ly <= y)%Q) by lra.
    apply Qle_trans with (pow2 ly).
    + replace ly with (ex + (ly - ex)) at 1 by lia.
      rewrite pow2_shift by lia. rewrite (Qmult_comm (pow2 ex)).
      apply Qmult_le_r; [exact Px|]. rewrite <- Zle_Qle. apply nearest_even_le.
      apply Qle_shift_div_r; [exact Px|].
      rewrite Qmult_comm, <- pow2_shift by lia.
      replace (ex + (ly - ex)) with ly by lia. exact Bx.
    + replace ly with (ey + (ly - ey)) at 1 by lia.
      rewrite pow2_shift by lia. rewrite (Qmult_comm (pow2 ey)).
      apply Qmult_le_r; [exact Py|]. rewrite <- Zle_Qle. apply nearest_even_ge.
      apply Qle_shift_div_l; [exact Py|].
      rewrite Qmult_comm, <- pow2_shift by lia.
      replace (ey + (ly - ey)) with ly by lia. exact By.
Qed.

(** Rounding is monotone. *)
Lemma round_mono (x y : Q) : (x <= y)%Q -> (round prec emin x <= round prec emin y)%Q.
Proof.
  intros H. destruct (Qlt_le_dec 0 x) as [Px|Nx]; [now apply round_mono_pos|].
  destruct (Qlt_le_dec y 0) as [Ny|Py].
  - assert (M : (round prec emin (- y) <= round prec emin (- x))%Q)
      by (apply round_mono_pos; lra).
    rewrite !round_opp in M. lra.
  - pose proof (round_nonneg y Py) as A.
    assert (B : (0 <= round prec emin (- x))%Q) by (apply round_nonneg; lra).
    rewrite round_opp in B. lra.
Qed.

(** A multiple of a power of 2 that fits in the format is kept. *)
Lemma round_exact (n e : Z) :
  Z.abs n < 2 ^ prec -> emin <= e ->
  (round prec emin (inject_Z n * pow2 e) == inject_Z n * pow2 e)%Q.
Proof.
  intros Hn He. pose proof (pow2_pos e) as Pe.
  assert (P : forall m, 0 < m < 2 ^ prec ->
            (round prec emin (inject_Z m * pow2 e) == inject_Z m * pow2 e)%Q).
  { intros m Hm. set (x := (inject_Z m * pow2 e)%Q).
    assert (Hx : (0 < x)%Q).
    { unfold x. apply Qmult_lt_0_compat; [|exact Pe].
      change 0%Q with (inject_Z 0). rewrite <- Zlt_Qlt. lia. }
    rewrite (round_nonzero x) by lra.
    assert (Ax : (Qabs x == x)%Q) by (apply Qabs_pos; lra).
    destruct (ilog2_spec (Qabs x)) as [Lx Ux]; [lra|].
    unfold fexp. set (lx := ilog2 (Qabs x)) in *.
    assert (Hl : lx < e + prec).
    { apply pow2_lt_inv. apply Qle_lt_trans with x; [lra|].
      unfold x. rewrite pow2_shift by lia. rewrite Qmult_comm.
      apply Qmult_lt_l; [exact Pe|]. rewrite <- Zlt_Qlt. lia. }
    set (fe := Z.max (lx + 1 - prec) emin).
    assert (Hfe : fe <= e) by lia.
    assert (Ex : (x == inject_Z (m * 2 ^ (e - fe)) * pow2 fe)%Q).
    { unfold x. replace e with (fe + (e - fe)) at 1 by lia.
      rewrite pow2_shift by lia. rewrite inject_Z_mult. ring. }
    rewrite (nearest_even_comp (x / pow2 fe) (inject_Z (m * 2 ^ (e - fe)))).
    - assert (Z0 : forall k, nearest_even (inject_Z k) = k).
      { intros k. apply Z.le_antisymm;
          [apply nearest_even_le|apply nearest_even_ge]; apply Qle_refl. }
      rewrite Z0. symmetry. exact Ex.
    - rewrite Ex. field. pose proof (pow2_pos fe). lra. }
  destruct (Z.lt_trichotomy n 0) as [L|[E|G]].
  - assert (E : (inject_Z n * pow2 e == - (inject_Z (- n) * pow2 e))%Q)
      by (rewrite inject_Z_opp; ring).
    rewrite (round_comp _ _ E), round_opp, (P (- n)) by lia. symmetry. exact E.
  - subst. rewrite round_zero by ring. ring.
  - apply P. lia.
Qed.

End Format.

End RoundingFacts.

(** Monotonicity, symmetry and exactness for the two formats. *)
Lemma fl32_mono (x y : Q) : (x <= y)%Q -> (fl32 x <= fl32 y)%Q.
Proof. apply RoundingFacts.round_mono. lia. Qed.

Lemma fl64_mono (x y : Q) : (x <= y)%Q -> (fl64 x <= fl64 y)%Q.
Proof. apply RoundingFacts.round_mono. lia. Qed.

Lemma fl64_comp (x y : Q) : (x == y)%Q -> fl64 x = fl64 y.
Proof. apply RoundingFacts.round_comp. Qed.

Lemma fl64_opp (x : Q) : (fl64 (- x) == - fl64 x)%Q.
Proof. apply RoundingFacts.round_opp. Qed.

(** A [float] is a [double]; an integer below 2^24 in absolute value is a
    [float]. *)
Lemma fl32_integer (n : Z) : Z.abs n < 2 ^ 24 -> (fl32 (inject_Z n) == inject_Z n)%Q.
Proof.
  intros H. pose proof (RoundingFacts.round_exact 24 (-149) ltac:(lia) n 0 H ltac:(lia)) as E.
  assert (C : (inject_Z n == inject_Z n * Rounding.pow2 0)%Q)
    by (change (Rounding.pow2 0) with 1%Q; ring).
  unfold fl32. rewrite (RoundingFacts.round_comp _ _ _ _ C), E. symmetry. exact C.
Qed.

Lemma fl64_integer (n : Z) : Z.abs n < 2 ^ 53 -> (fl64 (inject_Z n) == inject_Z n)%Q.
Proof.
  intros H. pose proof (RoundingFacts.round_exact 53 (-1074) ltac:(lia) n 0 H ltac:(lia)) as E.
  assert (C : (inject_Z n == inject_Z n * Rounding.pow2 0)%Q)
    by (change (Rounding.pow2 0) with 1%Q; ring).
  unfold fl64. rewrite (RoundingFacts.round_comp _ _ _ _ C), E. symmetry. exact C.
Qed.

(** The rounding of some values: 2^24 + 1 is halfway between two [float]s
    and goes to the even one; the [double] nearest to 0.1 is not a
    [float]; the constants of the code are the [double]s nearest to their
    literals. *)
Lemma rounding_examples :
  fl32 16777217 = 16777216%Q
  /\ fl32 16777219 = 16777220%Q
  /\ fl32 (fl64 (1 # 10)) = (13421773 # 134217728)%Q
  /\ fl64 (1 # 100000) = PSD_EIGEN_TOL
  /\ fl64 (99 # 100) = CONSTRAINT_REMOVAL_SLACK
  /\ fl64 (CONSTRAINT_REMOVAL_SLACK + (1 # 2 ^ 60)) = CONSTRAINT_REMOVAL_SLACK.
Proof. split; [|split; [|split; [|split; [|split]]]]; vm_compute; reflexivity. Qed.

(** On the samples, [fl32] and [fl64] are the roundings of [SpecFloat], and
    the rounded sum, difference, product and quotient of two operands are
    the results of its operations on [double]s. *)
Lemma rounding_agrees_with_SpecFloat :
  forallb (fun t => Qeq_bool (float_value (to_binary32 t))
                             (fl32 (inject_Z (fst t) * Rounding.pow2 (snd t))))
          rounding_samples = true
  /\ forallb (fun t => Qeq_bool (float_value (to_binary64 t))
                                (fl64 (inject_Z (fst t) * Rounding.pow2 (snd t))))
             rounding_samples = true
  /\ forallb (fun t =>
                forallb (fun u =>
                           forallb (fun r => Qeq_bool (float_value (fst r)) (snd r))
                                   (double_operations t u))
                        operand_samples)
             operand_samples = true.
Proof. split; [|split]; vm_compute; reflexivity. Qed.


(** ** The index mapping *)

Lemma u32_small (z : Z) : 0 <= z < 2 ^ 32 -> u32 z = z.
Proof. intros H. unfold u32. now apply Z.mod_small. Qed.

Lemma u32_range (z : Z) : 0 <= u32 z < 2 ^ 32.
Proof. unfold u32. apply Z.mod_pos_bound. reflexivity. Qed.

Lemma u32_le (z : Z) : 0 <= z -> u32 z <= z.
Proof. intros H. unfold u32. apply Z.mod_le; lia. Qed.

Lemma In_range (lo hi i : Z) : In i (range lo hi) <-> lo <= i < hi.
Proof.
  unfold range. rewrite in_map_iff. split.
  - intros (k & <- & Hk). apply in_seq in Hk. lia.
  - intros H. exists (Z.to_nat (i - lo)). split; [lia|]. apply in_seq. lia.
Qed.

Lemma NoDup_range (lo hi : Z) : NoDup (range lo hi).
Proof.
  unfold range. apply Injective_map_NoDup; [|apply seq_NoDup].
  intros a b H. lia.
Qed.

(** x(x-1) is even. *)
Lemma triangle_even (x : Z) : 2 * (x * (x - 1) / 2) = x * (x - 1).
Proof.
  assert (E : (x * (x - 1)) mod 2 = 0).
  { rewrite Z.mul_mod by lia. rewrite Zminus_mod.
    pose proof (Z.mod_pos_bound x 2 ltac:(lia)) as B.
    assert (C : x mod 2 = 0 \/ x mod 2 = 1) by lia.
    destruct C as [-> | ->]; reflexivity. }
  pose proof (Z.div_mod (x * (x - 1)) 2 ltac:(lia)). lia.
Qed.

(** The rounded root recovers the larger index from a packed index. *)
Lemma round_sqrt_packed (x y : Z) :
  0 <= y < x ->
  (Z.sqrt (4 * (2 * (1 + y + x * (x - 1) / 2))) + 1) / 2 = x.
Proof.
  intros H. pose proof (triangle_even x) as T.
  set (t := x * (x - 1) / 2) in *.
  set (w := 4 * (2 * (1 + y + t))).
  assert (Hlo : (2 * x - 1) * (2 * x - 1) <= w) by (unfold w; nia).
  assert (Hhi : w < (2 * x + 1) * (2 * x + 1)) by (unfold w; nia).
  assert (Hw : 0 <= w) by (unfold w; nia).
  assert (L : 2 * x - 1 <= Z.sqrt w) by (apply Z.sqrt_le_square; lia).
  assert (U : Z.sqrt w < 2 * x + 1) by (apply Z.sqrt_lt_square; lia).
  Z.div_mod_to_equations. lia.
Qed.

Lemma getLPVar_ordered_packed (s : LPSolver) (x y : Z) :
  nQP s <= 65536 -> 0 <= y < x -> x < nQP s ->
  getLPVar_ordered s x y = Ret (1 + y + x * (x - 1) / 2).
Proof.
  intros Hn Hy Hx. unfold getLPVar_ordered.
  replace ((nQP s <=? y) || (nQP s <=? x)) with false
    by (symmetry; apply orb_false_iff; split; apply Z.leb_gt; lia).
  pose proof (triangle_even x) as T.
  assert (Hxx : 0 <= x * (x - 1) < 2 ^ 32) by nia.
  rewrite (u32_small (x - 1)) by lia.
  rewrite (u32_small (x * (x - 1))) by exact Hxx.
  rewrite u32_small; [reflexivity|]. nia.
Qed.

Lemma getLPVar_swap (s : LPSolver) (x y : Z) : getLPVar s y x = getLPVar s x y.
Proof.
  unfold getLPVar. destruct (Z.eqb_spec y x) as [->|Hne].
  - rewrite Z.eqb_refl. reflexivity.
  - destruct (Z.eqb_spec x y) as [E|_]; [congruence|].
    destruct (Z.ltb_spec x y), (Z.ltb_spec y x); try lia; reflexivity.
Qed.

Lemma nLP_exact (s : LPSolver) :
  sized s -> nQP s <= 65536 -> nLP s = nQP s * (nQP s - 1) / 2.
Proof.
  intros [Hn ->] H. destruct (Z.eq_dec (nQP s) 0) as [->|Hz]; [reflexivity|].
  rewrite (u32_small (nQP s - 1)) by lia.
  rewrite u32_small; [reflexivity|]. nia.
Qed.

Lemma getQPVars_packed (s : LPSolver) (x y : Z) :
  sized s -> nQP s <= 65536 -> 0 <= y < x -> x < nQP s ->
  getQPVars s (1 + y + x * (x - 1) / 2) = Ret (x, y).
Proof.
  intros Hs Hn Hy Hx. unfold getQPVars. cbv zeta.
  rewrite (nLP_exact s Hs Hn).
  pose proof (triangle_even x) as T. pose proof (triangle_even (nQP s)) as Tn.
  set (t := x * (x - 1) / 2) in *. set (tn := nQP s * (nQP s - 1) / 2) in *.
  replace (tn <? 1 + y + t) with false by (symmetry; apply Z.ltb_ge; nia).
  assert (H2v : 0 <= 2 * (1 + y + t) < 2 ^ 32) by nia.
  rewrite (u32_small (2 * (1 + y + t))) by exact H2v.
  rewrite DoubleFacts.sqrt_half_floor_exact by exact H2v.
  unfold t. rewrite round_sqrt_packed by lia.
  rewrite (u32_small x) by lia.
  rewrite (u32_small (x - 1)) by lia.
  rewrite (u32_small (x * (x - 1))) by nia.
  fold t. replace (1 + y + t - 1 - t) with y by lia.
  rewrite (u32_small y) by lia.
  replace (x <=? y) with false by (symmetry; apply Z.leb_gt; lia).
  reflexivity.
Qed.

Lemma getLPVar_packed (s : LPSolver) (x y : Z) :
  nQP s <= 65536 -> 0 <= y < x -> x < nQP s ->
  getLPVar s x y = Ret (1 + y + x * (x - 1) / 2).
Proof.
  intros Hn Hy Hx. unfold getLPVar.
  replace (y =? x) with false by (symmetry; apply Z.eqb_neq; lia).
  replace (x <? y) with false by (symmetry; apply Z.ltb_ge; lia).
  now apply getLPVar_ordered_packed.
Qed.

(** C1 (as amended): while [nQP*(nQP-1)] fits in 32 bits, that is for
    [nQP <= 65536], packing a pair [0 <= y < x < nQP] gives
    [1 + y + x(x-1)/2] whatever the order of the arguments, and unpacking
    that index gives back exactly [(x, y)]. *)
Theorem index_round_trip (s : LPSolver) (x y : Z) :
  sized s -> nQP s <= 65536 -> 0 <= y < x -> x < nQP s ->
  toPair_toPacked s x y = Ret (x, y)
  /\ getLPVar s x y = Ret (1 + y + x * (x - 1) / 2)
  /\ getLPVar s y x = getLPVar s x y.
Proof.
  intros Hs Hn Hy Hx.
  assert (E : getLPVar s x y = Ret (1 + y + x * (x - 1) / 2))
    by now apply getLPVar_packed.
  split; [|split; [exact E|apply getLPVar_swap]].
  unfold toPair_toPacked. rewrite E. cbn [bind]. now apply getQPVars_packed.
Qed.

Lemma index_round_trip_witness :
  let s := bare_solver (uniform_problem 5 1) (repeat 0%Q 10) in
  (sized s /\ nQP s <= 65536 /\ 0 <= 1 < 3 /\ 3 < nQP s)
  /\ toPair_toPacked s 3 1 = Ret (3, 1)
  /\ getLPVar s 3 1 = Ret (1 + 1 + 3 * (3 - 1) / 2)
  /\ getLPVar s 1 3 = getLPVar s 3 1.
Proof.
  assert (H : sized (bare_solver (uniform_problem 5 1) (repeat 0%Q 10))
              /\ nQP (bare_solver (uniform_problem 5 1) (repeat 0%Q 10)) <= 65536
              /\ 0 <= 1 < 3
              /\ 3 < nQP (bare_solver (uniform_problem 5 1) (repeat 0%Q 10))).
  { unfold sized. cbn. repeat split; try reflexivity; discriminate. }
  split; [exact H|].
  destruct H as (H1 & H2 & H3 & H4).
  exact (index_round_trip _ 3 1 H1 H2 H3 H4).
Defined.

(** C1 as stated, for every [n], fails: with 65537 variables [nLP] wraps
    around to 32768 and the packed index of the pair (65536, 0) is
    rejected when it is unpacked. *)
Lemma index_round_trip_overflow :
  let s := bare_solver (uniform_problem 65537 1) [] in
  (sized s /\ 0 <= 0 < 65536 /\ 65536 < nQP s)
  /\ getLPVar s 65536 0 = Ret 2147450881
  /\ toPair_toPacked s 65536 0 = Fail (Bad_vQP 2147450881 32768)
  /\ toPair_toPacked s 65536 0 <> Ret (65536, 0).
Proof.
  cbv zeta. unfold sized. cbn [nQP nLP bare_solver uniform_problem p_nQP].
  repeat split; try reflexivity; try discriminate.
Qed.

(** C9: [getLPVar(x,x)] throws for every [x]; [getLPVar(x,y)] with
    [x <> y] throws as soon as one index is [>= nQP]; [getQPVars(v)]
    throws when [v > nQP(nQP-1)/2] and when the pair it recovers, by the
    formulas of the code, does not have [y < x].  Both functions only read
    [nQP] and [nLP] and produce an outcome: there is no state for a failing
    call to change. *)
Theorem index_errors (s : LPSolver) :
  (forall x, getLPVar s x x = Fail (Bad_LP x x))
  /\ (forall x y, x <> y -> nQP s <= x \/ nQP s <= y ->
        getLPVar s x y = Fail (Bad_LP_range (Z.max x y) (Z.min x y) (nQP s)))
  /\ (forall v, sized s -> nQP s * (nQP s - 1) / 2 < v ->
        getQPVars s v = Fail (Bad_vQP v (nLP s)))
  /\ (forall v, v <= nLP s ->
        let x := u32 (Double.sqrt_half_floor (u32 (2 * v))) in
        let y := u32 (v - 1 - u32 (x * u32 (x - 1)) / 2) in
        ~ y < x -> getQPVars s v = Fail (Bad_QP x y v)).
Proof.
  repeat split.
  - intros x. unfold getLPVar. now rewrite Z.eqb_refl.
  - intros x y Hne Hr. unfold getLPVar, getLPVar_ordered.
    replace (y =? x) with false by (symmetry; apply Z.eqb_neq; lia).
    destruct (Z.ltb_spec x y) as [L|G].
    + rewrite Z.max_r, Z.min_l by lia.
      replace ((nQP s <=? x) || (nQP s <=? y)) with true; [reflexivity|].
      symmetry. apply orb_true_iff. destruct Hr; [left|right]; apply Z.leb_le; lia.
    + rewrite Z.max_l, Z.min_r by lia.
      replace ((nQP s <=? y) || (nQP s <=? x)) with true; [reflexivity|].
      symmetry. apply orb_true_iff. destruct Hr; [right|left]; apply Z.leb_le; lia.
  - intros v [Hn Hm] Hv. unfold getQPVars.
    replace (nLP s <? v) with true; [reflexivity|].
    symmetry. apply Z.ltb_lt. rewrite Hm.
    apply Z.le_lt_trans with (nQP s * (nQP s - 1) / 2); [|exact Hv].
    apply Z.div_le_mono; [lia|].
    destruct (Z.eq_dec (nQP s) 0) as [->|Hz]; [reflexivity|].
    rewrite (u32_small (nQP s - 1)) by lia. apply u32_le. nia.
  - intros v Hv x y Hxy. unfold getQPVars.
    replace (nLP s <? v) with false by (symmetry; apply Z.ltb_ge; lia).
    fold x. fold y.
    replace (x <=? y) with true by (symmetry; apply Z.leb_le; lia).
    reflexivity.
Qed.

Lemma index_errors_witness :
  let s := bare_solver (uniform_problem 5 1) (repeat 0%Q 10) in
  getLPVar s 2 2 = Fail (Bad_LP 2 2)
  /\ getLPVar s 1 7 = Fail (Bad_LP_range 7 1 5)
  /\ getQPVars s 11 = Fail (Bad_vQP 11 10)
  /\ getQPVars s 0 = Fail (Bad_QP 0 4294967295 0).
Proof.
  cbv zeta.
  destruct (index_errors (bare_solver (uniform_problem 5 1) (repeat 0%Q 10)))
    as (E1 & E2 & E3 & E4).
  split; [exact (E1 2)|].
  split; [apply (E2 1 7); [discriminate|right; discriminate]|].
  split; [apply (E3 11); [unfold sized; cbn; repeat split; try reflexivity; discriminate|reflexivity]|].
  apply (E4 0); [discriminate|]. vm_compute. discriminate.
Defined.

Lemma list_set_length {A : Type} (v : list A) (i : nat) (a : A) :
  length (list_set v i a) = length v.
Proof.
  revert i. induction v as [|b v IH]; intros [|i]; cbn [list_set length]; try reflexivity.
  now rewrite IH.
Qed.

(** Every index from 1 to [nLP] is the packed index of a pair. *)
Lemma getQPVars_onto (s : LPSolver) (v : Z) :
  sized s -> nQP s <= 65536 -> 1 <= v <= nLP s ->
  exists x y, getQPVars s v = Ret (x, y)
              /\ 0 <= y < x /\ x < nQP s /\ v = 1 + y + x * (x - 1) / 2.
Proof.
  intros Hs Hn Hv. pose proof (nLP_exact s Hs Hn) as EL.
  pose proof (triangle_even (nQP s)) as Tn. destruct Hs as [Hq _].
  set (tn := nQP s * (nQP s - 1) / 2) in *.
  assert (H2v : 0 < 2 * v < 2 ^ 32) by nia.
  destruct (DoubleFacts.round_sqrt_facts (2 * v) H2v) as (Hk & Klo & Khi).
  set (x := (Z.sqrt (4 * (2 * v)) + 1) / 2) in *.
  pose proof (triangle_even x) as T. set (t := x * (x - 1) / 2) in *.
  assert (Hy : 0 <= v - 1 - t < x) by nia.
  assert (Hx : x < nQP s).
  { apply Z.nle_gt. intros C.
    assert (nQP s * (nQP s - 1) <= x * (x - 1)) by nia. nia. }
  exists x, (v - 1 - t). unfold getQPVars. cbv zeta.
  replace (nLP s <? v) with false by (symmetry; apply Z.ltb_ge; lia).
  rewrite (u32_small (2 * v)) by lia.
  rewrite DoubleFacts.sqrt_half_floor_exact by lia. fold x.
  rewrite (u32_small x) by lia. rewrite (u32_small (x - 1)) by lia.
  rewrite (u32_small (x * (x - 1))) by nia. fold t.
  rewrite (u32_small (v - 1 - t)) by lia.
  replace (x <=? v - 1 - t) with false by (symmetry; apply Z.leb_gt; lia).
  split; [reflexivity|]. split; [exact Hy|]. split; [exact Hx|lia].
Qed.

Lemma foldM_invariant {A S : Type} (Inv : S -> Prop) (f : S -> A -> outcome S) (l : list A) :
  (forall st i, In i l -> Inv st -> exists st', f st i = Ret st' /\ Inv st') ->
  forall st0, Inv st0 -> exists st, foldM f l st0 = Ret st /\ Inv st.
Proof.
  induction l as [|i l IH]; intros H st0 H0; cbn [foldM]; [eauto|].
  destruct (H st0 i (or_introl eq_refl) H0) as (st1 & E1 & H1). rewrite E1. cbn [bind].
  apply IH; trivial. intros st j Hj. apply H. now right.
Qed.

Lemma glp_item_defined {A : Type} (l : list A) (i : Z) :
  1 <= i <= Z.of_nat (length l) -> exists a, glp_item l i = Ret a.
Proof.
  intros H. unfold glp_item.
  replace (i <? 1) with false by (symmetry; apply Z.ltb_ge; lia).
  destruct (nth_error l (Z.to_nat (i - 1))) as [a|] eqn:E; [eauto|].
  apply nth_error_None in E. lia.
Qed.

Lemma glp_set_item_defined {A : Type} (l : list A) (i : Z) (a : A) :
  1 <= i <= Z.of_nat (length l) ->
  exists l', glp_set_item l i a = Ret l' /\ length l' = length l.
Proof.
  intros H. unfold glp_set_item.
  replace ((1 <=? i) && (i <=? Z.of_nat (length l))) with true
    by (symmetry; apply andb_true_iff; split; apply Z.leb_le; lia).
  eexists. split; [reflexivity|apply list_set_length].
Qed.

(** The constructor returns for 2 up to 65536 variables. *)
Lemma new_LPSolver_returns (p : Problem) :
  2 <= p_nQP p <= 65536 -> exists s, new_LPSolver p = Ret s.
Proof.
  intros Hn. unfold new_LPSolver. cbv zeta.
  set (m := u32 (p_nQP p * u32 (p_nQP p - 1)) / 2).
  assert (Em : m = p_nQP p * (p_nQP p - 1) / 2).
  { unfold m. rewrite (u32_small (p_nQP p - 1)) by lia. rewrite u32_small by nia. reflexivity. }
  pose proof (triangle_even (p_nQP p)) as T. rewrite <- Em in T.
  assert (Hm : 1 <= m) by nia.
  unfold glp_add_cols. replace (m <? 1) with false by (symmetry; apply Z.ltb_ge; lia).
  cbn [bind lp_cols lp_rows lp_status glp_create_prob app lp].
  match goal with
  | |- exists s, bind (foldM ?f ?l ?st0) _ = _ =>
      assert (Hfold : exists st, foldM f l st0 = Ret st
                                 /\ length (lp_cols st) = Z.to_nat m);
        [apply (foldM_invariant (fun st => length (lp_cols st) = Z.to_nat m))|]
  end.
  - intros st i Hi Hlen. apply In_range in Hi.
    unfold glp_set_col_bnds.
    destruct (glp_item_defined (lp_cols st) i ltac:(lia)) as [c Ec]. rewrite Ec. cbn [bind].
    destruct (glp_set_item_defined (lp_cols st) i
                {| col_lb := -1; col_ub := 1; obj_coef := obj_coef c; col_prim := col_prim c |}
                ltac:(lia)) as (cs & Ecs & Lcs).
    rewrite Ecs. cbn [bind].
    match goal with
    | |- context [getQPVars ?s0 i] =>
        destruct (getQPVars_onto s0 i) as (x & y & Exy & _)
    end.
    + split; cbn [nQP nLP]; [lia|reflexivity].
    + cbn [nQP]. lia.
    + cbn [nLP]. fold m. lia.
    + rewrite Exy. cbn [bind]. unfold glp_set_obj_coef. cbn [lp_cols lp_rows lp_status].
      destruct (glp_item_defined cs i ltac:(lia)) as [c' Ec']. rewrite Ec'. cbn [bind].
      match goal with
      | |- context [glp_set_item cs i ?a] =>
          destruct (glp_set_item_defined cs i a ltac:(lia)) as (cs' & Ecs' & Lcs')
      end.
      rewrite Ecs'. cbn [bind]. eexists. split; [reflexivity|]. cbn [lp_cols]. lia.
  - cbn [lp_cols]. now rewrite repeat_length.
  - destruct Hfold as (st & Est & _). rewrite Est. cbn [bind]. eauto.
Qed.

(** ** The initial upper bound *)

Lemma sumQ_le {A : Type} (f g : A -> Q) (l : list A) :
  (forall x, In x l -> (f x <= g x)%Q) ->
  (sumQ (map f l) <= sumQ (map g l))%Q.
Proof.
  induction l as [|x l IH]; intros H; cbn [map sumQ].
  - apply Qle_refl.
  - apply Qplus_le_compat; [apply H; now left|apply IH; intros; apply H; now right].
Qed.

Lemma sign_entry (n : Z) (sv : list Q) (i : nat) :
  sign_vector n sv -> (nth i sv 0 == 1 \/ nth i sv 0 == -1 \/ nth i sv 0 == 0)%Q.
Proof.
  intros [_ H]. destruct (Nat.lt_ge_cases i (length sv)) as [L|G].
  - rewrite Forall_forall in H. destruct (H (nth i sv 0%Q) (nth_In sv 0%Q L)); auto.
  - rewrite nth_overflow by exact G. right; right; reflexivity.
Qed.

Lemma sign_term_le (c a b : Q) :
  (a == 1 \/ a == -1 \/ a == 0)%Q -> (b == 1 \/ b == -1 \/ b == 0)%Q ->
  (c * a * b <= Qabs c)%Q.
Proof.
  pose proof (Qle_Qabs c) as P. pose proof (Qle_Qabs (- c)) as N.
  rewrite Qabs_opp in N. pose proof (Qabs_nonneg c) as Z0.
  intros [Ha|[Ha|Ha]] [Hb|[Hb|Hb]]; rewrite Ha, Hb; lra.
Qed.

(** The bound the comment of the constructor describes, [constantTerm]
    plus the sum of the absolute values of the coefficients, is at least
    the score of every sign vector when the sum is the exact one. *)
Lemma score_le_exact_sum (p : Problem) (sv : list Q) :
  sign_vector (p_nQP p) sv -> (score p sv <= constantTerm p + abs_coeffs_sum p)%Q.
Proof.
  intros Hsv. unfold score, abs_coeffs_sum.
  apply Qplus_le_compat; [apply Qle_refl|].
  apply sumQ_le. intros i _. apply sumQ_le. intros j _.
  apply sign_term_le; eapply sign_entry; exact Hsv.
Qed.

(** C6: on three variables with [coeffs(0,1)] = 2^24 and the other two
    coefficients 1, the constructor returns with [upperBound] = 16777216:
    the [float] accumulator stays at 2^24 when 1 is added to it, twice.
    The all-ones assignment scores 16777218, so the bound of the
    constructor is below the score of a sign vector. *)
Theorem initial_upperBound_below_score :
  exists s, new_LPSolver heavy_pair_problem = Ret s
            /\ sign_vector (p_nQP heavy_pair_problem) [1; 1; 1]%Q
            /\ (upperBound s == 16777216)%Q
            /\ (score heavy_pair_problem [1; 1; 1] == 16777218)%Q
            /\ (upperBound s < score heavy_pair_problem [1; 1; 1])%Q.
Proof.
  destruct (new_LPSolver_returns heavy_pair_problem) as [s Hs]; [split; discriminate|].
  exists s. split; [exact Hs|].
  assert (E : upperBound s = initial_upperBound heavy_pair_problem 3).
  { unfold new_LPSolver in Hs. cbv zeta in Hs.
    match type of Hs with bind ?m _ = _ => destruct m end; cbn [bind] in Hs;
      [|discriminate].
    match type of Hs with bind ?m _ = _ => destruct m end; cbn [bind] in Hs;
      [|discriminate].
    injection Hs as <-. reflexivity. }
  rewrite E.
  split; [|split; [|split]].
  - split; [reflexivity|]. repeat (apply Forall_cons; [left; reflexivity|]). apply Forall_nil.
  - vm_compute. reflexivity.
  - vm_compute. reflexivity.
  - vm_compute. reflexivity.
Qed.

(** ** The matrix builder *)

Lemma mapM_Ret {A B : Type} (f : A -> outcome B) (l : list A) (ys : list B) :
  mapM f l = Ret ys -> Forall2 (fun x y => f x = Ret y) l ys.
Proof.
  revert ys. induction l as [|x l IH]; intros ys H; cbn [mapM] in H.
  - injection H as <-. constructor.
  - destruct (f x) as [y|] eqn:Ex; cbn [bind] in H; [|discriminate].
    destruct (mapM f l) as [ys'|]; cbn [bind] in H; [|discriminate].
    injection H as <-. constructor; [exact Ex|now apply IH].
Qed.

Lemma mapM_map {A B : Type} (f : A -> outcome B) (g : A -> B) (l : list A) :
  (forall x, In x l -> f x = Ret (g x)) -> mapM f l = Ret (map g l).
Proof.
  induction l as [|x l IH]; intros H; cbn [mapM map]; [reflexivity|].
  rewrite (H x (or_introl eq_refl)). cbn [bind].
  rewrite IH by (intros; apply H; now right). reflexivity.
Qed.

Lemma Forall2_map_fun {A B : Type} (f : A -> outcome B) (g : A -> B) (l : list A) (ys : list B) :
  Forall2 (fun x y => f x = Ret y) l ys ->
  (forall x y, In x l -> f x = Ret y -> g x = y) -> ys = map g l.
Proof.
  induction 1 as [|x y l ys Hxy _ IH]; intros Hg; cbn [map]; [reflexivity|].
  f_equal.
  - symmetry. apply Hg; [now left|exact Hxy].
  - apply IH. intros x' y' Hin. apply Hg. now right.
Qed.

Lemma cons_column_map {A : Type} (f : A -> Q) (g : A -> list Q) (l : list A) :
  cons_column (map f l) (map g l) = map (fun b => f b :: g b) l.
Proof. induction l as [|x l IH]; cbn [map cons_column]; [reflexivity|now rewrite IH]. Qed.

Lemma pair_value_swap (s : LPSolver) (a b : Z) : pair_value s a b = pair_value s b a.
Proof. unfold pair_value. now rewrite getLPVar_swap. Qed.

Lemma pair_value_diag (s : LPSolver) (a : Z) : pair_value s a a = Fail (Bad_LP a a).
Proof.
  unfold pair_value, getLPVar. now rewrite Z.eqb_refl.
Qed.

Lemma entry_swap (s : LPSolver) (a b : Z) : entry s a b = entry s b a.
Proof.
  unfold entry. rewrite (Z.eqb_sym b a), (pair_value_swap s b a). reflexivity.
Qed.

Lemma entry_value (s : LPSolver) (a b : Z) (q : Q) :
  pair_value s a b = Ret q -> entry s a b = q.
Proof.
  intros H. unfold entry. destruct (Z.eqb_spec a b) as [->|_].
  - rewrite pair_value_diag in H. discriminate.
  - now rewrite H.
Qed.

Lemma unit_symmetric_Ret (s : LPSolver) (l : list Z) (M : matrix) :
  unit_symmetric s l = Ret M -> buildable s l /\ M = entries s l.
Proof.
  revert M. induction l as [|a rest IH]; intros M H; cbn [unit_symmetric] in H.
  - injection H as <-. split; [split; [constructor|intros ? ? []]|reflexivity].
  - destruct (mapM (pair_value s a) rest) as [r|] eqn:Er; cbn [bind] in H; [|discriminate].
    destruct (unit_symmetric s rest) as [M'|] eqn:EM; cbn [bind] in H; [|discriminate].
    injection H as <-. destruct (IH M' eq_refl) as [[ND Hp] ->].
    pose proof (mapM_Ret _ _ _ Er) as F2.
    assert (Hrow : forall b, In b rest -> exists q, pair_value s a b = Ret q).
    { clear -F2. induction F2 as [|x y l ys Hxy _ IHF]; intros b [].
      - subst. eauto.
      - now apply IHF. }
    assert (Ha : ~ In a rest).
    { intros Hin. destruct (Hrow a Hin) as [q Hq]. rewrite pair_value_diag in Hq. discriminate. }
    assert (Er' : r = map (entry s a) rest).
    { apply (Forall2_map_fun _ _ _ _ F2). intros x y _. apply entry_value. }
    split; [split|].
    + constructor; assumption.
    + intros x y [<-|Hx] [<-|Hy] Hne; try congruence.
      * now apply Hrow.
      * rewrite pair_value_swap. now apply Hrow.
      * now apply Hp.
    + unfold entries. cbn [map]. f_equal.
      * f_equal; [unfold entry; now rewrite Z.eqb_refl|exact Er'].
      * rewrite Er'. unfold entries. rewrite cons_column_map.
        apply map_ext. intros b. f_equal. apply entry_swap.
Qed.

Lemma buildable_unit_symmetric (s : LPSolver) (l : list Z) :
  buildable s l -> unit_symmetric s l = Ret (entries s l).
Proof.
  induction l as [|a rest IH]; intros [ND Hp]; cbn [unit_symmetric]; [reflexivity|].
  inversion ND as [|? ? Ha ND']; subst.
  rewrite (mapM_map _ (entry s a)).
  2:{ intros b Hb. destruct (Hp a b) as [q Hq]; [now left|now right|congruence|].
      rewrite Hq. f_equal. symmetry. now apply entry_value. }
  cbn [bind]. rewrite IH.
  2:{ split; [exact ND'|]. intros x y Hx Hy. apply Hp; now right. }
  cbn [bind]. unfold entries. cbn [map]. rewrite cons_column_map.
  assert (E1 : entry s a a = 1%Q) by (unfold entry; now rewrite Z.eqb_refl).
  assert (E2 : map (fun b => entry s a b :: map (entry s b) rest) rest
               = map (fun b => entry s b a :: map (entry s b) rest) rest)
    by (apply map_ext; intros b; f_equal; apply entry_swap).
  rewrite E1, E2. reflexivity.
Qed.

Lemma buildable_incl (s : LPSolver) (l l' : list Z) :
  buildable s l -> NoDup l' -> incl l' l -> buildable s l'.
Proof.
  intros [_ Hp] ND Hi. split; [exact ND|]. intros a b Ha Hb. apply Hp; now apply Hi.
Qed.

(** ** Quadratic forms of correlation matrices *)

Lemma sumQ_ext {A : Type} (f g : A -> Q) (l : list A) :
  (forall x, In x l -> (f x == g x)%Q) ->
  (sumQ (map f l) == sumQ (map g l))%Q.
Proof.
  induction l as [|x l IH]; intros H; cbn [map sumQ]; [reflexivity|].
  rewrite (H x (or_introl eq_refl)), IH by (intros; apply H; now right). reflexivity.
Qed.

Lemma sumQ_app (l1 l2 : list Q) : (sumQ (l1 ++ l2) == sumQ l1 + sumQ l2)%Q.
Proof.
  induction l1 as [|x l1 IH]; cbn [app sumQ]; [now rewrite Qplus_0_l|].
  rewrite IH. now rewrite Qplus_assoc.
Qed.

(** A sum over [l] only counts the indices of [l'] when the summand
    vanishes on the others. *)
Lemma sumQ_restrict (f : Z -> Q) (l : list Z) :
  forall l', NoDup l -> NoDup l' -> incl l' l ->
  (forall a, In a l -> ~ In a l' -> (f a == 0)%Q) ->
  (sumQ (map f l) == sumQ (map f l'))%Q.
Proof.
  induction l as [|x l IH]; intros l' ND ND' Hi Hz.
  - destruct l' as [|y l']; [reflexivity|]. destruct (Hi y (or_introl eq_refl)).
  - inversion ND as [|? ? Hx NDl]; subst. cbn [map sumQ].
    destruct (in_dec Z.eq_dec x l') as [Hin|Hout].
    + destruct (in_split _ _ Hin) as (l1 & l2 & ->).
      rewrite map_app, sumQ_app. cbn [map sumQ].
      rewrite (IH (l1 ++ l2)).
      * rewrite map_app, sumQ_app. ring.
      * exact NDl.
      * now apply NoDup_remove_1 in ND'.
      * intros a Ha. apply NoDup_remove_2 in ND'.
        assert (Hal : In a (l1 ++ x :: l2)).
        { apply in_app_iff. apply in_app_iff in Ha. destruct Ha; [now left|right; now right]. }
        destruct (Hi a Hal) as [<-|H]; [contradiction|exact H].
      * intros a Ha Hna. apply Hz; [now right|].
        intros Hal. apply Hna. apply in_app_iff. apply in_app_iff in Hal.
        destruct Hal as [H|[<-|H]]; [now left|contradiction|now right].
    + rewrite (Hz x (or_introl eq_refl) Hout), Qplus_0_l.
      apply IH; trivial.
      * intros a Ha. destruct (Hi a Ha) as [<-|H]; [contradiction|exact H].
      * intros a Ha. apply Hz. now right.
Qed.

Lemma dot_map {A : Type} (f g : A -> Q) (l : list A) :
  dot (map f l) (map g l) = sumQ (map (fun a => f a * g a)%Q l).
Proof. induction l as [|x l IH]; cbn [map dot sumQ]; [reflexivity|now rewrite IH]. Qed.

Lemma quad_entries (s : LPSolver) (w : Z -> Q) (l : list Z) :
  quad (entries s l) (map w l)
  = sumQ (map (fun a => w a * sumQ (map (fun b => entry s a b * w b) l))%Q l).
Proof.
  unfold quad, mat_vec, entries. rewrite map_map.
  rewrite (dot_map w (fun a => dot (map (entry s a) l) (map w l))).
  f_equal. apply map_ext. intros a. now rewrite dot_map.
Qed.

Lemma weight_out (l : list Z) (v : list Q) (a : Z) : ~ In a l -> weight l v a = 0%Q.
Proof.
  revert v. induction l as [|x l IH]; intros v H; [reflexivity|].
  destruct v as [|y v]; [reflexivity|]. cbn [weight].
  destruct (Z.eqb_spec a x) as [->|_]; [exfalso; apply H; now left|].
  apply IH. intros Hin. apply H. now right.
Qed.

Lemma weight_map (l : list Z) (v : list Q) :
  NoDup l -> length v = length l -> map (weight l v) l = v.
Proof.
  revert v. induction l as [|x l IH]; intros v ND Hlen.
  - destruct v; [reflexivity|discriminate].
  - destruct v as [|y v]; [discriminate|]. inversion ND as [|? ? Hx NDl]; subst.
    cbn [map weight]. rewrite Z.eqb_refl. f_equal.
    transitivity (map (weight l v) l); [|apply IH; [exact NDl|cbn in Hlen; lia]].
    apply map_ext_in. intros a Ha.
    destruct (Z.eqb_spec a x) as [->|_]; [contradiction|reflexivity].
Qed.

Lemma entries_length (s : LPSolver) (l : list Z) : length (entries s l) = length l.
Proof. unfold entries. apply length_map. Qed.

(** A violated Rayleigh bound on a set of variables is still violated on
    every larger set: pad the vector with zeros. *)
Lemma has_eig_below_incl (s : LPSolver) (l l' : list Z) (b : Q) :
  NoDup l -> NoDup l' -> incl l' l ->
  has_eig_below (entries s l') b -> has_eig_below (entries s l) b.
Proof.
  intros ND ND' Hi (v' & Hlen & Hv). rewrite entries_length in Hlen.
  set (w := weight l' v').
  assert (Ev : v' = map w l') by (symmetry; now apply weight_map).
  assert (Hw : forall a, ~ In a l' -> w a = 0%Q) by (intros; now apply weight_out).
  exists (map w l). split; [now rewrite length_map, entries_length|].
  rewrite Ev in Hv. rewrite quad_entries, dot_map in *.
  assert (Eq1 : (sumQ (map (fun a => w a * sumQ (map (fun b => entry s a b * w b) l)) l)
                 == sumQ (map (fun a => w a * sumQ (map (fun b => entry s a b * w b) l')) l'))%Q).
  { rewrite (sumQ_restrict _ l l' ND ND' Hi).
    - apply sumQ_ext. intros a _. apply Qmult_comp; [reflexivity|].
      apply (sumQ_restrict _ l l' ND ND' Hi). intros c _ Hc. rewrite (Hw c Hc). ring.
    - intros a _ Ha. rewrite (Hw a Ha). ring. }
  assert (Eq2 : (sumQ (map (fun a => w a * w a) l) == sumQ (map (fun a => w a * w a) l'))%Q).
  { apply (sumQ_restrict _ l l' ND ND' Hi). intros a _ Ha. rewrite (Hw a Ha). ring. }
  rewrite Eq1, Eq2. exact Hv.
Qed.

Lemma has_eig_below_nil (b : Q) : ~ has_eig_below [] b.
Proof.
  intros (v & Hlen & Hv). destruct v; [|discriminate].
  cbn in Hv. ring_simplify in Hv. revert Hv. apply Qlt_irrefl.
Qed.

Lemma has_eig_below_unit (b : Q) : (b <= 0)%Q -> ~ has_eig_below [[1%Q]] b.
Proof.
  intros Hb (v & Hlen & Hv). destruct v as [|x [|? ?]]; try discriminate.
  unfold quad, mat_vec in Hv. cbn [map dot] in Hv.
  assert (H0 : (0 <= x * x)%Q) by nra. nra.
Qed.

Lemma not_below_min_eig_ge (M : matrix) (b : Q) : ~ has_eig_below M b -> min_eig_ge M b.
Proof.
  intros H v Hlen. apply Qnot_lt_le. intros Hlt. apply H. now exists v.
Qed.

Lemma min_eig_ge_not_below (M : matrix) (b : Q) : min_eig_ge M b -> ~ has_eig_below M b.
Proof.
  intros H (v & Hlen & Hv). apply (Qlt_not_le _ _ Hv). now apply H.
Qed.

(** ** The search for a minimal non-PSD core *)

Lemma PSD_EIGEN_TOL_pos : (- PSD_EIGEN_TOL <= 0)%Q.
Proof. unfold PSD_EIGEN_TOL, Qle. cbn. lia. Qed.

Lemma NoDup_remove_all (a : Z) (l : list Z) : NoDup l -> NoDup (remove Z.eq_dec a l).
Proof.
  induction 1 as [|x l Hx _ IH]; cbn [remove]; [constructor|].
  destruct (Z.eq_dec a x); [exact IH|]. constructor; [|exact IH].
  intros Hin. apply in_remove in Hin. now destruct Hin.
Qed.

Lemma incl_remove_all (a : Z) (l l' : list Z) :
  incl l l' -> incl (remove Z.eq_dec a l) (remove Z.eq_dec a l').
Proof.
  intros Hi x Hx. apply in_remove in Hx. destruct Hx as [Hx Hne].
  apply in_in_remove; [exact Hne|now apply Hi].
Qed.

Lemma violated_incl (s : LPSolver) (l l' : list Z) :
  violated s l' -> buildable s l -> incl l' l -> violated s l.
Proof.
  intros (M' & EM' & Hb) Hl Hi. unfold getSubmatrix in EM'.
  destruct (unit_symmetric_Ret _ _ _ EM') as [[ND' _] ->].
  exists (entries s l). split; [now apply buildable_unit_symmetric|].
  destruct Hl as [ND _]. now apply (has_eig_below_incl s l l').
Qed.

Lemma satisfied_incl (s : LPSolver) (l l' : list Z) :
  satisfied s l -> NoDup l' -> incl l' l -> satisfied s l'.
Proof.
  intros (M & EM & Hge) ND' Hi. unfold getSubmatrix in EM.
  destruct (unit_symmetric_Ret _ _ _ EM) as [Hl ->].
  exists (entries s l'). split.
  - apply buildable_unit_symmetric. now apply (buildable_incl s l).
  - apply not_below_min_eig_ge. intros Hb.
    apply (min_eig_ge_not_below _ _ Hge).
    destruct Hl as [ND _]. now apply (has_eig_below_incl s l l').
Qed.

Lemma violated_two (s : LPSolver) (l : list Z) : violated s l -> (2 <= length l)%nat.
Proof.
  intros (M & EM & Hb). destruct l as [|a [|b l]]; cbn in EM.
  - injection EM as <-. now apply has_eig_below_nil in Hb.
  - injection EM as <-. apply has_eig_below_unit in Hb; [easy|apply PSD_EIGEN_TOL_pos].
  - cbn. lia.
Qed.

Section Search.

Variable eigenvalues : matrix -> list Q.
Variable s : LPSolver.

Lemma grow_Some (pool : list Z) :
  forall core c, grow eigenvalues s core pool = Ret (Some c) ->
  incl c (core ++ pool) /\ (length core < length c)%nat
  /\ exists M, getSubmatrix s c = Ret M /\ isPSD (eigenvalues M) = false.
Proof.
  induction pool as [|x rest IH]; intros core c H; cbn [grow] in H; [discriminate|].
  destruct (getSubmatrix s (core ++ [x])) as [M|] eqn:EM; cbn [bind] in H; [|discriminate].
  destruct (isPSD (eigenvalues M)) eqn:EP.
  - destruct rest as [|y rest']; [discriminate|].
    destruct (IH _ _ H) as (Hi & Hlen & HM).
    rewrite <- app_assoc in Hi. rewrite length_app in Hlen. cbn [length] in Hlen.
    split; [exact Hi|]. split; [lia|exact HM].
  - injection H as <-. split; [|split].
    + intros a Ha. apply in_app_iff in Ha. apply in_app_iff.
      destruct Ha as [Ha|[<-|[]]]; [now left|right; now left].
    + rewrite length_app. cbn. lia.
    + now exists M.
Qed.

Lemma grow_None (pool : list Z) :
  forall core, grow eigenvalues s core pool = Ret None ->
  exists M, getSubmatrix s (core ++ pool) = Ret M /\ isPSD (eigenvalues M) = true.
Proof.
  induction pool as [|x rest IH]; intros core H; cbn [grow] in H; [discriminate|].
  destruct (getSubmatrix s (core ++ [x])) as [M|] eqn:EM; cbn [bind] in H; [|discriminate].
  destruct (isPSD (eigenvalues M)) eqn:EP; [|discriminate].
  destruct rest as [|y rest'].
  - now exists M.
  - destruct (IH _ H) as (M' & EM' & EP'). rewrite <- app_assoc in EM'. now exists M'.
Qed.

Section Exact.

Hypothesis exact : eigen_exact eigenvalues s.

Lemma tested_false (l : list Z) (M : matrix) :
  incl l (range 0 (nQP s)) -> getSubmatrix s l = Ret M ->
  isPSD (eigenvalues M) = false -> violated s l.
Proof. intros Hi EM EP. exists M. split; [exact EM|]. now apply (exact l M Hi EM). Qed.

Lemma tested_true (l : list Z) (M : matrix) :
  incl l (range 0 (nQP s)) -> getSubmatrix s l = Ret M ->
  isPSD (eigenvalues M) = true -> satisfied s l.
Proof.
  intros Hi EM EP. exists M. split; [exact EM|]. apply not_below_min_eig_ge.
  intros Hb. apply (exact l M Hi EM) in Hb. congruence.
Qed.

(** The invariant of the paring loop: [todo] are the rows still to be
    tried, [kept] the rows found essential and moved to the back. *)
Lemma shrink_spec (k : nat) :
  forall todo kept F,
    length todo = k ->
    incl (todo ++ kept) (range 0 (nQP s)) ->
    violated s (todo ++ kept) ->
    (forall a, In a kept -> satisfied s (remove Z.eq_dec a (todo ++ kept))) ->
    shrink eigenvalues s k (todo ++ kept) = Ret F ->
    violated s F
    /\ (forall a, In a F -> satisfied s (remove Z.eq_dec a F))
    /\ incl F (todo ++ kept).
Proof.
  induction k as [|k IH]; intros todo kept F Hlen Hr Hv Hk H.
  - destruct todo; [|discriminate]. cbn [shrink app] in *. injection H as <-.
    split; [exact Hv|]. split; [exact Hk|apply incl_refl].
  - destruct todo as [|r todo]; [discriminate|]. cbn [app] in *. cbn [shrink] in H.
    set (rest := todo ++ kept) in *.
    assert (Hb : buildable s (r :: rest)).
    { destruct Hv as (M0 & EM0 & _). now destruct (unit_symmetric_Ret _ _ _ EM0). }
    assert (ND : NoDup (r :: rest)) by apply Hb.
    inversion ND as [|? ? Hr_out NDrest]; subst.
    assert (Hrest : incl rest (range 0 (nQP s))) by (intros a Ha; apply Hr; now right).
    destruct (getSubmatrix s rest) as [M|] eqn:EM; cbn [bind] in H; [|discriminate].
    destruct (isPSD (eigenvalues M)) eqn:EP.
    + (* the removed row was needed: it goes to the back *)
      assert (Eapp : rest ++ [r] = todo ++ (kept ++ [r])) by (unfold rest; now rewrite app_assoc).
      assert (Hperm : Permutation (r :: rest) (rest ++ [r])) by apply Permutation_cons_append.
      assert (ND' : NoDup (rest ++ [r])) by (now apply (Permutation_NoDup Hperm)).
      assert (Hin1 : incl (rest ++ [r]) (r :: rest))
        by (intros a Ha; apply (Permutation_in a (Permutation_sym Hperm) Ha)).
      assert (Hin2 : incl (r :: rest) (rest ++ [r]))
        by (intros a Ha; apply (Permutation_in a Hperm Ha)).
      rewrite Eapp in H. apply IH in H.
      * rewrite <- Eapp in H. destruct H as (H1 & H2 & H3).
        split; [exact H1|]. split; [exact H2|]. intros a Ha. apply Hin1. now apply H3.
      * cbn in Hlen. lia.
      * rewrite <- Eapp. intros a Ha. apply Hr. now apply Hin1.
      * rewrite <- Eapp. apply (violated_incl s _ (r :: rest)); trivial.
        now apply (buildable_incl s (r :: rest)).
      * rewrite <- Eapp. intros a Ha. apply in_app_iff in Ha. destruct Ha as [Ha|[<-|[]]].
        -- apply (satisfied_incl s (remove Z.eq_dec a (r :: rest))).
           ++ now apply Hk.
           ++ now apply NoDup_remove_all.
           ++ now apply incl_remove_all.
        -- apply (satisfied_incl s rest).
           ++ now apply (tested_true rest M).
           ++ now apply NoDup_remove_all.
           ++ intros x Hx. apply in_remove in Hx. destruct Hx as [Hx Hne].
              apply in_app_iff in Hx. destruct Hx as [Hx|[<-|[]]]; [exact Hx|congruence].
    + (* the core is still violated without the removed row *)
      apply IH in H.
      * destruct H as (H1 & H2 & H3).
        split; [exact H1|]. split; [exact H2|]. intros a Ha. right. now apply H3.
      * cbn in Hlen. lia.
      * exact Hrest.
      * now apply (tested_false rest M).
      * intros a Ha. apply (satisfied_incl s (remove Z.eq_dec a (r :: rest))).
        -- now apply Hk.
        -- now apply NoDup_remove_all.
        -- apply incl_remove_all. intros x Hx. now right.
Qed.

Lemma nonPSDcore_spec (order core : list Z) :
  Permutation order (range 0 (nQP s)) ->
  nonPSDcore eigenvalues s order = Ret core ->
  (core = [] /\ satisfied s (range 0 (nQP s)))
  \/ (violated s core /\ forall a, In a core -> satisfied s (remove Z.eq_dec a core)).
Proof.
  intros Hperm H. unfold nonPSDcore in H.
  assert (Hrev : incl (rev order) (range 0 (nQP s))).
  { intros a Ha. apply in_rev in Ha. now apply (Permutation_in a Hperm). }
  destruct (grow eigenvalues s [] (rev order)) as [[c|]|] eqn:EG; cbn [bind] in H;
    [| |discriminate].
  - right. destruct (grow_Some _ _ _ EG) as (Hi & _ & M & EM & EP). cbn [app] in Hi.
    assert (Hc : incl c (range 0 (nQP s))) by (intros a Ha; apply Hrev; now apply Hi).
    rewrite <- (app_nil_r c) in H at 2.
    apply shrink_spec in H; trivial.
    + destruct H as (H1 & H2 & _). now split.
    + now rewrite app_nil_r.
    + rewrite app_nil_r. now apply (tested_false c M).
    + intros a [].
  - left. injection H as <-. split; [reflexivity|].
    destruct (grow_None _ _ EG) as (M & EM & EP). cbn [app] in EM.
    assert (Hs : satisfied s (rev order)) by now apply (tested_true _ M).
    assert (NDr : NoDup (rev order)).
    { unfold getSubmatrix in EM. now destruct (unit_symmetric_Ret _ _ _ EM) as [[ND _] _]. }
    apply (satisfied_incl s (rev order)); trivial.
    + apply (Permutation_NoDup (l := rev order)); [|exact NDr].
      apply Permutation_trans with order; [apply Permutation_sym, Permutation_rev|exact Hperm].
    + intros a Ha. apply in_rev. rewrite rev_involutive.
      now apply (Permutation_in a (Permutation_sym Hperm)).
Qed.

End Exact.

End Search.

(** ** The search returns *)

Lemma pair_value_defined (s : LPSolver) (a b : Z) :
  well_formed s -> 0 <= a < nQP s -> 0 <= b < nQP s -> a <> b ->
  exists q, pair_value s a b = Ret q.
Proof.
  intros (Hs & Hn & Hc & _).
  assert (W : forall x y, 0 <= y < x -> x < nQP s -> exists q, pair_value s x y = Ret q).
  { intros x y Hy Hx. unfold pair_value. rewrite getLPVar_packed by lia. cbn [bind].
    pose proof (triangle_even x) as T. pose proof (triangle_even (nQP s)) as Tn.
    rewrite (nLP_exact s Hs ltac:(lia)) in Hc.
    set (t := x * (x - 1) / 2) in *. set (tn := nQP s * (nQP s - 1) / 2) in *.
    replace (1 + y + t - 1) with (y + t) by lia.
    assert (B : 0 <= y + t < tn) by nia.
    rewrite u32_small by nia.
    unfold vec_at. replace (y + t <? 0) with false by (symmetry; apply Z.ltb_ge; lia).
    destruct (nth_error (currSol s) (Z.to_nat (y + t))) as [q|] eqn:E; [now exists q|].
    apply nth_error_None in E. lia. }
  intros Ha Hb Hne. destruct (Z.lt_ge_cases b a).
  - apply W; lia.
  - rewrite pair_value_swap. apply W; lia.
Qed.

Lemma range_buildable (s : LPSolver) (l : list Z) :
  well_formed s -> NoDup l -> incl l (range 0 (nQP s)) -> buildable s l.
Proof.
  intros Hw ND Hi. split; [exact ND|]. intros a b Ha Hb Hne.
  apply pair_value_defined; trivial; apply In_range; now apply Hi.
Qed.

Lemma exact_unit (eigenvalues : matrix -> list Q) (s : LPSolver) :
  eigen_exact eigenvalues s -> 1 <= nQP s -> isPSD (eigenvalues [[1%Q]]) = true.
Proof.
  intros Hex Hn. destruct (isPSD (eigenvalues [[1%Q]])) eqn:E; [reflexivity|].
  apply (Hex [0] [[1%Q]]) in E.
  - apply has_eig_below_unit in E; [easy|apply PSD_EIGEN_TOL_pos].
  - intros a [<-|[]]. apply In_range. lia.
  - reflexivity.
Qed.

Section Returns.

Variable eigenvalues : matrix -> list Q.
Variable s : LPSolver.
Hypothesis wf : well_formed s.
Hypothesis unit_psd : isPSD (eigenvalues [[1%Q]]) = true.

Lemma grow_returns (pool : list Z) :
  forall core, NoDup (core ++ pool) -> incl (core ++ pool) (range 0 (nQP s)) ->
  pool <> [] -> exists g, grow eigenvalues s core pool = Ret g.
Proof.
  induction pool as [|x rest IH]; intros core ND Hi Hne; [congruence|].
  cbn [grow]. unfold getSubmatrix.
  replace (core ++ x :: rest) with ((core ++ [x]) ++ rest) in ND, Hi
    by (now rewrite <- app_assoc).
  rewrite (buildable_unit_symmetric s (core ++ [x])).
  2:{ apply range_buildable; trivial.
      - now apply NoDup_app_remove_r in ND.
      - intros a Ha. apply Hi. apply in_app_iff. now left. }
  cbn [bind]. destruct (isPSD (eigenvalues (entries s (core ++ [x])))); [|eauto].
  destruct rest as [|y rest']; [eauto|]. apply IH; trivial. discriminate.
Qed.

Lemma shrink_returns (k : nat) :
  forall core, NoDup core -> incl core (range 0 (nQP s)) -> (2 <= length core)%nat ->
  exists F, shrink eigenvalues s k core = Ret F.
Proof.
  induction k as [|k IH]; intros core ND Hi Hlen; cbn [shrink]; [eauto|].
  destruct core as [|r rest]; [cbn in Hlen; lia|].
  inversion ND as [|? ? Hr NDrest]; subst.
  assert (Hrest : incl rest (range 0 (nQP s))) by (intros a Ha; apply Hi; now right).
  unfold getSubmatrix. rewrite (buildable_unit_symmetric s rest) by now apply range_buildable.
  cbn [bind]. destruct (isPSD (eigenvalues (entries s rest))) eqn:EP.
  - apply IH.
    + apply (Permutation_NoDup (l := r :: rest)); [apply Permutation_cons_append|exact ND].
    + intros a Ha. apply Hi. apply in_app_iff in Ha. destruct Ha as [Ha|[<-|[]]];
        [now right|now left].
    + rewrite length_app. cbn in *. lia.
  - apply IH; trivial.
    destruct rest as [|x [|y rest]]; cbn in Hlen |- *; try lia.
    assert (E : entries s [x] = [[1%Q]]).
    { unfold entries, entry. cbn [map]. now rewrite Z.eqb_refl. }
    rewrite E in EP. congruence.
Qed.

Lemma nonPSDcore_returns (order : list Z) :
  Permutation order (range 0 (nQP s)) ->
  exists core, nonPSDcore eigenvalues s order = Ret core.
Proof.
  intros Hperm. unfold nonPSDcore.
  assert (Hp : Permutation (rev order) (range 0 (nQP s))).
  { apply Permutation_trans with order; [apply Permutation_sym, Permutation_rev|exact Hperm]. }
  assert (ND : NoDup (rev order)).
  { apply (Permutation_NoDup (Permutation_sym Hp)). apply NoDup_range. }
  assert (Hi : incl (rev order) (range 0 (nQP s))).
  { intros a Ha. now apply (Permutation_in a Hp). }
  assert (Hne : rev order <> []).
  { intros E. rewrite E in Hp. apply Permutation_nil in Hp.
    assert (In 0 (range 0 (nQP s))) by (apply In_range; destruct wf as (_ & ? & _); lia).
    rewrite Hp in H. destruct H. }
  destruct (grow_returns (rev order) [] ND Hi Hne) as [g Eg]. rewrite Eg. cbn [bind].
  destruct g as [c|]; [|eauto].
  destruct (grow_Some _ _ _ _ _ Eg) as (Hc & Hlen & M & EM & EP). cbn [app] in Hc.
  apply shrink_returns.
  - unfold getSubmatrix in EM. now destruct (unit_symmetric_Ret _ _ _ EM) as [[NDc _] _].
  - intros a Ha. apply Hi. now apply Hc.
  - destruct c as [|x [|y c]]; cbn in Hlen |- *; try lia.
    cbn in EM. injection EM as <-. congruence.
Qed.

End Returns.

(** C2: under exact eigenvalues, a non-empty core returned by
    [nonPSDcore()] induces a correlation submatrix whose smallest eigenvalue
    is below [-PSD_EIGEN_TOL], and when the empty core is returned the full
    matrix of [getMatrix()] has smallest eigenvalue at least
    [-PSD_EIGEN_TOL].  On a well-formed solver the call does return. *)
Theorem nonPSDcore_separates (eigenvalues : matrix -> list Q) (s : LPSolver)
        (order : list Z) :
  eigen_exact eigenvalues s ->
  Permutation order (range 0 (nQP s)) ->
  (well_formed s -> exists core, nonPSDcore eigenvalues s order = Ret core)
  /\ forall core, nonPSDcore eigenvalues s order = Ret core ->
       (core <> [] ->
          exists M, getSubmatrix s core = Ret M /\ has_eig_below M (- PSD_EIGEN_TOL))
       /\ (core = [] ->
          exists M, getMatrix s = Ret M /\ min_eig_ge M (- PSD_EIGEN_TOL)).
Proof.
  intros Hex Hperm. split.
  - intros Hw. apply nonPSDcore_returns; trivial.
    apply (exact_unit eigenvalues s Hex). destruct Hw as (_ & ? & _). lia.
  - intros core H.
    destruct (nonPSDcore_spec eigenvalues s Hex order core Hperm H) as [[-> Hs]|[Hv _]].
    + split; [congruence|]. intros _. exact Hs.
    + split; [intros _; exact Hv|]. intros ->. apply violated_two in Hv. cbn in Hv. lia.
Qed.

(** C3: under exact eigenvalues, taking any single element out of a core
    returned by [nonPSDcore()] leaves a set whose correlation submatrix has
    smallest eigenvalue at least [-PSD_EIGEN_TOL]. *)
Theorem nonPSDcore_minimal (eigenvalues : matrix -> list Q) (s : LPSolver)
        (order core : list Z) (a : Z) :
  eigen_exact eigenvalues s ->
  Permutation order (range 0 (nQP s)) ->
  nonPSDcore eigenvalues s order = Ret core ->
  In a core ->
  exists M, getSubmatrix s (remove Z.eq_dec a core) = Ret M
            /\ min_eig_ge M (- PSD_EIGEN_TOL).
Proof.
  intros Hex Hperm H Ha.
  destruct (nonPSDcore_spec eigenvalues s Hex order core Hperm H) as [[-> _]|[_ Hm]].
  - destruct Ha.
  - now apply Hm.
Qed.

(** The paring loop never takes a core of two or more rows below two rows,
    as soon as the 1x1 matrix [[1]] is reported with its eigenvalue 1. *)
Lemma shrink_two (eigenvalues : matrix -> list Q) (s : LPSolver) (k : nat) :
  eigenvalues [[1%Q]] = [1%Q] ->
  forall core F, (2 <= length core)%nat ->
  shrink eigenvalues s k core = Ret F -> (2 <= length F)%nat.
Proof.
  intros Hone. induction k as [|k IH]; intros core F Hlen H; cbn [shrink] in H.
  - now injection H as <-.
  - destruct core as [|r rest]; [discriminate|].
    destruct (getSubmatrix s rest) as [M|] eqn:EM; cbn [bind] in H; [|discriminate].
    destruct (isPSD (eigenvalues M)) eqn:EP.
    + apply (IH (rest ++ [r])); [|exact H]. rewrite length_app. cbn in *. lia.
    + apply (IH rest); [|exact H].
      destruct rest as [|x [|y rest]]; cbn in Hlen |- *; try lia.
      cbn in EM. injection EM as <-. rewrite Hone in EP. discriminate.
Qed.

(** C10: a core returned by [nonPSDcore()] is empty or has at least two
    elements: the growth never stops on a single row, whose matrix [[1]]
    has the eigenvalue 1, and the paring never goes below two rows. *)
Theorem nonPSDcore_two (eigenvalues : matrix -> list Q) (s : LPSolver)
        (order core : list Z) :
  eigenvalues [[1%Q]] = [1%Q] ->
  nonPSDcore eigenvalues s order = Ret core ->
  core = [] \/ (2 <= length core)%nat.
Proof.
  intros Hone H. unfold nonPSDcore in H.
  destruct (grow eigenvalues s [] (rev order)) as [[c|]|] eqn:EG; cbn [bind] in H;
    [| |discriminate].
  - right. apply (shrink_two eigenvalues s (length c) Hone c); [|exact H].
    destruct (grow_Some _ _ _ _ _ EG) as (_ & Hlen & M & EM & EP).
    destruct c as [|x [|y c]]; cbn in Hlen |- *; try lia.
    cbn in EM. injection EM as <-. rewrite Hone in EP. discriminate.
  - left. now injection H as <-.
Qed.

(** *** The two-variable scenario *)

Lemma two_var_exact : eigen_exact small_eigenvalues two_var_solver.
Proof.
  intros rows M Hi EM. unfold getSubmatrix in EM.
  destruct (unit_symmetric_Ret _ _ _ EM) as [[ND _] ->].
  change (range 0 (nQP two_var_solver)) with [0; 1] in Hi.
  pose proof (NoDup_incl_length ND Hi) as Hlen.
  destruct rows as [|a [|b [|c rows]]]; cbn [length] in Hlen; try lia.
  - split; [discriminate|]. intros Hb. now apply has_eig_below_nil in Hb.
  - assert (E : entries two_var_solver [a] = [[1%Q]]).
    { unfold entries, entry. cbn [map]. now rewrite Z.eqb_refl. }
    rewrite E. split; [discriminate|].
    intros Hb. apply has_eig_below_unit in Hb; [easy|apply PSD_EIGEN_TOL_pos].
  - assert (Hab : (a = 0 /\ b = 1) \/ (a = 1 /\ b = 0)).
    { inversion ND as [|? ? Hnin _]; subst.
      destruct (Hi a (or_introl eq_refl)) as [<-|[<-|[]]];
        destruct (Hi b (or_intror (or_introl eq_refl))) as [<-|[<-|[]]]; auto;
        exfalso; apply Hnin; now left. }
    assert (E : entries two_var_solver [a; b] = [[1; -3 # 2]; [-3 # 2; 1]]%Q)
      by (destruct Hab as [[-> ->]|[-> ->]]; reflexivity).
    rewrite E. split; [intros _|reflexivity].
    exists [1; 1]%Q. split; reflexivity.
Qed.

Lemma two_var_run :
  Permutation [0; 1] (range 0 (nQP two_var_solver))
  /\ nonPSDcore small_eigenvalues two_var_solver [0; 1] = Ret [1; 0].
Proof. split; [apply Permutation_refl|reflexivity]. Qed.

Lemma two_var_well_formed : well_formed two_var_solver.
Proof.
  unfold well_formed, sized. cbn.
  split; [split; [split; [discriminate|reflexivity]|reflexivity]|].
  split; [split; discriminate|]. split; reflexivity.
Qed.

Lemma nonPSDcore_separates_witness :
  (eigen_exact small_eigenvalues two_var_solver
   /\ Permutation [0; 1] (range 0 (nQP two_var_solver)))
  /\ (exists core, nonPSDcore small_eigenvalues two_var_solver [0; 1] = Ret core)
  /\ nonPSDcore small_eigenvalues two_var_solver [0; 1] = Ret [1; 0]
  /\ exists M, getSubmatrix two_var_solver [1; 0] = Ret M
               /\ has_eig_below M (- PSD_EIGEN_TOL).
Proof.
  destruct two_var_run as [Hp Hr]. split; [split; [exact two_var_exact|exact Hp]|].
  destruct (nonPSDcore_separates small_eigenvalues two_var_solver [0; 1]
              two_var_exact Hp) as [T1 T2].
  split; [exact (T1 two_var_well_formed)|]. split; [exact Hr|].
  destruct (T2 [1; 0] Hr) as [T3 _]. apply T3. discriminate.
Defined.

Lemma nonPSDcore_minimal_witness :
  (eigen_exact small_eigenvalues two_var_solver
   /\ Permutation [0; 1] (range 0 (nQP two_var_solver))
   /\ nonPSDcore small_eigenvalues two_var_solver [0; 1] = Ret [1; 0]
   /\ In 1 [1; 0])
  /\ exists M, getSubmatrix two_var_solver (remove Z.eq_dec 1 [1; 0]) = Ret M
               /\ min_eig_ge M (- PSD_EIGEN_TOL).
Proof.
  destruct two_var_run as [Hp Hr].
  split; [split; [exact two_var_exact|split; [exact Hp|split; [exact Hr|now left]]]|].
  exact (nonPSDcore_minimal small_eigenvalues two_var_solver [0; 1] [1; 0] 1
           two_var_exact Hp Hr (or_introl eq_refl)).
Defined.

Lemma nonPSDcore_two_witness :
  (small_eigenvalues [[1%Q]] = [1%Q]
   /\ nonPSDcore small_eigenvalues two_var_solver [0; 1] = Ret [1; 0])
  /\ ([1; 0] = [] \/ (2 <= length [1; 0])%nat).
Proof.
  destruct two_var_run as [_ Hr]. split; [split; [reflexivity|exact Hr]|].
  exact (nonPSDcore_two small_eigenvalues two_var_solver [0; 1] [1; 0] eq_refl Hr).
Defined.

(** ** Pruning of the rows *)

Lemma range_snoc (lo : Z) (n : nat) :
  range lo (lo + Z.of_nat n + 1) = range lo (lo + Z.of_nat n) ++ [lo + Z.of_nat n].
Proof.
  unfold range.
  replace (Z.to_nat (lo + Z.of_nat n + 1 - lo)) with (S n) by lia.
  replace (Z.to_nat (lo + Z.of_nat n - lo)) with n by lia.
  rewrite seq_S, map_app. reflexivity.
Qed.

Lemma nth_error_middle {A : Type} (pre post : list A) (r : A) :
  nth_error (pre ++ r :: post) (length pre) = Some r.
Proof. induction pre as [|x pre IH]; [reflexivity|exact IH]. Qed.

Lemma remove_nth_middle {A : Type} (pre post : list A) (r : A) :
  remove_nth (pre ++ r :: post) (length pre) = pre ++ post.
Proof. induction pre as [|x pre IH]; cbn [app length remove_nth]; [reflexivity|now rewrite IH]. Qed.

Lemma glp_item_middle {A : Type} (pre post : list A) (r : A) :
  glp_item (pre ++ r :: post) (1 + Z.of_nat (length pre)) = Ret r.
Proof.
  unfold glp_item.
  replace (1 + Z.of_nat (length pre) <? 1) with false by (symmetry; apply Z.ltb_ge; lia).
  replace (Z.to_nat (1 + Z.of_nat (length pre) - 1)) with (length pre) by lia.
  now rewrite nth_error_middle.
Qed.

Lemma prune_loop (cols : list lp_col) (st : Z) (pre : list lp_row) :
  forall post,
  foldM prune_step (rev (range 1 (1 + Z.of_nat (length pre))))
        {| lp_cols := cols; lp_rows := pre ++ post; lp_status := st |}
  = Ret {| lp_cols := cols;
           lp_rows := filter (fun r => negb (slack_above r)) pre ++ post;
           lp_status := st |}.
Proof.
  induction pre as [|r pre IH] using rev_ind; intros post; [reflexivity|].
  rewrite length_app. cbn [length].
  replace (1 + Z.of_nat (length pre + 1)) with (1 + Z.of_nat (length pre) + 1) by lia.
  rewrite range_snoc, rev_app_distr. cbn [rev app foldM].
  rewrite <- app_assoc. cbn [app].
  unfold prune_step at 1, glp_get_row_prim, glp_get_row_lb, glp_del_row. cbn [lp_rows lp_cols lp_status].
  rewrite glp_item_middle. cbn [bind].
  rewrite filter_app. cbn [filter]. fold (slack_above r).
  destruct (slack_above r); cbn [negb bind].
  - replace (Z.to_nat (1 + Z.of_nat (length pre) - 1)) with (length pre) by lia.
    rewrite remove_nth_middle, app_nil_r. apply IH.
  - rewrite <- app_assoc. cbn [app]. apply IH.
Qed.

Lemma prune_rows_filter (l : glp_prob) :
  prune_rows l
  = Ret {| lp_cols := lp_cols l;
           lp_rows := filter (fun r => negb (slack_above r)) (lp_rows l);
           lp_status := lp_status l |}.
Proof.
  destruct l as [cols rows st]. unfold prune_rows, glp_get_num_rows. cbn [lp_rows lp_cols lp_status].
  replace (Z.of_nat (length rows) + 1) with (1 + Z.of_nat (length rows)) by lia.
  pose proof (prune_loop cols st rows []) as H. rewrite !app_nil_r in H. exact H.
Qed.

(** C8 (as amended): when a cut is applied, the rows of the LP afterwards
    are the old rows whose slack (row primal value minus row lower bound,
    as the [double] subtraction gives it) is at most the constant
    [CONSTRAINT_REMOVAL_SLACK] = 0.99, in their order, followed by the one
    new row, whose lower bound is the constant term of the cut.  The
    threshold is absolute: the bound of the row does not scale it. *)
Theorem pruning_rule (s s' : LPSolver) (core : list Z) (constraint : list Q) :
  apply_constraint s core constraint = Ret s' ->
  exists added,
    lp_rows (lp s')
    = filter (fun r => negb (Qltb CONSTRAINT_REMOVAL_SLACK (fl64 (row_prim r - row_lb r))))
             (lp_rows (lp s)) ++ [added]
    /\ vec_at constraint 0 = Ret (row_lb added)
    /\ row_val added = tl constraint.
Proof.
  intros H. unfold apply_constraint in H. rewrite prune_rows_filter in H. cbn [bind] in H.
  set (kept := filter (fun r => negb (slack_above r)) (lp_rows (lp s))) in *.
  assert (Eadd : forall l, glp_add_rows l 1
                 = Ret {| lp_cols := lp_cols l; lp_rows := lp_rows l ++ [new_row];
                          lp_status := lp_status l |}) by reflexivity.
  rewrite Eadd in H. clear Eadd. cbn [bind] in H. cbv zeta in H.
  match type of H with bind ?m _ = _ => destruct m as [indices|] end;
    cbn [bind] in H; [|discriminate].
  unfold glp_set_mat_row, glp_set_row_bnds, glp_get_num_rows in H.
  cbn [lp_rows lp_cols lp_status] in H.
  rewrite length_app in H. cbn [length] in H.
  replace (Z.of_nat (length kept + 1)) with (1 + Z.of_nat (length kept)) in H by lia.
  rewrite glp_item_middle in H. cbn [bind] in H.
  match type of H with bind (bind ?m _) _ = _ => destruct m as [cols_ok|] end;
    cbn [bind] in H; [|discriminate].
  assert (Eset : forall (a b : lp_row),
             glp_set_item (kept ++ [a]) (1 + Z.of_nat (length kept)) b = Ret (kept ++ [b])).
  { intros a b. unfold glp_set_item. rewrite length_app. cbn [length].
    replace ((1 <=? 1 + Z.of_nat (length kept))
             && (1 + Z.of_nat (length kept) <=? Z.of_nat (length kept + 1))) with true
      by (symmetry; apply andb_true_iff; split; apply Z.leb_le; lia).
    f_equal. replace (Z.to_nat (1 + Z.of_nat (length kept) - 1)) with (length kept) by lia.
    clear. induction kept as [|x kept IH]; cbn [app length list_set]; [reflexivity|now rewrite IH]. }
  rewrite Eset in H. cbn [bind lp_rows lp_cols lp_status] in H.
  destruct (vec_at constraint 0) as [c0|] eqn:E0; cbn [bind] in H; [|discriminate].
  rewrite glp_item_middle in H. cbn [bind] in H.
  rewrite Eset in H. cbn [bind] in H.
  injection H as <-. cbn [lp set_lp lp_rows row_lb row_val].
  eexists. split; [reflexivity|]. split; reflexivity.
Qed.

(** ** Extraction of the solution *)

Lemma nth_error_list_set_eq {A : Type} (v : list A) (i : nat) (a : A) :
  (i < length v)%nat -> nth_error (list_set v i a) i = Some a.
Proof.
  revert i. induction v as [|b v IH]; intros [|i] H; cbn in *; try lia; try reflexivity.
  apply IH. lia.
Qed.

Lemma nth_error_list_set_neq {A : Type} (v : list A) (i j : nat) (a : A) :
  i <> j -> nth_error (list_set v i a) j = nth_error v j.
Proof.
  revert i j. induction v as [|b v IH]; intros [|i] [|j] H; cbn; try reflexivity; try lia.
  apply IH. lia.
Qed.

Lemma vec_set_spec {A : Type} (v v' : list A) (i : Z) (a : A) :
  vec_set v i a = Ret v' ->
  length v' = length v /\ vec_at v' i = Ret a
  /\ forall j, j <> i -> vec_at v' j = vec_at v j.
Proof.
  unfold vec_set. destruct ((0 <=? i) && (i <? Z.of_nat (length v))) eqn:E; [|discriminate].
  apply andb_true_iff in E. destruct E as [E1 E2].
  apply Z.leb_le in E1. apply Z.ltb_lt in E2. intros H. injection H as <-.
  split; [apply list_set_length|]. split.
  - unfold vec_at. replace (i <? 0) with false by (symmetry; apply Z.ltb_ge; lia).
    rewrite nth_error_list_set_eq by lia. reflexivity.
  - intros j Hj. unfold vec_at. destruct (Z.ltb_spec j 0); [reflexivity|].
    rewrite nth_error_list_set_neq by lia. reflexivity.
Qed.






(** ** The solve loop *)

Section Loop.

Variable eigenvalues : matrix -> list Q.
Variable llt : matrix -> matrix.
Variable USE_INTERIOR : bool.

Local Abbreviation step1 := (step eigenvalues llt USE_INTERIOR).
Local Abbreviation runs := (run eigenvalues llt USE_INTERIOR).

Lemma length_eqb_0 {A : Type} (l : list A) : (length l =? 0)%nat = false <-> l <> [].
Proof. destruct l; cbn; split; congruence. Qed.

Lemma step_cut_fails (c : config) (r : reply) :
  pc c = at_findcore -> cut_fails eigenvalues (self c) r ->
  succConstraintFail (step1 c r) = succConstraintFail c + 1
  /\ self (step1 c r) = self c
  /\ pc (step1 c r) = if succConstraintFail c + 1 =? CONSTRAINT_FAIL_LIMIT
                     then at_rounding else at_findcore.
Proof.
  intros Hpc (core & M & Hc & Hne & HM & Hcut).
  unfold step. rewrite Hpc. unfold findcore_block. rewrite Hc.
  apply length_eqb_0 in Hne. rewrite Hne, HM, Hcut. cbn [length Nat.eqb].
  cbn [succConstraintFail set_succConstraintFail].
  destruct (succConstraintFail c + 1 =? CONSTRAINT_FAIL_LIMIT); repeat split.
Qed.

Lemma step_cut_found (c : config) (r : reply) :
  pc c = at_findcore -> cut_found eigenvalues (self c) r ->
  succConstraintFail (step1 c r) = 0
  /\ (pc (step1 c r) = at_solve \/ exists f, pc (step1 c r) = crashed f).
Proof.
  intros Hpc (core & M & Hc & Hne & HM & Hcut).
  unfold step. rewrite Hpc. unfold findcore_block. rewrite Hc.
  apply length_eqb_0 in Hne. apply length_eqb_0 in Hcut. rewrite Hne, HM, Hcut.
  destruct (apply_constraint (self c) core (findConstraint r M)); cbn; eauto.
Qed.

Lemma step_halted (c : config) (r : reply) : halted (pc c) -> step1 c r = c.
Proof. unfold step. destruct (pc c); cbn; intros H; try contradiction; reflexivity. Qed.

Lemma run_halted (c : config) (rs : list reply) : halted (pc c) -> runs c rs = c.
Proof.
  intros H. induction rs as [|r rs IH]; [reflexivity|].
  unfold run in *. cbn [fold_left].
  now rewrite step_halted.
Qed.

Lemma step_rounding (c : config) (r : reply) :
  pc c = at_rounding ->
  (pc (step1 c r) = returned \/ exists f, pc (step1 c r) = crashed f)
  /\ self (step1 c r) = self c
  /\ succConstraintFail (step1 c r) = succConstraintFail c.
Proof.
  intros Hpc. unfold step. rewrite Hpc. unfold rounding_block, roundToSol.
  destruct (getMatrix (self c)) as [M|]; cbn [bind]; [|cbn; eauto].
  destruct (vec_at (eigenvalues M) 0) as [e|]; cbn [bind]; cbn; eauto.
Qed.

Lemma run_rounding (c : config) (rs : list reply) :
  pc c = at_rounding -> rs <> [] ->
  halted (pc (runs c rs)) /\ pc (runs c rs) <> at_solve /\ pc (runs c rs) <> at_findcore.
Proof.
  intros Hpc Hne. destruct rs as [|r rs]; [congruence|].
  unfold run. cbn [fold_left]. fold (runs (step1 c r) rs).
  destruct (step_rounding c r Hpc) as ([E|[f E]] & _ & _).
  - rewrite run_halted by (rewrite E; exact I). rewrite E.
    split; [exact I|split; discriminate].
  - rewrite run_halted by (rewrite E; exact I). rewrite E.
    split; [exact I|split; discriminate].
Qed.

(** A run of consecutive failures of the cut generator: the counter grows
    by one each time and the solver is left alone. *)
Lemma run_failures (rs : list reply) :
  forall c, pc c = at_findcore ->
  Forall (cut_fails eigenvalues (self c)) rs ->
  succConstraintFail c + Z.of_nat (length rs) < CONSTRAINT_FAIL_LIMIT ->
  pc (runs c rs) = at_findcore
  /\ self (runs c rs) = self c
  /\ succConstraintFail (runs c rs) = succConstraintFail c + Z.of_nat (length rs).
Proof.
  induction rs as [|r rs IH]; intros c Hpc Hf Hlim.
  - cbn. split; [exact Hpc|split; [reflexivity|lia]].
  - inversion Hf as [|? ? Hr Hrs]; subst.
    destruct (step_cut_fails c r Hpc Hr) as (E1 & E2 & E3).
    cbn [length] in Hlim.
    replace (succConstraintFail c + 1 =? CONSTRAINT_FAIL_LIMIT) with false in E3
      by (symmetry; apply Z.eqb_neq; lia).
    unfold run. cbn [fold_left]. fold (runs (step1 c r) rs).
    destruct (IH (step1 c r)) as (I1 & I2 & I3); trivial.
    + now rewrite E2.
    + rewrite E1. lia.
    + split; [exact I1|]. split; [congruence|]. rewrite I3, E1. cbn [length]. lia.
Qed.

Lemma limit_reached (rs : list reply) (c : config) :
  pc c = at_findcore ->
  Forall (cut_fails eigenvalues (self c)) rs ->
  succConstraintFail c + Z.of_nat (length rs) = CONSTRAINT_FAIL_LIMIT ->
  rs <> [] ->
  pc (runs c rs) = at_rounding /\ succConstraintFail (runs c rs) = CONSTRAINT_FAIL_LIMIT.
Proof.
  intros Hpc Hf Hlim Hne.
  destruct (exists_last Hne) as (rs' & r & ->).
  apply Forall_app in Hf. destruct Hf as [Hf' Hr]. inversion Hr as [|? ? Hr' _]; subst.
  rewrite length_app in Hlim. cbn [length] in Hlim.
  destruct (run_failures rs' c Hpc Hf') as (I1 & I2 & I3); [lia|].
  unfold run. rewrite fold_left_app. cbn [fold_left]. fold (runs c rs').
  rewrite <- I2 in Hr'.
  destruct (step_cut_fails (runs c rs') r I1 Hr') as (E1 & _ & E3).
  replace (succConstraintFail (runs c rs') + 1 =? CONSTRAINT_FAIL_LIMIT) with true in E3
    by (symmetry; apply Z.eqb_eq; lia).
  split; [exact E3|]. rewrite E1, I3. lia.
Qed.

Lemma step_counter_ok (c : config) (r : reply) : counter_ok c -> counter_ok (step1 c r).
Proof.
  unfold counter_ok, step, CONSTRAINT_FAIL_LIMIT.
  destruct (pc c) eqn:Hpc; intros H; rewrite ?Hpc; trivial.
  - unfold solve_block.
    repeat match goal with
           | |- context [if ?b then _ else _] => destruct b
           | |- context [match ?m with Ret _ => _ | Fail _ => _ end] => destruct m
           end; cbn; lia.
  - unfold findcore_block.
    destruct (nonPSDcore eigenvalues (self c) (shuffle r)) as [core|]; [|cbn; lia].
    destruct (length core =? 0)%nat; [cbn; lia|].
    destruct (getSubmatrix (self c) core) as [M|]; [|cbn; lia].
    destruct (length (findConstraint r M) =? 0)%nat.
    + cbn [succConstraintFail set_succConstraintFail].
      destruct (Z.eqb_spec (succConstraintFail c + 1) CONSTRAINT_FAIL_LIMIT) as [E|E];
        unfold CONSTRAINT_FAIL_LIMIT in E; cbn; lia.
    + destruct (apply_constraint (self c) core (findConstraint r M)); cbn; lia.
  - unfold rounding_block.
    destruct (roundToSol eigenvalues llt (self c) (normal r)) as [[sc s']|]; cbn; lia.
  - unfold complete_block.
    destruct (extract_bestSol (self c)); cbn; lia.
Qed.

Lemma run_counter_ok (rs : list reply) : forall c, counter_ok c -> counter_ok (runs c rs).
Proof.
  induction rs as [|r rs IH]; intros c H; [exact H|].
  unfold run. cbn [fold_left]. fold (runs (step1 c r) rs).
  apply IH. now apply step_counter_ok.
Qed.

(** C4: at [findcore], an empty result of the cut generator adds one to
    [succConstraintFail] and a cut sets it back to 0; from the entry of
    [solve()] the counter stays below [CONSTRAINT_FAIL_LIMIT] = 5 while the
    loop runs; the failure that brings it to 5 leads to [rounding], and
    from [rounding] the run ends at the next step, never passing [solve]
    or [findcore] again. *)
Theorem fallback_trigger :
  (forall c r, pc c = at_findcore -> cut_fails eigenvalues (self c) r ->
     succConstraintFail (step1 c r) = succConstraintFail c + 1
     /\ pc (step1 c r) = if succConstraintFail c + 1 =? CONSTRAINT_FAIL_LIMIT
                        then at_rounding else at_findcore)
  /\ (forall c r, pc c = at_findcore -> cut_found eigenvalues (self c) r ->
     succConstraintFail (step1 c r) = 0
     /\ (pc (step1 c r) = at_solve \/ exists f, pc (step1 c r) = crashed f))
  /\ (forall s rs, counter_ok (runs (solve_entry s) rs))
  /\ (forall c rs, pc c = at_findcore -> rs <> [] ->
     Forall (cut_fails eigenvalues (self c)) rs ->
     succConstraintFail c + Z.of_nat (length rs) = CONSTRAINT_FAIL_LIMIT ->
     pc (runs c rs) = at_rounding)
  /\ (forall c rs, pc c = at_rounding -> rs <> [] ->
     halted (pc (runs c rs))
     /\ pc (runs c rs) <> at_solve /\ pc (runs c rs) <> at_findcore).
Proof.
  split; [|split; [|split; [|split]]].
  - intros c r Hpc Hf. destruct (step_cut_fails c r Hpc Hf) as (E1 & _ & E3). now split.
  - exact step_cut_found.
  - intros s rs. apply run_counter_ok. unfold counter_ok, CONSTRAINT_FAIL_LIMIT. cbn. lia.
  - intros c rs Hpc Hne Hf Hlim. now apply (limit_reached rs c).
  - exact run_rounding.
Qed.

(** C5: [roundToSol()] returns the solver it was given, so [bestSol],
    [lowerBound], [upperBound] and [currSol] are as before; it prints
    [MAX_TRIES_ROUNDING] = 20 scores, one per trial.  The same holds for
    the step of [solve()] under label [rounding], whether or not the call
    comes back. *)
Theorem rounding_frame :
  (forall s nrm out s',
     roundToSol eigenvalues llt s nrm = Ret (out, s') ->
     s' = s /\ length out = Z.to_nat MAX_TRIES_ROUNDING)
  /\ (forall c r, pc c = at_rounding ->
     bestSol (self (step1 c r)) = bestSol (self c)
     /\ lowerBound (self (step1 c r)) = lowerBound (self c)
     /\ upperBound (self (step1 c r)) = upperBound (self c)
     /\ currSol (self (step1 c r)) = currSol (self c)).
Proof.
  split.
  - intros s nrm out s' H. unfold roundToSol in H.
    destruct (getMatrix s) as [M|]; cbn [bind] in H; [|discriminate].
    destruct (vec_at (eigenvalues M) 0) as [e|]; cbn [bind] in H; [|discriminate].
    cbv zeta in H. injection H as <- <-. split; reflexivity.
  - intros c r Hpc. destruct (step_rounding c r Hpc) as (_ & E & _). now rewrite E.
Qed.

End Loop.

(** ** The scenarios *)

Lemma pruning_rule_witness :
  exists s',
    apply_constraint (set_lp two_var_solver two_rows) [1; 0] [-1; 1]%Q = Ret s'
    /\ exists added,
         lp_rows (lp s')
         = filter (fun r => negb (Qltb CONSTRAINT_REMOVAL_SLACK (fl64 (row_prim r - row_lb r))))
                  (lp_rows (lp (set_lp two_var_solver two_rows))) ++ [added]
         /\ vec_at [-1; 1]%Q 0 = Ret (row_lb added)
         /\ row_val added = tl [-1; 1]%Q.
Proof.
  assert (H : exists s', apply_constraint (set_lp two_var_solver two_rows) [1; 0] [-1; 1]%Q
                         = Ret s').
  { eexists. vm_compute. reflexivity. }
  destruct H as [s' Hs]. exists s'. split; [exact Hs|].
  exact (pruning_rule _ s' _ _ Hs).
Defined.

(** C8 as stated fails: the threshold is not a fraction of the bound of
    the row.  A row with bound 0 and slack 1/2 exceeds every fraction of
    its bound, and the loop keeps it; a row with bound 2 and slack 3/2 does
    not exceed 0.99 of its bound, and the loop deletes it. *)
Lemma pruning_rule_not_relative :
  (forall c, forallb (exceeds_fraction_of_bound c) (firstn 1 (lp_rows two_rows)) = true)
  /\ forallb (exceeds_fraction_of_bound CONSTRAINT_REMOVAL_SLACK)
             (skipn 1 (lp_rows two_rows)) = false
  /\ exists l, prune_rows two_rows = Ret l /\ lp_rows l = firstn 1 (lp_rows two_rows).
Proof.
  split; [|split].
  - intros c. cbn [two_rows lp_rows firstn forallb]. rewrite andb_true_r.
    unfold exceeds_fraction_of_bound, Qltb. cbn [row_lb row_prim].
    apply negb_true_iff. destruct (Qle_bool ((1 # 2) - 0) (c * 0)) eqn:E; [|reflexivity].
    apply Qle_bool_iff in E. lra.
  - reflexivity.
  - eexists. split; reflexivity.
Qed.

(** The slack the loop tests is the rounded difference: a row at 0.99
    with bound -2^-60 has a slack above 0.99, the [double] subtraction
    gives 0.99, and the loop keeps the row. *)
Lemma prune_rows_rounded_slack :
  Qltb CONSTRAINT_REMOVAL_SLACK (row_prim tight_row - row_lb tight_row) = true
  /\ slack_above tight_row = false
  /\ prune_rows {| lp_cols := []; lp_rows := [tight_row]; lp_status := GLP_OPT |}
     = Ret {| lp_cols := []; lp_rows := [tight_row]; lp_status := GLP_OPT |}.
Proof.
  split; [|split]; vm_compute; reflexivity.
Qed.

Lemma three_var_well_formed : well_formed three_var_solver.
Proof.
  unfold well_formed, sized. cbn.
  split; [split; [split; [discriminate|reflexivity]|reflexivity]|].
  split; [split; discriminate|]. split; reflexivity.
Qed.



Lemma quiet_reply_fails : cut_fails small_eigenvalues two_var_solver quiet_reply.
Proof.
  exists [1; 0], [[1; -3 # 2]; [-3 # 2; 1]]%Q.
  split; [reflexivity|]. split; [discriminate|]. split; reflexivity.
Qed.

Lemma fallback_trigger_witness :
  let c := goto (solve_entry two_var_solver) at_findcore in
  let rs := repeat quiet_reply 5 in
  (pc c = at_findcore /\ rs <> []
   /\ Forall (cut_fails small_eigenvalues (self c)) rs
   /\ succConstraintFail c + Z.of_nat (length rs) = CONSTRAINT_FAIL_LIMIT)
  /\ pc (run small_eigenvalues (fun M => M) false c rs) = at_rounding.
Proof.
  cbv zeta.
  assert (H : Forall (cut_fails small_eigenvalues
                        (self (goto (solve_entry two_var_solver) at_findcore)))
                     (repeat quiet_reply 5))
    by (repeat constructor; exact quiet_reply_fails).
  split; [split; [reflexivity|split; [discriminate|split; [exact H|reflexivity]]]|].
  destruct (fallback_trigger small_eigenvalues (fun M => M) false) as (_ & _ & _ & T & _).
  apply T; [reflexivity|discriminate|exact H|reflexivity].
Defined.

Lemma rounding_frame_witness :
  exists out,
    roundToSol small_eigenvalues (fun M => M) two_var_solver (fun _ _ => 1%Q)
    = Ret (out, two_var_solver)
    /\ two_var_solver = two_var_solver
    /\ length out = Z.to_nat MAX_TRIES_ROUNDING.
Proof.
  assert (H : exists out,
             roundToSol small_eigenvalues (fun M => M) two_var_solver (fun _ _ => 1%Q)
             = Ret (out, two_var_solver)).
  { eexists. unfold roundToSol. cbn [bind getMatrix]. reflexivity. }
  destruct H as [out Ho]. exists out. split; [exact Ho|].
  destruct (rounding_frame small_eigenvalues (fun M => M) false) as [T _].
  exact (T _ _ _ _ Ho).
Defined.

(* ================================================================== *)
(** * Part III: further properties of the code                         *)
(* ================================================================== *)

(** ** The index mapping, the other way round *)

Lemma sqrt_half_floor_zero : Double.sqrt_half_floor 0 = 0.
Proof. rewrite DoubleFacts.sqrt_half_floor_exact by lia. reflexivity. Qed.

Lemma five_var_sized : sized (bare_solver (uniform_problem 5 1) (repeat 0%Q 10)).
Proof. unfold sized. cbn. split; [split; [discriminate|reflexivity]|reflexivity]. Qed.

(** Unpacking a column number and packing the pair again gives the column
    number back: for [nQP <= 65536] every [v] in 1..nLP is unpacked by
    [getQPVars] to a pair [y < x < nQP], and [getLPVar] maps that pair, in
    either order, to [v]. *)
Theorem unpack_then_pack (s : LPSolver) (v : Z) :
  sized s -> nQP s <= 65536 -> 1 <= v <= nLP s ->
  exists x y, getQPVars s v = Ret (x, y)
              /\ 0 <= y < x /\ x < nQP s
              /\ getLPVar s x y = Ret v /\ getLPVar s y x = Ret v.
Proof.
  intros Hs Hn Hv.
  destruct (getQPVars_onto s v Hs Hn Hv) as (x & y & E & Hy & Hx & Ev).
  exists x, y. split; [exact E|]. split; [exact Hy|]. split; [exact Hx|].
  assert (P : getLPVar s x y = Ret v) by (rewrite Ev; now apply getLPVar_packed).
  split; [exact P|]. now rewrite getLPVar_swap.
Qed.

Lemma unpack_then_pack_witness :
  let s := bare_solver (uniform_problem 5 1) (repeat 0%Q 10) in
  (sized s /\ nQP s <= 65536 /\ 1 <= 7 <= nLP s)
  /\ exists x y, getQPVars s 7 = Ret (x, y)
                 /\ 0 <= y < x /\ x < nQP s
                 /\ getLPVar s x y = Ret 7 /\ getLPVar s y x = Ret 7.
Proof.
  cbv zeta.
  assert (H : nQP (bare_solver (uniform_problem 5 1) (repeat 0%Q 10)) <= 65536
              /\ 1 <= 7 <= nLP (bare_solver (uniform_problem 5 1) (repeat 0%Q 10))).
  { cbn. split; [discriminate|split; discriminate]. }
  split; [split; [exact five_var_sized|exact H]|].
  destruct H as [H1 H2].
  exact (unpack_then_pack _ 7 five_var_sized H1 H2).
Defined.

(** [getLPVar] numbers the pairs [y < x < nQP] without collision and
    without leaving 1..nLP, the columns of the LP and the positions (plus
    one) of [currSol]. *)
Theorem packed_index_injective (s : LPSolver) (x y x' y' : Z) :
  sized s -> nQP s <= 65536 ->
  0 <= y < x -> x < nQP s -> 0 <= y' < x' -> x' < nQP s ->
  exists v v', getLPVar s x y = Ret v /\ getLPVar s x' y' = Ret v'
               /\ 1 <= v <= nLP s
               /\ (v = v' -> x = x' /\ y = y').
Proof.
  intros Hs Hn Hy Hx Hy' Hx'.
  exists (1 + y + x * (x - 1) / 2), (1 + y' + x' * (x' - 1) / 2).
  split; [now apply getLPVar_packed|]. split; [now apply getLPVar_packed|].
  rewrite (nLP_exact s Hs Hn).
  pose proof (triangle_even x) as T. pose proof (triangle_even x') as T'.
  pose proof (triangle_even (nQP s)) as Tn.
  set (t := x * (x - 1) / 2) in *. set (t' := x' * (x' - 1) / 2) in *.
  set (tn := nQP s * (nQP s - 1) / 2) in *.
  split; [nia|]. intros E.
  assert (Exx : x = x').
  { destruct (Z.lt_trichotomy x x') as [L|[Q|G]]; [exfalso|exact Q|exfalso]; nia. }
  subst x'. split; [reflexivity|]. unfold t, t' in E. lia.
Qed.

Lemma packed_index_injective_witness :
  let s := bare_solver (uniform_problem 5 1) (repeat 0%Q 10) in
  (sized s /\ nQP s <= 65536 /\ 0 <= 1 < 3 /\ 3 < nQP s /\ 0 <= 2 < 4 /\ 4 < nQP s)
  /\ exists v v', getLPVar s 3 1 = Ret v /\ getLPVar s 4 2 = Ret v'
                  /\ 1 <= v <= nLP s
                  /\ (v = v' -> 3 = 4 /\ 1 = 2).
Proof.
  cbv zeta.
  assert (Hn : nQP (bare_solver (uniform_problem 5 1) (repeat 0%Q 10)) <= 65536)
    by (cbn; discriminate).
  assert (H31 : 0 <= 1 < 3) by lia. assert (H42 : 0 <= 2 < 4) by lia.
  assert (H3 : 3 < nQP (bare_solver (uniform_problem 5 1) (repeat 0%Q 10))) by reflexivity.
  assert (H4 : 4 < nQP (bare_solver (uniform_problem 5 1) (repeat 0%Q 10))) by reflexivity.
  split; [repeat split; try assumption; try exact five_var_sized; lia|].
  exact (packed_index_injective _ 3 1 4 2 five_var_sized Hn H31 H3 H42 H4).
Defined.

(** For [nQP <= 65536], [getQPVars(v)] returns exactly for the [v] in
    1..nLP.  The argument 0 is turned away by the test [y >= x], with the
    [y] that wrapped around below zero: "Bad QP: 0, 4294967295, 0". *)
Theorem getQPVars_domain (s : LPSolver) (v : Z) :
  sized s -> nQP s <= 65536 -> 0 <= v < 2 ^ 32 ->
  ((exists xy, getQPVars s v = Ret xy) <-> 1 <= v <= nLP s)
  /\ (v = 0 -> getQPVars s v = Fail (Bad_QP 0 4294967295 0))
  /\ (nLP s < v -> getQPVars s v = Fail (Bad_vQP v (nLP s))).
Proof.
  intros Hs Hn Hv.
  assert (H0 : getQPVars s 0 = Fail (Bad_QP 0 4294967295 0)).
  { unfold getQPVars. cbv zeta. rewrite (nLP_exact s Hs Hn).
    destruct Hs as [Hq _].
    replace (nQP s * (nQP s - 1) / 2 <? 0) with false
      by (symmetry; apply Z.ltb_ge; apply Z.div_pos; nia).
    change (u32 (2 * 0)) with 0. rewrite sqrt_half_floor_zero. reflexivity. }
  assert (Hbig : nLP s < v -> getQPVars s v = Fail (Bad_vQP v (nLP s))).
  { intros L. unfold getQPVars.
    replace (nLP s <? v) with true by (symmetry; apply Z.ltb_lt; exact L). reflexivity. }
  split; [|split; [intros ->; exact H0|exact Hbig]].
  split.
  - intros [xy E]. destruct (Z.eq_dec v 0) as [->|Hz]; [congruence|].
    destruct (Z.lt_ge_cases (nLP s) v) as [L|G]; [|lia].
    rewrite (Hbig L) in E. discriminate.
  - intros Hr. destruct (getQPVars_onto s v Hs Hn Hr) as (x & y & E & _). eauto.
Qed.

Lemma getQPVars_domain_witness :
  let s := bare_solver (uniform_problem 5 1) (repeat 0%Q 10) in
  (sized s /\ nQP s <= 65536 /\ 0 <= 10 < 2 ^ 32)
  /\ ((exists xy, getQPVars s 10 = Ret xy) <-> 1 <= 10 <= nLP s)
  /\ (10 = 0 -> getQPVars s 10 = Fail (Bad_QP 0 4294967295 0))
  /\ (nLP s < 10 -> getQPVars s 10 = Fail (Bad_vQP 10 (nLP s))).
Proof.
  cbv zeta.
  assert (Hn : nQP (bare_solver (uniform_problem 5 1) (repeat 0%Q 10)) <= 65536)
    by (cbn; discriminate).
  assert (Hv : 0 <= 10 < 2 ^ 32) by (split; [discriminate|reflexivity]).
  split; [split; [exact five_var_sized|split; [exact Hn|exact Hv]]|].
  exact (getQPVars_domain _ 10 five_var_sized Hn Hv).
Defined.

(** ** The matrices of the relaxation point *)

Lemma nth_range (lo hi : Z) (k : nat) :
  (k < Z.to_nat (hi - lo))%nat -> nth k (range lo hi) 0 = lo + Z.of_nat k.
Proof.
  intros H. unfold range.
  rewrite (nth_indep _ 0 (lo + Z.of_nat 0)) by (now rewrite length_map, length_seq).
  rewrite (map_nth (fun k => lo + Z.of_nat k)). now rewrite seq_nth.
Qed.

Lemma length_range (lo hi : Z) : length (range lo hi) = Z.to_nat (hi - lo).
Proof. unfold range. now rewrite length_map, length_seq. Qed.

Lemma entries_at (s : LPSolver) (l : list Z) (i j : nat) :
  (i < length l)%nat -> (j < length l)%nat ->
  mat_at (entries s l) i j = entry s (nth i l 0) (nth j l 0).
Proof.
  intros Hi Hj. unfold mat_at, entries.
  rewrite (nth_indep _ [] ((fun a => map (entry s a) l) 0)) by (now rewrite length_map).
  rewrite (map_nth (fun a => map (entry s a) l)).
  rewrite (nth_indep _ 0%Q (entry s (nth i l 0) 0)) by (now rewrite length_map).
  now rewrite (map_nth (entry s (nth i l 0))).
Qed.

Lemma entry_diag (s : LPSolver) (a : Z) : entry s a a = 1%Q.
Proof. unfold entry. now rewrite Z.eqb_refl. Qed.

Lemma getLPVar_Ret_range (s : LPSolver) (a b v : Z) :
  getLPVar s a b = Ret v -> a < nQP s /\ b < nQP s.
Proof.
  unfold getLPVar, getLPVar_ordered. destruct (b =? a); [discriminate|].
  destruct (a <? b).
  - destruct ((nQP s <=? a) || (nQP s <=? b)) eqn:E; [discriminate|].
    apply orb_false_iff in E. destruct E as [E1 E2].
    apply Z.leb_gt in E1. apply Z.leb_gt in E2. intros _. lia.
  - destruct ((nQP s <=? b) || (nQP s <=? a)) eqn:E; [discriminate|].
    apply orb_false_iff in E. destruct E as [E1 E2].
    apply Z.leb_gt in E1. apply Z.leb_gt in E2. intros _. lia.
Qed.

Lemma pair_value_Ret_range (s : LPSolver) (a b : Z) (q : Q) :
  pair_value s a b = Ret q -> a < nQP s /\ b < nQP s.
Proof.
  unfold pair_value. destruct (getLPVar s a b) as [v|] eqn:E; cbn [bind]; [|discriminate].
  intros _. now apply (getLPVar_Ret_range s a b v).
Qed.

(** A matrix returned by [getSubmatrix(rows)] is square of the size of
    [rows], has 1 on its diagonal, is symmetric, and off the diagonal
    holds the relaxation value of the pair of variables [rows[i]],
    [rows[j]]. *)
Theorem getSubmatrix_shape (s : LPSolver) (rows : list Z) (M : matrix) :
  getSubmatrix s rows = Ret M ->
  length M = length rows
  /\ Forall (fun r => length r = length rows) M
  /\ forall i j, (i < length rows)%nat -> (j < length rows)%nat ->
       mat_at M i j = mat_at M j i
       /\ (i = j -> mat_at M i j = 1%Q)
       /\ (i <> j -> pair_value s (nth i rows 0) (nth j rows 0) = Ret (mat_at M i j)).
Proof.
  intros H. unfold getSubmatrix in H.
  destruct (unit_symmetric_Ret _ _ _ H) as [[ND Hp] ->].
  split; [apply entries_length|]. split.
  - apply Forall_forall. intros r Hr. unfold entries in Hr.
    apply in_map_iff in Hr. destruct Hr as (a & <- & _). apply length_map.
  - intros i j Hi Hj. rewrite !entries_at by assumption.
    split; [apply entry_swap|]. split.
    + intros ->. apply entry_diag.
    + intros Hne.
      assert (Hab : nth i rows 0 <> nth j rows 0).
      { intros E. apply Hne. now apply (proj1 (NoDup_nth rows 0) ND). }
      destruct (Hp (nth i rows 0) (nth j rows 0)) as [q Hq];
        [now apply nth_In|now apply nth_In|exact Hab|].
      rewrite Hq. f_equal. symmetry. now apply entry_value.
Qed.

Lemma getSubmatrix_shape_witness :
  getSubmatrix three_var_solver [2; 0] = Ret [[1; -1]; [-1; 1]]%Q
  /\ length [[1; -1]; [-1; 1]]%Q = length [2; 0]
  /\ Forall (fun r => length r = length [2; 0]) [[1; -1]; [-1; 1]]%Q
  /\ forall i j, (i < length [2; 0])%nat -> (j < length [2; 0])%nat ->
       mat_at [[1; -1]; [-1; 1]]%Q i j = mat_at [[1; -1]; [-1; 1]]%Q j i
       /\ (i = j -> mat_at [[1; -1]; [-1; 1]]%Q i j = 1%Q)
       /\ (i <> j -> pair_value three_var_solver (nth i [2; 0] 0) (nth j [2; 0] 0)
                     = Ret (mat_at [[1; -1]; [-1; 1]]%Q i j)).
Proof.
  assert (H : getSubmatrix three_var_solver [2; 0] = Ret [[1; -1]; [-1; 1]]%Q) by reflexivity.
  split; [exact H|]. exact (getSubmatrix_shape three_var_solver [2; 0] _ H).
Defined.

(** [getSubmatrix(rows)] on two or more rows returns exactly when the rows
    are pairwise different variables of the problem: a repeated row or a
    row [>= nQP] makes [getLPVar] throw. *)
Theorem getSubmatrix_returns_iff (s : LPSolver) (rows : list Z) :
  well_formed s -> (2 <= length rows)%nat -> Forall (fun a => 0 <= a) rows ->
  (exists M, getSubmatrix s rows = Ret M)
  <-> NoDup rows /\ Forall (fun a => a < nQP s) rows.
Proof.
  intros Hw Hlen Hpos. split.
  - intros [M H]. unfold getSubmatrix in H.
    destruct (unit_symmetric_Ret _ _ _ H) as [[ND Hp] _].
    split; [exact ND|]. apply Forall_forall. intros a Ha.
    assert (Hb : exists b, In b rows /\ a <> b).
    { destruct rows as [|x [|y rows]]; cbn [length] in Hlen; try lia.
      inversion ND as [|? ? Hx _]; subst.
      destruct (Z.eq_dec a x) as [->|Hne].
      - exists y. split; [right; now left|]. intros ->. apply Hx. now left.
      - exists x. split; [now left|exact Hne]. }
    destruct Hb as (b & Hb & Hne). destruct (Hp a b Ha Hb Hne) as [q Hq].
    now apply pair_value_Ret_range in Hq.
  - intros [ND Hr]. exists (entries s rows). unfold getSubmatrix.
    apply buildable_unit_symmetric. apply range_buildable; trivial.
    intros a Ha. apply In_range. rewrite Forall_forall in Hpos, Hr.
    split; [now apply Hpos|now apply Hr].
Qed.

Lemma getSubmatrix_returns_iff_witness :
  (well_formed three_var_solver /\ (2 <= length [1; 1])%nat /\ Forall (fun a => 0 <= a) [1; 1])
  /\ ((exists M, getSubmatrix three_var_solver [1; 1] = Ret M)
      <-> NoDup [1; 1] /\ Forall (fun a => a < nQP three_var_solver) [1; 1])
  /\ getSubmatrix three_var_solver [1; 1] = Fail (Bad_LP 1 1).
Proof.
  assert (Hp : Forall (fun a => 0 <= a) [1; 1]) by (repeat constructor; discriminate).
  assert (Hl : (2 <= length [1; 1])%nat) by (cbn; lia).
  split; [split; [exact three_var_well_formed|split; [exact Hl|exact Hp]]|].
  split; [|reflexivity].
  exact (getSubmatrix_returns_iff three_var_solver [1; 1] three_var_well_formed Hl Hp).
Defined.

(** The matrix of [getSubmatrix(rows)] is the matrix of [getMatrix()]
    restricted to the rows and columns [rows]. *)
Theorem getSubmatrix_selects (s : LPSolver) (rows : list Z) (M F : matrix) :
  getMatrix s = Ret F -> getSubmatrix s rows = Ret M ->
  Forall (fun a => 0 <= a < nQP s) rows ->
  forall i j, (i < length rows)%nat -> (j < length rows)%nat ->
    mat_at M i j = mat_at F (Z.to_nat (nth i rows 0)) (Z.to_nat (nth j rows 0)).
Proof.
  intros HF HM Hr i j Hi Hj. unfold getMatrix, getSubmatrix in *.
  destruct (unit_symmetric_Ret _ _ _ HF) as [_ ->].
  destruct (unit_symmetric_Ret _ _ _ HM) as [_ ->].
  rewrite Forall_forall in Hr.
  pose proof (Hr _ (nth_In rows 0 Hi)) as Ha. pose proof (Hr _ (nth_In rows 0 Hj)) as Hb.
  rewrite entries_at by assumption.
  rewrite entries_at by (rewrite length_range; lia).
  rewrite !nth_range by lia. f_equal; lia.
Qed.

Lemma getSubmatrix_selects_witness :
  (getMatrix three_var_solver = Ret [[1; 1; -1]; [1; 1; -1]; [-1; -1; 1]]%Q
   /\ getSubmatrix three_var_solver [2; 0] = Ret [[1; -1]; [-1; 1]]%Q
   /\ Forall (fun a => 0 <= a < nQP three_var_solver) [2; 0])
  /\ forall i j, (i < length [2; 0])%nat -> (j < length [2; 0])%nat ->
       mat_at [[1; -1]; [-1; 1]]%Q i j
       = mat_at [[1; 1; -1]; [1; 1; -1]; [-1; -1; 1]]%Q
                (Z.to_nat (nth i [2; 0] 0)) (Z.to_nat (nth j [2; 0] 0)).
Proof.
  assert (HF : getMatrix three_var_solver = Ret [[1; 1; -1]; [1; 1; -1]; [-1; -1; 1]]%Q)
    by reflexivity.
  assert (HM : getSubmatrix three_var_solver [2; 0] = Ret [[1; -1]; [-1; 1]]%Q) by reflexivity.
  assert (Hr : Forall (fun a => 0 <= a < nQP three_var_solver) [2; 0]).
  { apply Forall_cons; [split; [discriminate|reflexivity]|].
    apply Forall_cons; [split; [discriminate|reflexivity]|apply Forall_nil]. }
  split; [split; [exact HF|split; [exact HM|exact Hr]]|].
  exact (getSubmatrix_selects three_var_solver [2; 0] _ _ HF HM Hr).
Defined.

(** ** The core, whatever the eigenvalues *)

Lemma shrink_incl (eigenvalues : matrix -> list Q) (s : LPSolver) (k : nat) :
  forall core F, shrink eigenvalues s k core = Ret F ->
  incl F core /\ (NoDup core -> NoDup F).
Proof.
  induction k as [|k IH]; intros core F H; cbn [shrink] in H.
  - injection H as <-. split; [apply incl_refl|trivial].
  - destruct core as [|r rest]; [discriminate|].
    destruct (getSubmatrix s rest) as [M|]; cbn [bind] in H; [|discriminate].
    destruct (isPSD (eigenvalues M)).
    + destruct (IH _ _ H) as [Hi Hn]. split.
      * intros a Ha. apply Hi in Ha. apply in_app_iff in Ha.
        destruct Ha as [Ha|[<-|[]]]; [now right|now left].
      * intros ND. apply Hn.
        apply (Permutation_NoDup (l := r :: rest)); [apply Permutation_cons_append|exact ND].
    + destruct (IH _ _ H) as [Hi Hn]. split.
      * intros a Ha. right. now apply Hi.
      * intros ND. apply Hn. now inversion ND.
Qed.

(** Whatever eigenvalues Eigen reports, the core returned by [nonPSDcore()]
    lists variables of the shuffled order, none of them twice, and
    [getSubmatrix] returns on it: the call [getSubmatrix(core)] that
    [solve()] makes next does not throw. *)
Theorem nonPSDcore_subset (eigenvalues : matrix -> list Q) (s : LPSolver)
        (order core : list Z) :
  nonPSDcore eigenvalues s order = Ret core ->
  NoDup core /\ incl core order /\ exists M, getSubmatrix s core = Ret M.
Proof.
  intros H. unfold nonPSDcore in H.
  destruct (grow eigenvalues s [] (rev order)) as [[c|]|] eqn:EG; cbn [bind] in H;
    [| |discriminate].
  - destruct (grow_Some _ _ _ _ _ EG) as (Hi & _ & M & EM & _). cbn [app] in Hi.
    unfold getSubmatrix in EM. destruct (unit_symmetric_Ret _ _ _ EM) as [Hb _].
    destruct (shrink_incl _ _ _ _ _ H) as [HF HN].
    assert (ND : NoDup core) by (apply HN; apply Hb).
    split; [exact ND|]. split.
    + intros a Ha. apply in_rev. apply Hi. now apply HF.
    + exists (entries s core). unfold getSubmatrix. apply buildable_unit_symmetric.
      now apply (buildable_incl s c).
  - injection H as <-. split; [constructor|]. split; [intros a []|].
    exists []. reflexivity.
Qed.

Lemma nonPSDcore_subset_witness :
  nonPSDcore small_eigenvalues two_var_solver [0; 1] = Ret [1; 0]
  /\ NoDup [1; 0] /\ incl [1; 0] [0; 1]
  /\ exists M, getSubmatrix two_var_solver [1; 0] = Ret M.
Proof.
  destruct two_var_run as [_ Hr]. split; [exact Hr|].
  exact (nonPSDcore_subset small_eigenvalues two_var_solver [0; 1] [1; 0] Hr).
Defined.

(** ** The columns the constructor builds *)

Lemma range_cons (lo hi : Z) : lo < hi -> range lo hi = lo :: range (lo + 1) hi.
Proof.
  intros H. unfold range.
  replace (Z.to_nat (hi - lo)) with (S (Z.to_nat (hi - (lo + 1)))) by lia.
  cbn [seq map]. rewrite <- seq_shift, map_map. f_equal; [lia|].
  apply map_ext. intros k. lia.
Qed.

Lemma range_empty (lo hi : Z) : hi <= lo -> range lo hi = [].
Proof. intros H. unfold range. replace (Z.to_nat (hi - lo)) with O by lia. reflexivity. Qed.

Lemma list_set_middle {A : Type} (pre post : list A) (a b : A) :
  list_set (pre ++ a :: post) (length pre) b = pre ++ b :: post.
Proof. induction pre as [|x pre IH]; cbn [app length list_set]; [reflexivity|now rewrite IH]. Qed.

Lemma glp_set_item_middle {A : Type} (pre post : list A) (a b : A) :
  glp_set_item (pre ++ a :: post) (1 + Z.of_nat (length pre)) b = Ret (pre ++ b :: post).
Proof.
  unfold glp_set_item. rewrite length_app. cbn [length].
  replace ((1 <=? 1 + Z.of_nat (length pre))
           && (1 + Z.of_nat (length pre) <=? Z.of_nat (length pre + S (length post)))) with true
    by (symmetry; apply andb_true_iff; split; apply Z.leb_le; lia).
  replace (Z.to_nat (1 + Z.of_nat (length pre) - 1)) with (length pre) by lia.
  now rewrite list_set_middle.
Qed.

(** The loop of the constructor over the columns, [done] of them already
    set. *)
Lemma column_loop (p : Problem) (s0 : LPSolver) (g : Z -> Q) (k : nat) :
  forall done : list lp_col,
  (forall i, Z.of_nat (length done) < i <= Z.of_nat (length done) + Z.of_nat k ->
     exists xy, getQPVars s0 i = Ret xy /\ coeffs p (snd xy) (fst xy) = g i) ->
  foldM (fun l i =>
           l1 <- glp_set_col_bnds l i (-1) 1 ;;
           xy <- getQPVars s0 i ;;
           glp_set_obj_coef l1 i (coeffs p (snd xy) (fst xy)))
        (range (1 + Z.of_nat (length done)) (1 + Z.of_nat (length done) + Z.of_nat k))
        {| lp_cols := done ++ repeat new_col k; lp_rows := []; lp_status := GLP_UNDEF |}
  = Ret {| lp_cols := done
                      ++ map (fun i => {| col_lb := -1; col_ub := 1; obj_coef := g i;
                                          col_prim := 0 |})
                             (range (1 + Z.of_nat (length done))
                                    (1 + Z.of_nat (length done) + Z.of_nat k));
           lp_rows := []; lp_status := GLP_UNDEF |}.
Proof.
  induction k as [|k IH]; intros done Hg.
  - rewrite range_empty by lia. reflexivity.
  - rewrite range_cons by lia. cbn [foldM map repeat].
    unfold glp_set_col_bnds. cbn [lp_cols lp_rows lp_status].
    rewrite glp_item_middle. cbn [bind]. rewrite glp_set_item_middle. cbn [bind].
    destruct (Hg (1 + Z.of_nat (length done))) as (xy & Exy & Eg); [lia|].
    rewrite Exy. cbn [bind]. unfold glp_set_obj_coef. cbn [lp_cols lp_rows lp_status].
    rewrite glp_item_middle. cbn [bind]. rewrite glp_set_item_middle. cbn [bind].
    cbn [col_lb col_ub col_prim new_col]. rewrite Eg.
    set (c := {| col_lb := -1; col_ub := 1; obj_coef := g (1 + Z.of_nat (length done));
                 col_prim := 0 |}).
    specialize (IH (done ++ [c])).
    rewrite length_app in IH. cbn [length] in IH.
    replace (1 + Z.of_nat (length done + 1)) with (1 + Z.of_nat (length done) + 1) in IH by lia.
    replace (1 + Z.of_nat (length done) + 1 + Z.of_nat k)
      with (1 + Z.of_nat (length done) + Z.of_nat (S k)) in IH by lia.
    rewrite <- !app_assoc in IH. cbn [app] in IH. apply IH.
    intros i Hi. apply Hg. lia.
Qed.

Lemma column_coeff_packed (s : LPSolver) (x y : Z) :
  sized s -> nQP s <= 65536 -> 0 <= y < x -> x < nQP s ->
  column_coeff s (1 + y + x * (x - 1) / 2) = coeffs (problem s) y x.
Proof.
  intros Hs Hn Hy Hx. unfold column_coeff. now rewrite getQPVars_packed.
Qed.

(** What the constructor returns, field by field. *)
Lemma new_LPSolver_inv (p : Problem) (s : LPSolver) :
  2 <= p_nQP p <= 65536 -> new_LPSolver p = Ret s ->
  let n := p_nQP p in
  let m := n * (n - 1) / 2 in
  problem s = p /\ nQP s = n /\ nLP s = m
  /\ bestSol s = repeat 1%Q (Z.to_nat n)
  /\ lowerBound s = score p (repeat 1%Q (Z.to_nat n))
  /\ upperBound s = initial_upperBound p n
  /\ currSol s = repeat 0%Q (Z.to_nat m)
  /\ lp s = {| lp_cols := map (built_col s) (range 1 (1 + m));
               lp_rows := []; lp_status := GLP_UNDEF |}.
Proof.
  intros Hn H. cbv zeta. unfold new_LPSolver in H. cbv zeta in H.
  assert (Em : u32 (p_nQP p * u32 (p_nQP p - 1)) / 2 = p_nQP p * (p_nQP p - 1) / 2).
  { rewrite (u32_small (p_nQP p - 1)) by lia. rewrite u32_small by nia. reflexivity. }
  rewrite Em in H.
  pose proof (triangle_even (p_nQP p)) as T.
  set (m := p_nQP p * (p_nQP p - 1) / 2) in *.
  assert (Hm : 1 <= m) by nia.
  unfold glp_add_cols in H.
  replace (m <? 1) with false in H by (symmetry; apply Z.ltb_ge; lia).
  cbn [bind lp_cols lp_rows lp_status glp_create_prob app lp] in H.
  set (s0 := {| problem := p; nQP := p_nQP p; nLP := m;
                bestSol := repeat 1%Q (Z.to_nat (p_nQP p));
                lowerBound := score p (repeat 1%Q (Z.to_nat (p_nQP p)));
                upperBound := initial_upperBound p (p_nQP p);
                lp := {| lp_cols := repeat new_col (Z.to_nat m); lp_rows := [];
                         lp_status := GLP_UNDEF |};
                currSol := repeat 0%Q (Z.to_nat m); active_clauses := [] |}) in *.
  assert (Hs0 : sized s0).
  { split; cbn [nQP nLP s0]; [lia|].
    rewrite (u32_small (p_nQP p - 1)) by lia. rewrite u32_small by nia. reflexivity. }
  pose proof (column_loop p s0 (column_coeff s0) (Z.to_nat m) []) as L.
  cbn [length app] in L.
  replace (1 + Z.of_nat 0 + Z.of_nat (Z.to_nat m)) with (m + 1) in L by lia.
  change (1 + Z.of_nat 0) with 1 in L.
  rewrite L in H.
  - cbn [bind] in H. injection H as <-. cbn [set_lp problem nQP nLP bestSol lowerBound
      upperBound currSol lp s0].
    repeat (split; [reflexivity|]).
    replace (1 + m) with (m + 1) by lia. reflexivity.
  - intros i Hi.
    destruct (getQPVars_onto s0 i Hs0) as (x & y & E & _); [cbn; lia|cbn [nLP s0]; lia|].
    exists (x, y). split; [exact E|]. unfold column_coeff. rewrite E. reflexivity.
Qed.

Lemma glp_item_map_range {A : Type} (f : Z -> A) (m v : Z) :
  1 <= v <= m -> glp_item (map f (range 1 (1 + m))) v = Ret (f v).
Proof.
  intros H. unfold glp_item.
  replace (v <? 1) with false by (symmetry; apply Z.ltb_ge; lia).
  rewrite nth_error_map. unfold range. rewrite nth_error_map.
  rewrite nth_error_seq.
  replace (Z.to_nat (v - 1) <? Z.to_nat (1 + m - 1))%nat with true
    by (symmetry; apply Nat.ltb_lt; lia).
  cbn [option_map]. f_equal. f_equal. lia.
Qed.

(** After the constructor the solver is well formed, the LP has no rows
    and one column per pair of variables, each column bounded to [-1, 1]
    with value 0, and the column of the pair [y < x] has the objective
    coefficient [coeffs(y, x)]. *)
Theorem constructor_columns (p : Problem) (s : LPSolver) :
  2 <= p_nQP p <= 65536 -> new_LPSolver p = Ret s ->
  well_formed s
  /\ lp_rows (lp s) = []
  /\ Z.of_nat (length (lp_cols (lp s))) = nLP s
  /\ Forall (fun c => col_lb c = (-1)%Q /\ col_ub c = 1%Q /\ col_prim c = 0%Q) (lp_cols (lp s))
  /\ forall x y, 0 <= y < x -> x < p_nQP p ->
       exists v c, getLPVar s x y = Ret v /\ glp_item (lp_cols (lp s)) v = Ret c
                   /\ obj_coef c = coeffs p y x.
Proof.
  intros Hn H. destruct (new_LPSolver_inv p s Hn H) as (Ep & En & Em & Eb & _ & _ & Ec & El).
  pose proof (triangle_even (p_nQP p)) as T.
  set (m := p_nQP p * (p_nQP p - 1) / 2) in *.
  assert (Hs : sized s).
  { split; rewrite ?En, ?Em; [lia|].
    rewrite (u32_small (p_nQP p - 1)) by lia. rewrite u32_small by nia. reflexivity. }
  assert (Hm : 1 <= m) by nia.
  split; [|split; [|split; [|split]]].
  - split; [exact Hs|]. split; [lia|]. rewrite Ec, Eb, !repeat_length, Em, En. split; reflexivity.
  - now rewrite El.
  - rewrite El. cbn [lp_cols]. rewrite length_map, length_range. lia.
  - rewrite El. cbn [lp_cols]. apply Forall_forall. intros c Hc.
    apply in_map_iff in Hc. destruct Hc as (v & <- & _). repeat split.
  - intros x y Hy Hx. exists (1 + y + x * (x - 1) / 2), (built_col s (1 + y + x * (x - 1) / 2)).
    split; [apply getLPVar_packed; lia|]. split.
    + rewrite El. cbn [lp_cols]. apply glp_item_map_range.
      pose proof (triangle_even x) as Tx. fold m. nia.
    + cbn [built_col obj_coef]. rewrite column_coeff_packed by (trivial; lia).
      now rewrite Ep.
Qed.

Lemma constructor_columns_witness :
  let p := uniform_problem 3 1 in
  exists s,
    (2 <= p_nQP p <= 65536 /\ new_LPSolver p = Ret s)
    /\ well_formed s
    /\ lp_rows (lp s) = []
    /\ Z.of_nat (length (lp_cols (lp s))) = nLP s
    /\ Forall (fun c => col_lb c = (-1)%Q /\ col_ub c = 1%Q /\ col_prim c = 0%Q)
              (lp_cols (lp s))
    /\ forall x y, 0 <= y < x -> x < p_nQP p ->
         exists v c, getLPVar s x y = Ret v /\ glp_item (lp_cols (lp s)) v = Ret c
                     /\ obj_coef c = coeffs p y x.
Proof.
  cbv zeta.
  assert (Hn : 2 <= p_nQP (uniform_problem 3 1) <= 65536) by (split; discriminate).
  destruct (new_LPSolver_returns (uniform_problem 3 1) Hn) as [s Hs]. exists s.
  split; [split; [exact Hn|exact Hs]|].
  exact (constructor_columns (uniform_problem 3 1) s Hn Hs).
Defined.

(** ** The score of the relaxation point *)

Lemma nth_error_In_Forall {A : Type} (P : A -> Prop) (l : list A) (k : nat) (a : A) :
  Forall P l -> nth_error l k = Some a -> P a.
Proof. intros H E. rewrite Forall_forall in H. apply H. now apply (nth_error_In l k). Qed.

Lemma entry_in_box (s : LPSolver) (a b : Z) :
  Forall (fun x => (-1 <= x <= 1)%Q) (currSol s) -> (-1 <= entry s a b <= 1)%Q.
Proof.
  intros H. unfold entry. destruct (a =? b); [split; discriminate|].
  unfold pair_value. destruct (getLPVar s a b) as [v|]; cbn [bind]; [|split; discriminate].
  unfold vec_at. destruct (u32 (v - 1) <? 0); [split; discriminate|].
  destruct (nth_error (currSol s) (Z.to_nat (u32 (v - 1)))) as [q|] eqn:E;
    [|split; discriminate].
  exact (nth_error_In_Forall _ _ _ _ H E).
Qed.

Lemma box_term_le (x c : Q) : (-1 <= x <= 1)%Q -> (x * c <= Qabs c)%Q.
Proof.
  intros [Hlo Hhi]. pose proof (Qle_Qabs c) as P. pose proof (Qle_Qabs (- c)) as N.
  rewrite Qabs_opp in N. pose proof (Qabs_nonneg c) as Z0.
  destruct (Qlt_le_dec c 0) as [C|C]; nra.
Qed.

(** The rounded product of a value of the box with a coefficient that is a
    [double] is at most the absolute value of the coefficient. *)
Lemma rounded_term_le (x c : Q) :
  (-1 <= x <= 1)%Q -> (fl64 c == c)%Q -> (fl64 (x * c) <= Qabs c)%Q.
Proof.
  intros Hx Hc. apply Qle_trans with (fl64 (Qabs c)).
  - apply fl64_mono. now apply box_term_le.
  - destruct (Qlt_le_dec c 0) as [N|P].
    + rewrite (fl64_comp (Qabs c) (- c)) by (apply Qabs_neg; lra).
      rewrite fl64_opp, Hc. rewrite Qabs_neg by lra. apply Qle_refl.
    + rewrite (fl64_comp (Qabs c) c) by (now apply Qabs_pos).
      rewrite Hc. rewrite Qabs_pos by exact P. apply Qle_refl.
Qed.

(** The loop of [scoreRelaxation()] against the loop of the constructor:
    the two add in the same order, and rounding keeps the order. *)
Lemma score_loop_le {A : Type} (f : A -> outcome Q) (c g : A -> Q) (l : list A) :
  (forall j, In j l -> f j = Ret (g j) /\ (-1 <= g j <= 1)%Q /\ (fl64 (c j) == c j)%Q) ->
  forall a b, (a <= b)%Q -> exists q,
    foldM (fun sc j => x <- f j ;; Ret (fl32 (fl64 (sc + fl64 (x * c j))))) l a = Ret q
    /\ (q <= fold_left (fun ub j => fl32 (fl64 (ub + Qabs (c j)))) l b)%Q.
Proof.
  induction l as [|j l IH]; intros H a b Hab; cbn [foldM fold_left].
  - exists a. split; [reflexivity|exact Hab].
  - destruct (H j (or_introl eq_refl)) as (Ej & Bj & Cj). rewrite Ej. cbn [bind].
    apply (IH (fun k Hk => H k (or_intror Hk))).
    apply fl32_mono, fl64_mono. pose proof (rounded_term_le _ _ Bj Cj). lra.
Qed.

Lemma score_loops_le {A B : Type} (f : A -> B -> outcome Q) (c g : A -> B -> Q)
      (inner : A -> list B) (l : list A) :
  (forall i j, In i l -> In j (inner i) ->
     f i j = Ret (g i j) /\ (-1 <= g i j <= 1)%Q /\ (fl64 (c i j) == c i j)%Q) ->
  forall a b, (a <= b)%Q -> exists q,
    foldM (fun sc i =>
             foldM (fun sc j => x <- f i j ;; Ret (fl32 (fl64 (sc + fl64 (x * c i j)))))
                   (inner i) sc) l a = Ret q
    /\ (q <= fold_left (fun ub i =>
                          fold_left (fun ub j => fl32 (fl64 (ub + Qabs (c i j))))
                                    (inner i) ub) l b)%Q.
Proof.
  induction l as [|i l IH]; intros H a b Hab; cbn [foldM fold_left].
  - exists a. split; [reflexivity|exact Hab].
  - destruct (score_loop_le (f i) (c i) (g i) (inner i)
                (fun j Hj => H i j (or_introl eq_refl) Hj) a b Hab) as (q1 & E1 & H1).
    rewrite E1. cbn [bind].
    apply (IH (fun k j Hk => H k j (or_intror Hk))). exact H1.
Qed.

(** At a relaxation point inside the box [-1, 1], for coefficients that
    are [double]s, [scoreRelaxation()] as its [float] loop computes it is
    at most the bound the [float] loop of the constructor computes: the
    first [std::min] in [solve()] cannot do worse than that bound. *)
Theorem relaxation_score_bounded (s : LPSolver) :
  well_formed s -> Forall (fun x => (-1 <= x <= 1)%Q) (currSol s) ->
  (forall i j, (fl64 (coeffs (problem s) i j) == coeffs (problem s) i j)%Q) ->
  exists q, scoreRelaxation s = Ret q
            /\ (q <= initial_upperBound (problem s) (nQP s))%Q.
Proof.
  intros Hw Hbox Hc. unfold scoreRelaxation, initial_upperBound.
  apply (score_loops_le (pair_value s) (coeffs (problem s)) (entry s)); [|apply Qle_refl].
  intros i j Hi Hj. apply In_range in Hi. apply In_range in Hj.
  destruct (pair_value_defined s i j Hw) as [q Hq]; try lia.
  split; [|split].
  - rewrite Hq. f_equal. symmetry. now apply entry_value.
  - now apply entry_in_box.
  - apply Hc.
Qed.

Lemma relaxation_score_bounded_witness :
  (well_formed tenth_solver
   /\ Forall (fun x => (-1 <= x <= 1)%Q) (currSol tenth_solver)
   /\ forall i j, (fl64 (coeffs (problem tenth_solver) i j)
                   == coeffs (problem tenth_solver) i j)%Q)
  /\ exists q, scoreRelaxation tenth_solver = Ret q
               /\ (q <= initial_upperBound (problem tenth_solver) (nQP tenth_solver))%Q.
Proof.
  assert (Hw : well_formed tenth_solver).
  { unfold well_formed, sized. cbn.
    split; [split; [split; [discriminate|reflexivity]|reflexivity]|].
    split; [split; discriminate|]. split; reflexivity. }
  assert (Hb : Forall (fun x => (-1 <= x <= 1)%Q) (currSol tenth_solver)).
  { apply Forall_cons; [split; discriminate|].
    apply Forall_cons; [split; discriminate|].
    apply Forall_cons; [split; discriminate|apply Forall_nil]. }
  assert (Hc : forall i j, (fl64 (coeffs (problem tenth_solver) i j)
                            == coeffs (problem tenth_solver) i j)%Q).
  { intros i j. vm_compute. reflexivity. }
  split; [split; [exact Hw|split; [exact Hb|exact Hc]]|].
  exact (relaxation_score_bounded tenth_solver Hw Hb Hc).
Defined.

(** ** Where the [float] sums are exact *)

Lemma fl32_comp (x y : Q) : (x == y)%Q -> fl32 x = fl32 y.
Proof. apply RoundingFacts.round_comp. Qed.

Lemma is_integer_comp (x y : Q) : (x == y)%Q -> is_integer x -> is_integer y.
Proof. intros E [z Hz]. exists z. now rewrite <- E. Qed.

Lemma is_integer_plus (x y : Q) : is_integer x -> is_integer y -> is_integer (x + y).
Proof. intros [a Ha] [b Hb]. exists (a + b). now rewrite Ha, Hb, inject_Z_plus. Qed.

Lemma is_integer_abs (x : Q) : is_integer x -> is_integer (Qabs x).
Proof.
  intros [a Ha]. exists (Z.abs a). rewrite Ha. unfold Qabs, inject_Z. reflexivity.
Qed.

(** An integer below 2^24 in absolute value goes through a [double]
    operation and a [float] store unchanged. *)
Lemma float_integer_exact (q : Q) :
  is_integer q -> (Qabs q < 16777216)%Q -> (fl64 q == q)%Q /\ (fl32 (fl64 q) == q)%Q.
Proof.
  intros [z Hz] Hb.
  assert (Hz' : Z.abs z < 2 ^ 24).
  { rewrite Hz in Hb. change (Qabs (inject_Z z)) with (inject_Z (Z.abs z)) in Hb.
    change 16777216%Q with (inject_Z (2 ^ 24)) in Hb. now rewrite <- Zlt_Qlt in Hb. }
  assert (E64 : (fl64 q == q)%Q).
  { rewrite (fl64_comp _ _ Hz), Hz. apply fl64_integer. lia. }
  split; [exact E64|].
  rewrite (fl32_comp _ _ E64), (fl32_comp _ _ Hz), Hz. now apply fl32_integer.
Qed.

Lemma sumQ_nonneg {A : Type} (f : A -> Q) (l : list A) :
  (forall x, In x l -> (0 <= f x)%Q) -> (0 <= sumQ (map f l))%Q.
Proof.
  induction l as [|x l IH]; intros H; cbn [map sumQ]; [apply Qle_refl|].
  pose proof (H x (or_introl eq_refl)). pose proof (IH (fun y Hy => H y (or_intror Hy))). lra.
Qed.

Lemma sumQ_member {A : Type} (f : A -> Q) (l : list A) (a : A) :
  (forall x, In x l -> (0 <= f x)%Q) -> In a l -> (f a <= sumQ (map f l))%Q.
Proof.
  induction l as [|x l IH]; intros H Ha; [destruct Ha|]. cbn [map sumQ].
  pose proof (H x (or_introl eq_refl)) as Hx.
  pose proof (sumQ_nonneg f l (fun y Hy => H y (or_intror Hy))) as P.
  destruct Ha as [<-|Ha]; [lra|].
  pose proof (IH (fun y Hy => H y (or_intror Hy)) Ha). lra.
Qed.

Lemma Qabs_sumQ_le {A : Type} (f : A -> Q) (l : list A) :
  (Qabs (sumQ (map f l)) <= sumQ (map (fun x => Qabs (f x)) l))%Q.
Proof.
  induction l as [|x l IH]; cbn [map sumQ]; [discriminate|].
  eapply Qle_trans; [apply Qabs_triangle|]. lra.
Qed.

(** A [float] accumulation of integers whose absolute values add up to
    less than 2^24 is the exact sum. *)
Lemma float_sum_exact {A : Type} (t : A -> Q) (l : list A) :
  forall a, is_integer a -> (forall j, In j l -> is_integer (t j)) ->
  (Qabs a + sumQ (map (fun j => Qabs (t j)) l) < 16777216)%Q ->
  (fold_left (fun acc j => fl32 (fl64 (acc + t j))) l a == a + sumQ (map t l))%Q
  /\ is_integer (fold_left (fun acc j => fl32 (fl64 (acc + t j))) l a).
Proof.
  induction l as [|j l IH]; intros a Ia It Hb; cbn [fold_left map sumQ] in *.
  - split; [ring|exact Ia].
  - pose proof (sumQ_nonneg (fun j => Qabs (t j)) l (fun x _ => Qabs_nonneg (t x))) as P.
    pose proof (Qabs_triangle a (t j)) as T.
    assert (I1 : is_integer (a + t j))
      by (apply is_integer_plus; [exact Ia|apply It; now left]).
    destruct (float_integer_exact (a + t j) I1) as [_ E]; [lra|].
    destruct (IH (fl32 (fl64 (a + t j)))) as [R1 R2].
    + apply (is_integer_comp (a + t j)); [symmetry; exact E|exact I1].
    + intros k Hk. apply It. now right.
    + rewrite (Qabs_wd _ _ E). lra.
    + split; [|exact R2]. rewrite R1, E. ring.
Qed.

Lemma float_sums_exact {A B : Type} (t : A -> B -> Q) (inner : A -> list B) (l : list A) :
  forall a, is_integer a -> (forall i j, In i l -> In j (inner i) -> is_integer (t i j)) ->
  (Qabs a + sumQ (map (fun i => sumQ (map (fun j => Qabs (t i j)) (inner i))) l)
   < 16777216)%Q ->
  (fold_left (fun acc i => fold_left (fun acc j => fl32 (fl64 (acc + t i j))) (inner i) acc)
             l a
   == a + sumQ (map (fun i => sumQ (map (t i) (inner i))) l))%Q
  /\ is_integer
       (fold_left (fun acc i => fold_left (fun acc j => fl32 (fl64 (acc + t i j))) (inner i) acc)
                  l a).
Proof.
  induction l as [|i l IH]; intros a Ia It Hb; cbn [fold_left map sumQ] in *.
  - split; [ring|exact Ia].
  - pose proof (sumQ_nonneg (fun i => sumQ (map (fun j => Qabs (t i j)) (inner i))) l
                  (fun x _ => sumQ_nonneg _ _ (fun y _ => Qabs_nonneg (t x y)))) as P.
    pose proof (Qabs_sumQ_le (t i) (inner i)) as T.
    pose proof (Qabs_triangle a (sumQ (map (t i) (inner i)))) as T'.
    destruct (float_sum_exact (t i) (inner i) a Ia
                (fun j Hj => It i j (or_introl eq_refl) Hj)) as [E I1]; [lra|].
    set (a1 := fold_left (fun acc j => fl32 (fl64 (acc + t i j))) (inner i) a) in *.
    destruct (IH a1 I1 (fun k j Hk => It k j (or_intror Hk))) as [R1 R2].
    + rewrite (Qabs_wd _ _ E). lra.
    + split; [|exact R2]. rewrite R1, E. ring.
Qed.

(** A loop that reads its values without failing is a fold. *)
Lemma foldM_fold {A S V : Type} (f : A -> outcome V) (g : A -> V) (F : S -> V -> A -> S)
      (l : list A) :
  (forall j, In j l -> f j = Ret (g j)) ->
  forall a, foldM (fun sc j => x <- f j ;; Ret (F sc x j)) l a
            = Ret (fold_left (fun sc j => F sc (g j) j) l a).
Proof.
  induction l as [|j l IH]; intros H a; cbn [foldM fold_left]; [reflexivity|].
  rewrite (H j (or_introl eq_refl)). cbn [bind]. apply IH. intros k Hk. apply H. now right.
Qed.

Lemma foldM_fold_nested {A B S V : Type} (f : A -> B -> outcome V) (g : A -> B -> V)
      (F : S -> V -> A -> B -> S) (inner : A -> list B) (l : list A) :
  (forall i j, In i l -> In j (inner i) -> f i j = Ret (g i j)) ->
  forall a, foldM (fun sc i => foldM (fun sc j => x <- f i j ;; Ret (F sc x i j)) (inner i) sc)
                  l a
            = Ret (fold_left (fun sc i => fold_left (fun sc j => F sc (g i j) i j) (inner i) sc)
                             l a).
Proof.
  induction l as [|i l IH]; intros H a; cbn [foldM fold_left]; [reflexivity|].
  rewrite (foldM_fold (f i) (g i) (fun sc x j => F sc x i j) (inner i))
    by (intros j Hj; apply H; [now left|exact Hj]).
  cbn [bind]. apply IH. intros k j Hk. apply H. now right.
Qed.

(** The bound of the constructor on a problem of small integers. *)
Lemma initial_upperBound_exact (p : Problem) :
  small_integers p ->
  (initial_upperBound p (p_nQP p) == constantTerm p + abs_coeffs_sum p)%Q.
Proof.
  intros (I0 & Ic & Hb). unfold initial_upperBound, abs_coeffs_sum in *.
  pose proof (sumQ_nonneg (fun i => sumQ (map (fun j => Qabs (coeffs p i j))
                                              (range (i + 1) (p_nQP p))))
                (range 0 (p_nQP p))
                (fun x _ => sumQ_nonneg _ _ (fun y _ => Qabs_nonneg (coeffs p x y)))) as P.
  assert (E0 : (fl32 (constantTerm p) == constantTerm p)%Q).
  { destruct (float_integer_exact (constantTerm p) I0) as [E64 E32]; [lra|].
    rewrite <- (fl32_comp _ _ E64). exact E32. }
  destruct (float_sums_exact (fun i j => Qabs (coeffs p i j))
              (fun i => range (i + 1) (p_nQP p)) (range 0 (p_nQP p))
              (fl32 (constantTerm p))) as [E _].
  - apply (is_integer_comp (constantTerm p)); [symmetry; exact E0|exact I0].
  - intros i j _ _. apply is_integer_abs, Ic.
  - rewrite (Qabs_wd _ _ E0).
    rewrite (sumQ_ext _ (fun i => sumQ (map (fun j => Qabs (coeffs p i j))
                                            (range (i + 1) (p_nQP p)))));
      [exact Hb|].
    intros i _. apply sumQ_ext. intros j _.
    apply Qabs_pos, Qabs_nonneg.
  - rewrite E, E0. reflexivity.
Qed.

Lemma ones_sign_vector (n : Z) : sign_vector n (repeat 1%Q (Z.to_nat n)).
Proof.
  split; [apply repeat_length|]. apply Forall_forall. intros x Hx.
  apply repeat_spec in Hx. subst. left. reflexivity.
Qed.

(** On a problem of small integers the [float] loop of the constructor
    adds without rounding: [upperBound] is [constantTerm] plus the sum of
    the absolute values of the coefficients, it is at least the score of
    every sign vector, and the two bounds of the constructor are in order:
    the score of the all-ones assignment, taken as lower bound, is at most
    the upper bound. *)
Theorem constructor_bounds_ordered (p : Problem) (s : LPSolver) :
  small_integers p -> new_LPSolver p = Ret s ->
  lowerBound s = score p (repeat 1%Q (Z.to_nat (p_nQP p)))
  /\ (upperBound s == constantTerm p + abs_coeffs_sum p)%Q
  /\ (lowerBound s <= upperBound s)%Q
  /\ forall sv, sign_vector (p_nQP p) sv -> (score p sv <= upperBound s)%Q.
Proof.
  intros Hp Hnew.
  assert (E : lowerBound s = score p (repeat 1%Q (Z.to_nat (p_nQP p)))
              /\ upperBound s = initial_upperBound p (p_nQP p)).
  { unfold new_LPSolver in Hnew. cbv zeta in Hnew.
    match type of Hnew with bind ?m _ = _ => destruct m end; cbn [bind] in Hnew;
      [|discriminate].
    match type of Hnew with bind ?m _ = _ => destruct m end; cbn [bind] in Hnew;
      [|discriminate].
    injection Hnew as <-. split; reflexivity. }
  destruct E as [El Eu]. rewrite El, Eu.
  pose proof (initial_upperBound_exact p Hp) as X.
  split; [reflexivity|]. split; [exact X|].
  split; [|intros sv Hsv]; rewrite X; apply score_le_exact_sum;
    [apply ones_sign_vector|exact Hsv].
Qed.

Lemma constructor_bounds_ordered_witness :
  let p := uniform_problem 3 (-1) in
  exists s, (small_integers p /\ new_LPSolver p = Ret s)
            /\ lowerBound s = score p (repeat 1%Q (Z.to_nat (p_nQP p)))
            /\ (upperBound s == constantTerm p + abs_coeffs_sum p)%Q
            /\ (lowerBound s <= upperBound s)%Q
            /\ forall sv, sign_vector (p_nQP p) sv -> (score p sv <= upperBound s)%Q.
Proof.
  cbv zeta.
  assert (Hn : 2 <= p_nQP (uniform_problem 3 (-1)) <= 65536) by (split; discriminate).
  destruct (new_LPSolver_returns (uniform_problem 3 (-1)) Hn) as [s Hs]. exists s.
  assert (Hp : small_integers (uniform_problem 3 (-1))).
  { split; [exists 0; reflexivity|]. split; [intros i j; exists (-1); reflexivity|].
    vm_compute. reflexivity. }
  split; [split; [exact Hp|exact Hs]|].
  exact (constructor_bounds_ordered (uniform_problem 3 (-1)) s Hp Hs).
Defined.

(** On a problem of small integers, where every relaxation value is the
    product of the two coordinates of a sign vector [sv],
    [scoreRelaxation()] adds without rounding and returns the score of
    [sv]: the LP relaxes the quadratic problem. *)
Theorem relaxation_score_integral (s : LPSolver) (sv : list Q) :
  well_formed s -> nQP s = p_nQP (problem s) -> small_integers (problem s) ->
  sign_vector (nQP s) sv ->
  (forall i j, 0 <= i < j -> j < nQP s ->
     exists x, pair_value s i j = Ret x
               /\ (x == nth (Z.to_nat i) sv 0 * nth (Z.to_nat j) sv 0)%Q) ->
  exists q, scoreRelaxation s = Ret q /\ (q == score (problem s) sv)%Q.
Proof.
  intros Hw Hn (I0 & Ic & Hb) Hsv Hprod. unfold scoreRelaxation.
  set (p := problem s) in *.
  set (g := fun i j : Z => (nth (Z.to_nat i) sv 0 * nth (Z.to_nat j) sv 0)%Q).
  assert (Hg : forall i j, (g i j == 1 \/ g i j == -1 \/ g i j == 0)%Q).
  { intros i j. unfold g.
    destruct (sign_entry _ sv (Z.to_nat i) Hsv) as [A|[A|A]];
      destruct (sign_entry _ sv (Z.to_nat j) Hsv) as [B|[B|B]]; rewrite A, B;
      [left|right; left|right; right|right; left|left|right; right
       |right; right|right; right|right; right]; reflexivity. }
  assert (Hread : forall i j, In i (range 0 (nQP s)) -> In j (range (i + 1) (nQP s)) ->
            pair_value s i j = Ret (entry s i j) /\ (entry s i j == g i j)%Q).
  { intros i j Hi Hj. apply In_range in Hi. apply In_range in Hj.
    destruct (Hprod i j) as (x & Ex & Hx); [lia|lia|].
    rewrite (entry_value s i j x Ex). split; [exact Ex|exact Hx]. }
  rewrite (foldM_fold_nested (pair_value s) (entry s)
             (fun sc x i j => fl32 (fl64 (sc + fl64 (x * coeffs p i j))))
             (fun i => range (i + 1) (nQP s)) (range 0 (nQP s)))
    by (intros i j Hi Hj; apply Hread; assumption).
  eexists. split; [reflexivity|].
  set (t := fun i j : Z => fl64 (entry s i j * coeffs p i j)).
  assert (Ht : forall i j, In i (range 0 (nQP s)) -> In j (range (i + 1) (nQP s)) ->
            (t i j == g i j * coeffs p i j)%Q /\ is_integer (t i j)
            /\ (Qabs (t i j) <= Qabs (coeffs p i j))%Q).
  { intros i j Hi Hj. destruct (Hread i j Hi Hj) as [_ Ee].
    pose proof (sumQ_nonneg (fun i => sumQ (map (fun j => Qabs (coeffs p i j))
                                                (range (i + 1) (p_nQP p))))
                  (range 0 (p_nQP p))
                  (fun x _ => sumQ_nonneg _ _ (fun y _ => Qabs_nonneg (coeffs p x y)))) as P.
    unfold abs_coeffs_sum in Hb. fold p in Hb.
    assert (Hc : (Qabs (coeffs p i j) < 16777216)%Q).
    { pose proof (Qabs_nonneg (constantTerm p)) as P0.
      assert (L : (Qabs (coeffs p i j)
                   <= sumQ (map (fun i => sumQ (map (fun j => Qabs (coeffs p i j))
                                                    (range (i + 1) (p_nQP p))))
                                (range 0 (p_nQP p))))%Q).
      { rewrite <- Hn.
        apply Qle_trans with (sumQ (map (fun j => Qabs (coeffs p i j))
                                        (range (i + 1) (nQP s)))).
        - apply (sumQ_member (fun j => Qabs (coeffs p i j)) _ j);
            [intros; apply Qabs_nonneg|exact Hj].
        - apply (sumQ_member (fun i => sumQ (map (fun j => Qabs (coeffs p i j))
                                                 (range (i + 1) (nQP s)))) _ i);
            [|exact Hi].
          intros x _. apply sumQ_nonneg. intros; apply Qabs_nonneg. }
      lra. }
    assert (Ab : (Qabs (entry s i j * coeffs p i j) <= Qabs (coeffs p i j))%Q).
    { rewrite Qabs_Qmult, (Qabs_wd _ _ Ee).
      pose proof (Qabs_nonneg (coeffs p i j)).
      destruct (Hg i j) as [G|[G|G]]; rewrite (Qabs_wd _ _ G);
        [change (Qabs 1) with 1%Q|change (Qabs (-1)) with 1%Q|change (Qabs 0) with 0%Q]; lra. }
    assert (Ii : is_integer (entry s i j * coeffs p i j)).
    { destruct (Ic i j) as [z Hz].
      destruct (Hg i j) as [G|[G|G]]; [exists z|exists (- z)|exists 0];
        rewrite Ee, G, Hz, ?inject_Z_opp; ring. }
    destruct (float_integer_exact _ Ii) as [E64 _]; [lra|].
    unfold t. split; [rewrite E64, Ee; reflexivity|].
    split; [apply (is_integer_comp (entry s i j * coeffs p i j));
            [symmetry; exact E64|exact Ii]|].
    now rewrite (Qabs_wd _ _ E64). }
  assert (E0 : (fl32 (constantTerm p) == constantTerm p)%Q).
  { pose proof (sumQ_nonneg (fun i => sumQ (map (fun j => Qabs (coeffs p i j))
                                                (range (i + 1) (p_nQP p))))
                  (range 0 (p_nQP p))
                  (fun x _ => sumQ_nonneg _ _ (fun y _ => Qabs_nonneg (coeffs p x y)))) as P.
    unfold abs_coeffs_sum in Hb. fold p in Hb.
    destruct (float_integer_exact (constantTerm p) I0) as [E64 E32]; [lra|].
    rewrite <- (fl32_comp _ _ E64). exact E32. }
  destruct (float_sums_exact t (fun i => range (i + 1) (nQP s)) (range 0 (nQP s))
              (fl32 (constantTerm p))) as [E _].
  - apply (is_integer_comp (constantTerm p)); [symmetry; exact E0|exact I0].
  - intros i j Hi Hj. now apply Ht.
  - rewrite (Qabs_wd _ _ E0). unfold abs_coeffs_sum in Hb. fold p in Hb. rewrite <- Hn in Hb.
    eapply Qle_lt_trans; [|exact Hb].
    apply Qplus_le_compat; [apply Qle_refl|].
    apply sumQ_le. intros i Hi. apply sumQ_le. intros j Hj. now apply Ht.
  - unfold t in E. rewrite E, E0. unfold score. fold p. rewrite <- Hn.
    apply Qplus_comp; [reflexivity|].
    apply sumQ_ext. intros i Hi. apply sumQ_ext. intros j Hj.
    destruct (Ht i j Hi Hj) as [Et _]. unfold t in Et. rewrite Et. unfold g. ring.
Qed.

Lemma relaxation_score_integral_witness :
  (well_formed three_var_solver
   /\ nQP three_var_solver = p_nQP (problem three_var_solver)
   /\ small_integers (problem three_var_solver)
   /\ sign_vector (nQP three_var_solver) [1; 1; -1]%Q
   /\ forall i j, 0 <= i < j -> j < nQP three_var_solver ->
        exists x, pair_value three_var_solver i j = Ret x
                  /\ (x == nth (Z.to_nat i) [1; 1; -1] 0 * nth (Z.to_nat j) [1; 1; -1] 0)%Q)
  /\ exists q, scoreRelaxation three_var_solver = Ret q
               /\ (q == score (problem three_var_solver) [1; 1; -1])%Q.
Proof.
  assert (Hp : forall i j, 0 <= i < j -> j < nQP three_var_solver ->
             exists x, pair_value three_var_solver i j = Ret x
                       /\ (x == nth (Z.to_nat i) [1; 1; -1] 0
                                * nth (Z.to_nat j) [1; 1; -1] 0)%Q).
  { intros i j Hi Hj. change (nQP three_var_solver) with 3 in Hj.
    assert (C : (i = 0 /\ j = 1) \/ (i = 0 /\ j = 2) \/ (i = 1 /\ j = 2)) by lia.
    destruct C as [[-> ->]|[[-> ->]|[-> ->]]]; eexists; split; reflexivity. }
  assert (Hs : small_integers (problem three_var_solver)).
  { split; [exists 0; reflexivity|]. split; [intros i j; exists 1; reflexivity|].
    vm_compute. reflexivity. }
  assert (Hv : sign_vector (nQP three_var_solver) [1; 1; -1]%Q).
  { split; [reflexivity|].
    apply Forall_cons; [left; reflexivity|].
    apply Forall_cons; [left; reflexivity|].
    apply Forall_cons; [right; reflexivity|apply Forall_nil]. }
  split; [split; [exact three_var_well_formed|split; [reflexivity|split; [exact Hs|
          split; [exact Hv|exact Hp]]]]|].
  exact (relaxation_score_integral three_var_solver [1; 1; -1]%Q
           three_var_well_formed eq_refl Hs Hv Hp).
Defined.

(** ** The matrix that is factored for the rounding *)

Lemma vec_add_map {A : Type} (f g : A -> Q) (l : list A) :
  vec_add (map f l) (map g l) = map (fun b => fl64 (f b + g b)) l.
Proof. induction l as [|x l IH]; cbn [map vec_add]; [reflexivity|now rewrite IH]. Qed.

Lemma mat_add_map {A : Type} (F G : A -> list Q) (l : list A) :
  mat_add (map F l) (map G l) = map (fun a => vec_add (F a) (G a)) l.
Proof. induction l as [|x l IH]; cbn [map mat_add]; [reflexivity|now rewrite IH]. Qed.

(** The shifted matrix, entry by entry. *)
Lemma sdp_shift_table (s : LPSolver) (e0 : Q) :
  let m := fl64 (e0 - PSD_EIGEN_TOL) in
  let c1 := fl64 (-1 / fl64 (-1 + m)) in
  let c2 := fl64 (m / fl64 (-1 + m)) in
  sdp_shift (nQP s) (entries s (range 0 (nQP s))) e0
  = map (fun a => map (fun b => fl64 (fl64 (entry s a b * c1)
                                     + fl64 ((if a =? b then 1 else 0) * c2)))
                      (range 0 (nQP s)))
        (range 0 (nQP s)).
Proof.
  cbv zeta. unfold sdp_shift, mat_scale, mat_identity, entries. cbv zeta.
  rewrite !map_map, mat_add_map. apply map_ext. intros a.
  rewrite !map_map. apply vec_add_map.
Qed.

(** [roundToSol()] scores the candidates it draws with the factor of that
    matrix. *)
Lemma roundToSol_shift (eigenvalues : matrix -> list Q) (llt : matrix -> matrix)
      (s : LPSolver) (nrm : Z -> Z -> Q) (M : matrix) (e0 : Q) :
  getMatrix s = Ret M -> vec_at (eigenvalues M) 0 = Ret e0 ->
  roundToSol eigenvalues llt s nrm
  = Ret (map (fun t => score (problem s)
                         (rounding_candidate (llt (sdp_shift (nQP s) M e0)) (nQP s) nrm t))
             (range 0 MAX_TRIES_ROUNDING), s).
Proof. intros HM He. unfold roundToSol. rewrite HM. cbn [bind]. rewrite He. reflexivity. Qed.

(** In [double]s the diagonal of the shifted matrix need not be 1: for
    two variables with relaxation value -31/16 the first eigenvalue is
    -15/16 and the diagonal entries are 1 - 2^-53. *)
Lemma sdp_shift_diagonal_rounded :
  let s := bare_solver (uniform_problem 2 1) [- (31 # 16)]%Q in
  exists M e0,
    getMatrix s = Ret M /\ vec_at (small_eigenvalues M) 0 = Ret e0
    /\ (e0 == - (15 # 16))%Q
    /\ (mat_at (sdp_shift (nQP s) M e0) 0 0 == 1 - (1 # 2 ^ 53))%Q
    /\ (mat_at (sdp_shift (nQP s) M e0) 1 1 == 1 - (1 # 2 ^ 53))%Q.
Proof.
  cbv zeta. eexists. eexists.
  split; [reflexivity|]. split; [reflexivity|].
  split; [reflexivity|]. split; vm_compute; reflexivity.
Qed.

(** ** The row of a cut *)

Lemma glp_set_item_last {A : Type} (pre : list A) (a b : A) :
  glp_set_item (pre ++ [a]) (1 + Z.of_nat (length pre)) b = Ret (pre ++ [b]).
Proof. apply glp_set_item_middle. Qed.

(** [apply_constraint] step by step. *)
Lemma apply_constraint_inv (s s' : LPSolver) (core : list Z) (constraint : list Q) :
  apply_constraint s core constraint = Ret s' ->
  exists indices c0,
    mapM (cut_column s core) (range 0 (u32 (Z.of_nat (length constraint) - 1))) = Ret indices
    /\ vec_at constraint 0 = Ret c0
    /\ s' = set_lp s {| lp_cols := lp_cols (lp s);
                        lp_rows := filter (fun r => negb (slack_above r)) (lp_rows (lp s))
                                   ++ [cut_row indices constraint c0];
                        lp_status := lp_status (lp s) |}.
Proof.
  intros H. unfold apply_constraint in H. rewrite prune_rows_filter in H. cbn [bind] in H.
  set (kept := filter (fun r => negb (slack_above r)) (lp_rows (lp s))) in *.
  assert (Eadd : forall l, glp_add_rows l 1
                 = Ret {| lp_cols := lp_cols l; lp_rows := lp_rows l ++ [new_row];
                          lp_status := lp_status l |}) by reflexivity.
  rewrite Eadd in H. clear Eadd. cbn [bind] in H. cbv zeta in H.
  change (mapM (fun v => ij <- getQPVars s (u32 (1 + v)) ;;
                         largeI <- vec_at core (fst ij) ;;
                         largeJ <- vec_at core (snd ij) ;;
                         getLPVar s largeI largeJ))
    with (mapM (cut_column s core)) in H.
  destruct (mapM (cut_column s core) (range 0 (u32 (Z.of_nat (length constraint) - 1))))
    as [indices|]; cbn [bind] in H; [|discriminate].
  unfold glp_set_mat_row, glp_set_row_bnds, glp_get_num_rows in H.
  cbn [lp_rows lp_cols lp_status] in H.
  rewrite length_app in H. cbn [length] in H.
  replace (Z.of_nat (length kept + 1)) with (1 + Z.of_nat (length kept)) in H by lia.
  rewrite glp_item_middle in H. cbn [bind] in H.
  match type of H with bind (bind ?m _) _ = _ => destruct m as [cols_ok|] end;
    cbn [bind] in H; [|discriminate].
  rewrite glp_set_item_last in H. cbn [bind lp_rows lp_cols lp_status] in H.
  destruct (vec_at constraint 0) as [c0|]; cbn [bind] in H; [|discriminate].
  rewrite glp_item_middle in H. cbn [bind] in H.
  rewrite glp_set_item_last in H. cbn [bind] in H.
  injection H as <-. exists indices, c0. repeat split.
Qed.

Lemma mapM_defined {A B : Type} (f : A -> outcome B) (l : list A) :
  (forall a, In a l -> exists b, f a = Ret b) -> exists bs, mapM f l = Ret bs.
Proof.
  induction l as [|a l IH]; intros H; cbn [mapM]; [eauto|].
  destruct (H a (or_introl eq_refl)) as [b Eb]. rewrite Eb. cbn [bind].
  destruct IH as [bs Ebs]; [intros; apply H; now right|]. rewrite Ebs. cbn [bind]. eauto.
Qed.

Lemma apply_constraint_returns (s : LPSolver) (core indices : list Z)
      (constraint : list Q) (c0 : Q) :
  mapM (cut_column s core) (range 0 (u32 (Z.of_nat (length constraint) - 1))) = Ret indices ->
  Forall (fun c => 1 <= c <= Z.of_nat (length (lp_cols (lp s)))) indices ->
  vec_at constraint 0 = Ret c0 ->
  apply_constraint s core constraint
  = Ret (set_lp s {| lp_cols := lp_cols (lp s);
                     lp_rows := filter (fun r => negb (slack_above r)) (lp_rows (lp s))
                                ++ [cut_row indices constraint c0];
                     lp_status := lp_status (lp s) |}).
Proof.
  intros Hi Hc H0. unfold apply_constraint. rewrite prune_rows_filter. cbn [bind].
  set (kept := filter (fun r => negb (slack_above r)) (lp_rows (lp s))) in *.
  assert (Eadd : forall l, glp_add_rows l 1
                 = Ret {| lp_cols := lp_cols l; lp_rows := lp_rows l ++ [new_row];
                          lp_status := lp_status l |}) by reflexivity.
  rewrite Eadd. clear Eadd. cbn [bind]. cbv zeta.
  change (mapM (fun v => ij <- getQPVars s (u32 (1 + v)) ;;
                         largeI <- vec_at core (fst ij) ;;
                         largeJ <- vec_at core (snd ij) ;;
                         getLPVar s largeI largeJ))
    with (mapM (cut_column s core)).
  rewrite Hi. cbn [bind].
  unfold glp_set_mat_row, glp_set_row_bnds, glp_get_num_rows.
  cbn [lp_rows lp_cols lp_status].
  rewrite length_app. cbn [length].
  replace (Z.of_nat (length kept + 1)) with (1 + Z.of_nat (length kept)) by lia.
  rewrite glp_item_middle. cbn [bind].
  destruct (mapM_defined (glp_item (lp_cols (lp s))) indices) as [cs Ecs].
  { intros c Hin. rewrite Forall_forall in Hc. apply glp_item_defined. now apply Hc. }
  rewrite Ecs. cbn [bind]. rewrite glp_set_item_last. cbn [bind lp_rows lp_cols lp_status].
  rewrite H0. cbn [bind]. rewrite glp_item_middle. cbn [bind].
  rewrite glp_set_item_last. cbn [bind]. reflexivity.
Qed.

Lemma vec_at_nth (l : list Z) (i : Z) :
  0 <= i < Z.of_nat (length l) -> vec_at l i = Ret (nth (Z.to_nat i) l 0).
Proof.
  intros H. unfold vec_at.
  replace (i <? 0) with false by (symmetry; apply Z.ltb_ge; lia).
  destruct (nth_error l (Z.to_nat i)) as [a|] eqn:E.
  - f_equal. symmetry. now apply nth_error_nth.
  - apply nth_error_None in E. lia.
Qed.

(** Two different variables of the problem have one column, whatever the
    order in which they are given, and it is a column of the LP. *)
Lemma getLPVar_unordered (s : LPSolver) (a b : Z) :
  sized s -> nQP s <= 65536 -> 0 <= a < nQP s -> 0 <= b < nQP s -> a <> b ->
  getLPVar s a b = Ret (1 + Z.min a b + Z.max a b * (Z.max a b - 1) / 2)
  /\ 1 <= 1 + Z.min a b + Z.max a b * (Z.max a b - 1) / 2 <= nLP s.
Proof.
  intros Hs Hn Ha Hb Hne. split.
  - destruct (Z.lt_ge_cases b a).
    + rewrite Z.min_r, Z.max_l by lia. apply getLPVar_packed; lia.
    + rewrite Z.min_l, Z.max_r by lia. rewrite getLPVar_swap. apply getLPVar_packed; lia.
  - rewrite (nLP_exact s Hs Hn).
    pose proof (triangle_even (Z.max a b)) as T. pose proof (triangle_even (nQP s)) as Tn.
    set (t := Z.max a b * (Z.max a b - 1) / 2) in *.
    set (tn := nQP s * (nQP s - 1) / 2) in *. nia.
Qed.

Lemma packed_inj (x y x' y' : Z) :
  0 <= y < x -> 0 <= y' < x' ->
  1 + y + x * (x - 1) / 2 = 1 + y' + x' * (x' - 1) / 2 -> x = x' /\ y = y'.
Proof.
  intros Hy Hy' E.
  pose proof (triangle_even x) as T. pose proof (triangle_even x') as T'.
  set (t := x * (x - 1) / 2) in *. set (t' := x' * (x' - 1) / 2) in *.
  assert (Exx : x = x').
  { destruct (Z.lt_trichotomy x x') as [L|[Q|G]]; [exfalso|exact Q|exfalso]; nia. }
  subst x'. split; [reflexivity|]. unfold t, t' in E. lia.
Qed.

(** One position of the cut. *)
Lemma cut_column_spec (s : LPSolver) (core : list Z) (v : Z) :
  well_formed s -> NoDup core -> incl core (range 0 (nQP s)) ->
  let k := Z.of_nat (length core) in
  0 <= v < k * (k - 1) / 2 ->
  exists x y, 0 <= y < x /\ x < k /\ v = y + x * (x - 1) / 2
    /\ cut_column s core v
       = Ret (1 + Z.min (nth (Z.to_nat x) core 0) (nth (Z.to_nat y) core 0)
              + Z.max (nth (Z.to_nat x) core 0) (nth (Z.to_nat y) core 0)
                * (Z.max (nth (Z.to_nat x) core 0) (nth (Z.to_nat y) core 0) - 1) / 2).
Proof.
  intros Hw ND Hi k Hv. pose proof Hw as (Hs & Hn & _).
  assert (Hk : k <= nQP s).
  { pose proof (NoDup_incl_length ND Hi) as L. rewrite length_range in L. unfold k. lia. }
  pose proof (triangle_even k) as Tk. pose proof (triangle_even (nQP s)) as Tn.
  assert (HvL : 1 <= 1 + v <= nLP s).
  { rewrite (nLP_exact s Hs ltac:(lia)).
    set (tk := k * (k - 1) / 2) in *. set (tn := nQP s * (nQP s - 1) / 2) in *.
    assert (0 <= k) by (unfold k; lia). nia. }
  destruct (getQPVars_onto s (1 + v) Hs ltac:(lia) HvL) as (x & y & E & Hy & Hx & Ev).
  assert (Hxk : x < k).
  { apply Z.nle_gt. intros C. pose proof (triangle_even x) as Tx.
    set (tk := k * (k - 1) / 2) in *. set (tx := x * (x - 1) / 2) in *.
    assert (0 <= k) by (unfold k; lia). nia. }
  exists x, y. split; [exact Hy|]. split; [exact Hxk|]. split; [lia|].
  unfold cut_column. rewrite u32_small by (rewrite (nLP_exact s Hs ltac:(lia)) in HvL; nia).
  rewrite E. cbn [bind fst snd].
  rewrite !vec_at_nth by (fold k; lia). cbn [bind].
  assert (Hcx : In (nth (Z.to_nat x) core 0) core) by (apply nth_In; unfold k in *; lia).
  assert (Hcy : In (nth (Z.to_nat y) core 0) core) by (apply nth_In; unfold k in *; lia).
  apply Hi in Hcx. apply Hi in Hcy. apply In_range in Hcx. apply In_range in Hcy.
  apply getLPVar_unordered; trivial; [lia|].
  intros C. apply (proj1 (NoDup_nth core 0) ND) in C; unfold k in *; lia.
Qed.

Lemma Forall2_nth {A B : Type} (R : A -> B -> Prop) (l : list A) (l' : list B) (a : A) (b : B) :
  Forall2 R l l' -> forall i, (i < length l)%nat -> R (nth i l a) (nth i l' b).
Proof.
  induction 1 as [|x y l l' Hxy _ IH]; intros i Hi; [cbn in Hi; lia|].
  destruct i as [|i]; [exact Hxy|]. cbn [nth]. apply IH. cbn in Hi. lia.
Qed.

(** For a core of [k] different variables and a cut of [1 + k(k-1)/2]
    numbers, the cut is applied: the new row is the last row of the LP, it
    carries the numbers of the cut after the first, and the coefficient at
    position [1 + y + x(x-1)/2] of the cut, which belongs to entry (x,y)
    of the matrix of the core, sits on the column of the pair of variables
    [core[x]], [core[y]].  The columns of the row are columns of the LP
    and no column occurs twice. *)
Theorem cut_columns (s : LPSolver) (core : list Z) (constraint : list Q) :
  well_formed s -> Z.of_nat (length (lp_cols (lp s))) = nLP s ->
  NoDup core -> incl core (range 0 (nQP s)) ->
  Z.of_nat (length constraint)
  = 1 + Z.of_nat (length core) * (Z.of_nat (length core) - 1) / 2 ->
  exists s' added,
    apply_constraint s core constraint = Ret s'
    /\ last (lp_rows (lp s')) new_row = added
    /\ row_val added = tl constraint
    /\ length (row_ind added) = length (row_val added)
    /\ NoDup (row_ind added)
    /\ Forall (fun c => 1 <= c <= nLP s) (row_ind added)
    /\ forall x y, 0 <= y < x -> x < Z.of_nat (length core) ->
         getLPVar s (nth (Z.to_nat x) core 0) (nth (Z.to_nat y) core 0)
         = Ret (nth (Z.to_nat (y + x * (x - 1) / 2)) (row_ind added) 0).
Proof.
  intros Hw Hcols ND Hi Hlen. pose proof Hw as (Hs & Hn & _).
  set (k := Z.of_nat (length core)) in *.
  pose proof (triangle_even k) as Tk. pose proof (triangle_even (nQP s)) as Tn.
  assert (Hk0 : 0 <= k) by (unfold k; lia).
  assert (Hk : k <= nQP s).
  { pose proof (NoDup_incl_length ND Hi) as L. rewrite length_range in L. unfold k. lia. }
  set (tk := k * (k - 1) / 2) in *.
  assert (Htk : 0 <= tk < 2 ^ 32) by nia.
  assert (Eu : u32 (Z.of_nat (length constraint) - 1) = tk).
  { rewrite Hlen. replace (1 + tk - 1) with tk by lia. now apply u32_small. }
  (* the value at each position *)
  set (g := fun a b : Z => 1 + Z.min a b + Z.max a b * (Z.max a b - 1) / 2).
  assert (Hspec : forall v, 0 <= v < tk ->
            exists x y, 0 <= y < x /\ x < k /\ v = y + x * (x - 1) / 2
              /\ cut_column s core v
                 = Ret (g (nth (Z.to_nat x) core 0) (nth (Z.to_nat y) core 0))).
  { intros v Hv. apply (cut_column_spec s core v Hw ND Hi). exact Hv. }
  destruct (mapM_defined (cut_column s core) (range 0 tk)) as [indices Ei].
  { intros v Hv. apply In_range in Hv. destruct (Hspec v Hv) as (x & y & _ & _ & _ & E). eauto. }
  pose proof (mapM_Ret _ _ _ Ei) as F2.
  assert (Li : length indices = Z.to_nat tk).
  { rewrite <- (Forall2_length F2). rewrite length_range. f_equal. lia. }
  assert (Hnth : forall v, 0 <= v < tk ->
            cut_column s core v = Ret (nth (Z.to_nat v) indices 0)).
  { intros v Hv.
    pose proof (Forall2_nth _ _ _ 0 0 F2 (Z.to_nat v)) as N. cbv beta in N.
    rewrite nth_range in N by lia. replace (0 + Z.of_nat (Z.to_nat v)) with v in N by lia.
    apply N. rewrite length_range. lia. }
  assert (Hin : forall x y, 0 <= y < x -> x < k ->
            0 <= nth (Z.to_nat x) core 0 < nQP s /\ 0 <= nth (Z.to_nat y) core 0 < nQP s
            /\ nth (Z.to_nat x) core 0 <> nth (Z.to_nat y) core 0).
  { intros x y Hy Hx.
    assert (Hcx : In (nth (Z.to_nat x) core 0) core) by (apply nth_In; unfold k in *; lia).
    assert (Hcy : In (nth (Z.to_nat y) core 0) core) by (apply nth_In; unfold k in *; lia).
    apply Hi in Hcx. apply Hi in Hcy. apply In_range in Hcx. apply In_range in Hcy.
    split; [exact Hcx|]. split; [exact Hcy|].
    intros C. apply (proj1 (NoDup_nth core 0) ND) in C; unfold k in *; lia. }
  assert (Hpair : forall x y, 0 <= y < x -> x < k ->
            getLPVar s (nth (Z.to_nat x) core 0) (nth (Z.to_nat y) core 0)
            = Ret (nth (Z.to_nat (y + x * (x - 1) / 2)) indices 0)
            /\ 1 <= nth (Z.to_nat (y + x * (x - 1) / 2)) indices 0 <= nLP s).
  { intros x y Hy Hx. pose proof (triangle_even x) as Tx.
    assert (Hv : 0 <= y + x * (x - 1) / 2 < tk).
    { set (tx := x * (x - 1) / 2) in *. nia. }
    destruct (Hspec _ Hv) as (x' & y' & Hy' & Hx' & Ev & E).
    destruct (packed_inj x y x' y' Hy Hy' ltac:(lia)) as [<- <-].
    rewrite (Hnth _ Hv) in E. injection E as E. rewrite E.
    destruct (Hin x y Hy Hx) as (Hcx & Hcy & Hne).
    exact (getLPVar_unordered s _ _ Hs ltac:(lia) Hcx Hcy Hne). }
  assert (Hall : forall c, In c indices -> 1 <= c <= nLP s).
  { intros c Hc. destruct (In_nth _ _ 0 Hc) as (i & Hi' & <-).
    destruct (Hspec (Z.of_nat i) ltac:(lia)) as (x & y & Hy & Hx & Ev & _).
    destruct (Hpair x y Hy Hx) as [_ B]. rewrite <- Ev in B.
    now rewrite Nat2Z.id in B. }
  assert (Hnd : NoDup indices).
  { apply (proj2 (NoDup_nth indices 0)). intros i j Hi' Hj' E.
    destruct (Hspec (Z.of_nat i) ltac:(lia)) as (x & y & Hy & Hx & Ev & _).
    destruct (Hspec (Z.of_nat j) ltac:(lia)) as (x' & y' & Hy' & Hx' & Ev' & _).
    destruct (Hpair x y Hy Hx) as [P _]. destruct (Hpair x' y' Hy' Hx') as [P' _].
    rewrite <- Ev in P. rewrite <- Ev' in P'. rewrite Nat2Z.id in P, P'.
    destruct (Hin x y Hy Hx) as (Hcx & Hcy & Hne).
    destruct (Hin x' y' Hy' Hx') as (Hcx' & Hcy' & Hne').
    rewrite (proj1 (getLPVar_unordered s _ _ Hs ltac:(lia) Hcx Hcy Hne)) in P.
    rewrite (proj1 (getLPVar_unordered s _ _ Hs ltac:(lia) Hcx' Hcy' Hne')) in P'.
    set (a := nth (Z.to_nat x) core 0) in *. set (b := nth (Z.to_nat y) core 0) in *.
    set (a' := nth (Z.to_nat x') core 0) in *. set (b' := nth (Z.to_nat y') core 0) in *.
    assert (G : 1 + Z.min a b + Z.max a b * (Z.max a b - 1) / 2
                = 1 + Z.min a' b' + Z.max a' b' * (Z.max a' b' - 1) / 2) by congruence.
    destruct (packed_inj (Z.max a b) (Z.min a b) (Z.max a' b') (Z.min a' b')
                ltac:(lia) ltac:(lia) G) as [Emax Emin].
    assert (Ecase : (a = a' /\ b = b') \/ (a = b' /\ b = a')) by lia.
    assert (Inj : forall u w, 0 <= u < k -> 0 <= w < k ->
              nth (Z.to_nat u) core 0 = nth (Z.to_nat w) core 0 -> u = w).
    { intros u w Hu Hw' C. apply (proj1 (NoDup_nth core 0) ND) in C; unfold k in *; lia. }
    destruct Ecase as [[Ea Eb]|[Ea Eb]].
    - apply Inj in Ea; [|lia|lia]. apply Inj in Eb; [|lia|lia]. subst x' y'. lia.
    - apply Inj in Ea; [|lia|lia]. apply Inj in Eb; [|lia|lia]. lia. }
  destruct constraint as [|c0 cs]; [cbn [length] in Hlen; lia|].
  rewrite <- Eu in Ei.
  eexists. exists (cut_row indices (c0 :: cs) c0).
  split; [apply (apply_constraint_returns s core indices (c0 :: cs) c0 Ei)|].
  - apply Forall_forall. intros c Hc. rewrite Hcols. now apply Hall.
  - reflexivity.
  - cbn [set_lp lp lp_rows]. split; [apply last_last|].
    cbn [cut_row row_val row_ind tl]. split; [reflexivity|].
    split; [cbn [length] in Hlen; lia|]. split; [exact Hnd|].
    split; [now apply Forall_forall|]. intros x y Hy Hx. now apply Hpair.
Qed.

Lemma cut_columns_witness :
  (well_formed three_var_solver
   /\ Z.of_nat (length (lp_cols (lp three_var_solver))) = nLP three_var_solver
   /\ NoDup [2; 0] /\ incl [2; 0] (range 0 (nQP three_var_solver))
   /\ Z.of_nat (length [-1; 1]%Q)
      = 1 + Z.of_nat (length [2; 0]) * (Z.of_nat (length [2; 0]) - 1) / 2)
  /\ exists s' added,
       apply_constraint three_var_solver [2; 0] [-1; 1]%Q = Ret s'
       /\ last (lp_rows (lp s')) new_row = added
       /\ row_val added = tl [-1; 1]%Q
       /\ length (row_ind added) = length (row_val added)
       /\ NoDup (row_ind added)
       /\ Forall (fun c => 1 <= c <= nLP three_var_solver) (row_ind added)
       /\ forall x y, 0 <= y < x -> x < Z.of_nat (length [2; 0]) ->
            getLPVar three_var_solver (nth (Z.to_nat x) [2; 0] 0) (nth (Z.to_nat y) [2; 0] 0)
            = Ret (nth (Z.to_nat (y + x * (x - 1) / 2)) (row_ind added) 0).
Proof.
  assert (Hc : Z.of_nat (length (lp_cols (lp three_var_solver))) = nLP three_var_solver)
    by reflexivity.
  assert (ND : NoDup [2; 0]).
  { constructor; [intros [C|[]]; discriminate|]. constructor; [intros []|constructor]. }
  assert (Hi : incl [2; 0] (range 0 (nQP three_var_solver))).
  { intros a [<-|[<-|[]]]; apply In_range; split; try discriminate; reflexivity. }
  assert (Hl : Z.of_nat (length [-1; 1]%Q)
               = 1 + Z.of_nat (length [2; 0]) * (Z.of_nat (length [2; 0]) - 1) / 2)
    by reflexivity.
  split; [split; [exact three_var_well_formed|repeat split; assumption]|].
  exact (cut_columns three_var_solver [2; 0] [-1; 1]%Q three_var_well_formed Hc ND Hi Hl).
Defined.

(** ** What a run of [solve()] keeps *)

Lemma same_shape_refl (a : LPSolver) : same_shape a a.
Proof. repeat split. Qed.

Lemma same_shape_trans (a b c : LPSolver) : same_shape a b -> same_shape b c -> same_shape a c.
Proof.
  unfold same_shape. intros (A1 & A2 & A3 & A4 & A5 & A6 & A7) (B1 & B2 & B3 & B4 & B5 & B6 & B7).
  repeat split; congruence.
Qed.

Lemma store_prims_length {A : Type} (upd : A -> Q -> A) (l : list A) (v : list Q) :
  length (store_prims upd l v) = length l.
Proof.
  revert v. induction l as [|a l IH]; intros [|x v]; cbn [store_prims length]; try reflexivity.
  now rewrite IH.
Qed.

Lemma store_loop_length {A : Type} (f : A -> outcome Q) (g : A -> Z) (h : Q -> Q)
      (l : list A) :
  forall cs0 cs,
  foldM (fun cs i => x <- f i ;; vec_set cs (g i) (h x)) l cs0 = Ret cs ->
  length cs = length cs0.
Proof.
  induction l as [|i l IH]; intros cs0 cs H; cbn [foldM] in H.
  - now injection H as <-.
  - destruct (f i) as [x|]; cbn [bind] in H; [|discriminate].
    destruct (vec_set cs0 (g i) (h x)) as [cs1|] eqn:E; cbn [bind] in H; [|discriminate].
    destruct (vec_set_spec _ _ _ _ E) as (L & _). rewrite (IH _ _ H). exact L.
Qed.

Lemma extract_bestSol_length (s : LPSolver) (b : list Q) :
  extract_bestSol s = Ret b -> length b = length (bestSol s).
Proof.
  unfold extract_bestSol. intros H.
  destruct (vec_set (bestSol s) 0 1%Q) as [b0|] eqn:E0; cbn [bind] in H; [|discriminate].
  destruct (vec_set_spec _ _ _ _ E0) as (L0 & _).
  rewrite (store_loop_length (pair_value s 0) (fun i => i)
             (fun x => inject_Z (lround x)) _ _ _ H). exact L0.
Qed.

Section Frame.

Variable eigenvalues : matrix -> list Q.
Variable llt : matrix -> matrix.
Variable USE_INTERIOR : bool.

Local Abbreviation step2 := (step eigenvalues llt USE_INTERIOR).
Local Abbreviation run2 := (run eigenvalues llt USE_INTERIOR).

Lemma roundToSol_self (s s' : LPSolver) (nrm : Z -> Z -> Q) (out : list Q) :
  roundToSol eigenvalues llt s nrm = Ret (out, s') ->
  s' = s /\ length out = Z.to_nat MAX_TRIES_ROUNDING.
Proof.
  intros H. unfold roundToSol in H.
  destruct (getMatrix s) as [M|]; cbn [bind] in H; [|discriminate].
  destruct (vec_at (eigenvalues M) 0) as [e|]; cbn [bind] in H; [|discriminate].
  cbv zeta in H. injection H as <- <-. split; reflexivity.
Qed.

(** One block of [solve()]. *)
Lemma step_frame (c : config) (r : reply) :
  same_shape (self c) (self (step2 c r))
  /\ (upperBound (self (step2 c r)) <= upperBound (self c))%Q
  /\ constraintsEver c <= constraintsEver (step2 c r)
  /\ rows_not_counted (step2 c r) <= rows_not_counted c.
Proof.
  assert (Same : same_shape (self c) (self c)
                 /\ (upperBound (self c) <= upperBound (self c))%Q
                 /\ constraintsEver c <= constraintsEver c
                 /\ rows_not_counted c <= rows_not_counted c).
  { split; [apply same_shape_refl|]. split; [apply Qle_refl|]. split; lia. }
  unfold step. destruct (pc c) eqn:Hpc; try exact Same.
  - (* solve *)
    unfold solve_block.
    set (s1 := set_lp (self c) (glp_simplex (lp (self c)) (simplex r))).
    assert (S1 : same_shape (self c) s1).
    { unfold s1, same_shape, glp_simplex. cbn [set_lp problem nQP nLP lowerBound currSol
        bestSol lp lp_cols]. rewrite store_prims_length. repeat split. }
    assert (R1 : length (lp_rows (lp s1)) = length (lp_rows (lp (self c)))).
    { unfold s1, glp_simplex. cbn [set_lp lp lp_rows]. apply store_prims_length. }
    assert (Keep : same_shape (self c) s1
                   /\ (upperBound s1 <= upperBound (self c))%Q
                   /\ constraintsEver c <= constraintsEver c
                   /\ Z.of_nat (length (lp_rows (lp s1))) - constraintsEver c
                      <= rows_not_counted c).
    { split; [exact S1|]. split; [apply Qle_refl|]. unfold rows_not_counted. split; lia. }
    clearbody s1.
    destruct (negb (simplex_err (simplex r) =? 0)
              && negb (simplex_err (simplex r) =? GLP_EINSTAB)); [exact Keep|].
    destruct (negb USE_INTERIOR && negb (lp_status (lp s1) =? GLP_OPT)); [exact Keep|].
    destruct (foldM (fun cs i =>
                     x <- glp_get_col_prim (lp s1) i ;; vec_set cs (u32 (i - 1)) (fl32 x))
                    (range 1 (nLP s1 + 1)) (currSol s1)) as [cs|] eqn:Ecs;
      cbn [bind]; [|exact Keep].
    destruct (scoreRelaxation (set_currSol s1 cs)) as [sr|]; cbn [bind]; [|exact Keep].
    unfold rows_not_counted.
    cbn [goto set_self self constraintsEver set_upperBound set_currSol lp upperBound].
    split; [|split; [|split; lia]].
    + apply (same_shape_trans _ s1); [exact S1|].
      unfold same_shape.
      cbn [problem nQP nLP lowerBound currSol bestSol lp set_upperBound set_currSol].
      rewrite (store_loop_length _ (fun i => u32 (i - 1)) fl32 _ _ _ Ecs).
      repeat split.
    + apply (Qle_trans _ (upperBound s1)); [apply Q.le_min_l|apply Keep].
  - (* findcore *)
    unfold findcore_block.
    destruct (nonPSDcore eigenvalues (self c) (shuffle r)) as [core|]; [|exact Same].
    destruct (length core =? 0)%nat; [exact Same|].
    destruct (getSubmatrix (self c) core) as [M|]; [|exact Same].
    destruct (length (findConstraint r M) =? 0)%nat.
    + destruct (succConstraintFail (set_succConstraintFail c (succConstraintFail c + 1))
                =? CONSTRAINT_FAIL_LIMIT); exact Same.
    + destruct (apply_constraint (self c) core (findConstraint r M)) as [s'|] eqn:E;
        [|exact Same].
      destruct (apply_constraint_inv _ _ _ _ E) as (indices & c0 & _ & _ & ->).
      unfold rows_not_counted.
      cbn [goto set_self set_constraintsEver set_succConstraintFail self constraintsEver
           set_lp lp lp_rows upperBound].
      split; [repeat split|]. split; [apply Qle_refl|]. split; [lia|].
      rewrite length_app. cbn [length].
      pose proof (filter_length_le (fun r0 => negb (slack_above r0)) (lp_rows (lp (self c)))).
      lia.
  - (* rounding *)
    unfold rounding_block.
    destruct (roundToSol eigenvalues llt (self c) (normal r)) as [[sc s']|] eqn:E;
      [|exact Same].
    destruct (roundToSol_self _ _ _ _ E) as [-> _]. exact Same.
  - (* complete *)
    unfold complete_block.
    destruct (extract_bestSol (self c)) as [b|] eqn:E; [|exact Same].
    unfold rows_not_counted.
    cbn [goto print_scores set_self self constraintsEver set_bestSol lp upperBound].
    split; [|split; [apply Qle_refl|split; lia]].
    unfold same_shape. cbn [problem nQP nLP lowerBound currSol bestSol lp set_bestSol].
    rewrite (extract_bestSol_length _ _ E). repeat split.
Qed.

Lemma run_frame (rs : list reply) :
  forall c,
  same_shape (self c) (self (run2 c rs))
  /\ (upperBound (self (run2 c rs)) <= upperBound (self c))%Q
  /\ constraintsEver c <= constraintsEver (run2 c rs)
  /\ rows_not_counted (run2 c rs) <= rows_not_counted c.
Proof.
  induction rs as [|r rs IH]; intros c.
  - cbn. split; [apply same_shape_refl|]. split; [apply Qle_refl|]. split; lia.
  - unfold run. cbn [fold_left]. fold (run2 (step2 c r) rs).
    destruct (step_frame c r) as (A1 & A2 & A3 & A4).
    destruct (IH (step2 c r)) as (B1 & B2 & B3 & B4).
    split; [now apply (same_shape_trans _ (self (step2 c r)))|].
    split; [now apply (Qle_trans _ (upperBound (self (step2 c r))))|]. split; lia.
Qed.

(** [solve()] leaves the problem, [nQP], [nLP] and [lowerBound] as they
    are and keeps the sizes of [currSol], of [bestSol] and of the column
    set of the LP, however far it runs and however it ends; so a
    well-formed solver stays well formed.  Not even the path through
    [complete] raises [lowerBound]. *)
Theorem solve_preserves_shape :
  forall c rs,
    let s := self c in
    let s' := self (run eigenvalues llt USE_INTERIOR c rs) in
    problem s' = problem s /\ nQP s' = nQP s /\ nLP s' = nLP s
    /\ lowerBound s' = lowerBound s
    /\ length (currSol s') = length (currSol s)
    /\ length (bestSol s') = length (bestSol s)
    /\ length (lp_cols (lp s')) = length (lp_cols (lp s))
    /\ (well_formed s -> well_formed s').
Proof.
  intros c rs. cbv zeta. destruct (run_frame rs c) as [(E1 & E2 & E3 & E4 & E5 & E6 & E7) _].
  repeat (split; [assumption|]).
  unfold well_formed, sized. rewrite E2, E3, E5, E6. trivial.
Qed.

(** [solve()] never raises [upperBound]. *)
Theorem solve_upperBound_monotone :
  forall c rs,
    (upperBound (self (run eigenvalues llt USE_INTERIOR c rs)) <= upperBound (self c))%Q.
Proof. intros c rs. now destruct (run_frame rs c) as (_ & H & _). Qed.




End Frame.

(** ** The block under label [solve] *)

(** A loop that stores the value read for [i] at position [g i], for each
    [i] of [l], where [g] sends the [i] of [l] to different positions. *)
Lemma store_loop (f : Z -> outcome Q) (g : Z -> Z) (h : Q -> Q) (l : list Z) :
  forall b0 b, NoDup (map g l) ->
  foldM (fun b i => x <- f i ;; vec_set b (g i) (h x)) l b0 = Ret b ->
  forall i, In i l -> exists x, f i = Ret x /\ vec_at b (g i) = Ret (h x).
Proof.
  induction l as [|i l IH]; intros b0 b ND H; cbn [foldM] in H; [intros ? []|].
  cbn [map] in ND. inversion ND as [|? ? Hi NDl]; subst.
  destruct (f i) as [x|] eqn:Ef; cbn [bind] in H; [|discriminate].
  destruct (vec_set b0 (g i) (h x)) as [b1|] eqn:Es; cbn [bind] in H; [|discriminate].
  destruct (vec_set_spec _ _ _ _ Es) as (_ & A1 & _).
  intros j [<-|Hj]; [|now apply (IH _ _ NDl H)].
  exists x. split; [exact Ef|].
  assert (Keep : forall l' c0 c, ~ In (g i) (map g l') ->
            foldM (fun b i => x <- f i ;; vec_set b (g i) (h x)) l' c0 = Ret c ->
            vec_at c (g i) = vec_at c0 (g i)).
  { clear. induction l' as [|k l' IH']; intros c0 c Hn H; cbn [foldM] in H.
    - now injection H as <-.
    - destruct (f k) as [y|]; cbn [bind] in H; [|discriminate].
      destruct (vec_set c0 (g k) (h y)) as [c1|] eqn:Es; cbn [bind] in H; [|discriminate].
      destruct (vec_set_spec _ _ _ _ Es) as (_ & _ & O).
      rewrite (IH' _ _ (fun C => Hn (or_intror C)) H).
      apply O. intros C. apply Hn. left. now symmetry. }
  rewrite (Keep l b1 b Hi H). exact A1.
Qed.

Section Block.

Variable eigenvalues : matrix -> list Q.
Variable llt : matrix -> matrix.
Variable USE_INTERIOR : bool.

(** When the block under label [solve] goes on to [findcore], GLPK
    returned 0 or the instability code and, in a build without
    [USE_INTERIOR], the status is optimal; [currSol] then holds the primal
    values of the LP columns, each rounded to a [float], and [upperBound]
    is the smaller of its old value and the score of that relaxation
    point. *)
Theorem solve_block_result (c : config) (r : reply) :
  pc c = at_solve -> pc (step eigenvalues llt USE_INTERIOR c r) = at_findcore ->
  nLP (self c) <= 2 ^ 32 ->
  let s' := self (step eigenvalues llt USE_INTERIOR c r) in
  (simplex_err (simplex r) = 0 \/ simplex_err (simplex r) = GLP_EINSTAB)
  /\ (USE_INTERIOR = false -> lp_status (lp s') = GLP_OPT)
  /\ lp s' = glp_simplex (lp (self c)) (simplex r)
  /\ (forall i, 1 <= i <= nLP s' ->
        exists x, glp_get_col_prim (lp s') i = Ret x
                  /\ vec_at (currSol s') (i - 1) = Ret (fl32 x))
  /\ exists sr, scoreRelaxation s' = Ret sr
                /\ upperBound s' = Qmin (upperBound (self c)) sr.
Proof.
  intros Hpc Hnext Hm. cbv zeta. unfold step in *. rewrite Hpc in *.
  unfold solve_block in *.
  set (s1 := set_lp (self c) (glp_simplex (lp (self c)) (simplex r))) in *.
  destruct (negb (simplex_err (simplex r) =? 0)
            && negb (simplex_err (simplex r) =? GLP_EINSTAB)) eqn:E1; [discriminate|].
  destruct (negb USE_INTERIOR && negb (lp_status (lp s1) =? GLP_OPT)) eqn:E2; [discriminate|].
  destruct (foldM (fun cs i =>
                     x <- glp_get_col_prim (lp s1) i ;; vec_set cs (u32 (i - 1)) (fl32 x))
                  (range 1 (nLP s1 + 1)) (currSol s1)) as [cs|] eqn:Ecs;
    cbn [bind] in *; [|discriminate].
  destruct (scoreRelaxation (set_currSol s1 cs)) as [sr|] eqn:Esr; cbn [bind] in *;
    [|discriminate].
  cbn [goto set_self self set_upperBound set_currSol lp nLP currSol upperBound].
  split; [|split; [|split; [|split]]].
  - apply andb_false_iff in E1.
    destruct E1 as [E1|E1]; apply negb_false_iff, Z.eqb_eq in E1; auto.
  - intros ->. cbn [negb andb] in E2. now apply negb_false_iff, Z.eqb_eq in E2.
  - reflexivity.
  - intros i Hi.
    assert (ND : NoDup (map (fun i => u32 (i - 1)) (range 1 (nLP s1 + 1)))).
    { apply Injective_map_NoDup_in; [|apply NoDup_range].
      intros a b Ha Hb E. apply In_range in Ha. apply In_range in Hb.
      change (nLP s1) with (nLP (self c)) in Ha, Hb.
      rewrite !u32_small in E by lia. lia. }
    destruct (store_loop (glp_get_col_prim (lp s1)) (fun i => u32 (i - 1)) fl32
                (range 1 (nLP s1 + 1)) _ _ ND Ecs i) as (x & Ex & Ev).
    + apply In_range. lia.
    + exists x. split; [exact Ex|].
      change (nLP s1) with (nLP (self c)) in Hi.
      rewrite u32_small in Ev by lia. exact Ev.
  - exists sr. split; [exact Esr|reflexivity].
Qed.

End Block.

Lemma solve_block_result_witness :
  let c := solve_entry flat_solver in
  let s' := self (step small_eigenvalues (fun M => M) false c tenth_reply) in
  (pc c = at_solve
   /\ pc (step small_eigenvalues (fun M => M) false c tenth_reply) = at_findcore
   /\ nLP (self c) <= 2 ^ 32)
  /\ (simplex_err (simplex tenth_reply) = 0 \/ simplex_err (simplex tenth_reply) = GLP_EINSTAB)
  /\ (false = false -> lp_status (lp s') = GLP_OPT)
  /\ lp s' = glp_simplex (lp (self c)) (simplex tenth_reply)
  /\ (forall i, 1 <= i <= nLP s' ->
        exists x, glp_get_col_prim (lp s') i = Ret x
                  /\ vec_at (currSol s') (i - 1) = Ret (fl32 x))
  /\ exists sr, scoreRelaxation s' = Ret sr
                /\ upperBound s' = Qmin (upperBound (self c)) sr.
Proof.
  cbv zeta.
  assert (H1 : pc (solve_entry flat_solver) = at_solve) by reflexivity.
  assert (H2 : pc (step small_eigenvalues (fun M => M) false (solve_entry flat_solver)
                        tenth_reply) = at_findcore) by (vm_compute; reflexivity).
  assert (H3 : nLP (self (solve_entry flat_solver)) <= 2 ^ 32) by discriminate.
  split; [split; [exact H1|split; [exact H2|exact H3]]|].
  exact (solve_block_result small_eigenvalues (fun M => M) false
           (solve_entry flat_solver) tenth_reply H1 H2 H3).
Defined.

(** The value GLPK returns for a column and the value [currSol] keeps of
    it differ: the [double] nearest to 0.1 is stored as the [float]
    nearest to it. *)
Lemma solve_block_stores_float :
  let c := step small_eigenvalues (fun M => M) false (solve_entry flat_solver) tenth_reply in
  glp_get_col_prim (lp (self c)) 1 = Ret (3602879701896397 # 36028797018963968)%Q
  /\ currSol (self c) = [13421773 # 134217728]%Q.
Proof. split; vm_compute; reflexivity. Qed.

(** ** The scores of the rounding *)

Lemma rounding_candidate_signs (L : matrix) (n : Z) (nrm : Z -> Z -> Q) (t : Z) :
  length (rounding_candidate L n nrm t) = length L
  /\ Forall (fun x => x == 1 \/ x == -1)%Q (rounding_candidate L n nrm t).
Proof.
  unfold rounding_candidate, mat_vec_double. split; [now rewrite !length_map|].
  apply Forall_forall. intros x Hx. apply in_map_iff in Hx. destruct Hx as (y & <- & _).
  unfold copysign1. destruct (Qltb y 0); [right|left]; reflexivity.
Qed.

(** [roundToSol()] prints [MAX_TRIES_ROUNDING] scores, and each is the
    score of an assignment of +1 and -1 to the [nQP] variables, the signs
    of [L * v].  [L] is taken to have as many rows as the matrix it
    factors. *)
Theorem rounding_scores_of_signs (eigenvalues : matrix -> list Q) (llt : matrix -> matrix)
        (s s' : LPSolver) (nrm : Z -> Z -> Q) (out : list Q) :
  (forall M, length (llt M) = length M) ->
  roundToSol eigenvalues llt s nrm = Ret (out, s') ->
  length out = Z.to_nat MAX_TRIES_ROUNDING
  /\ Forall (fun q => exists sv, sign_vector (nQP s) sv /\ q = score (problem s) sv) out.
Proof.
  intros Hllt H.
  destruct (getMatrix s) as [M|] eqn:EM;
    [|unfold roundToSol in H; rewrite EM in H; discriminate].
  destruct (vec_at (eigenvalues M) 0) as [e0|] eqn:Ee;
    [|unfold roundToSol in H; rewrite EM in H; cbn [bind] in H; rewrite Ee in H; discriminate].
  rewrite (roundToSol_shift eigenvalues llt s nrm M e0 EM Ee) in H.
  unfold getMatrix in EM. destruct (unit_symmetric_Ret _ _ _ EM) as [_ ->].
  set (S := sdp_shift (nQP s) (entries s (range 0 (nQP s))) e0) in *.
  assert (Eo : out = map (fun t => score (problem s)
                                     (rounding_candidate (llt S) (nQP s) nrm t))
                         (range 0 MAX_TRIES_ROUNDING)).
  { apply (f_equal (fun o => match o with Ret p => fst p | Fail _ => out end)) in H.
    cbv beta iota zeta delta [fst] in H. symmetry. exact H. }
  clear H. rewrite Eo.
  assert (LS : length (llt S) = Z.to_nat (nQP s)).
  { unfold S. rewrite Hllt. pose proof (sdp_shift_table s e0) as T. cbv zeta in T.
    rewrite T, length_map, length_range. f_equal. lia. }
  split; [rewrite length_map, length_range; f_equal; lia|].
  apply Forall_forall. intros q Hq. apply in_map_iff in Hq. destruct Hq as (t & <- & _).
  destruct (rounding_candidate_signs (llt S) (nQP s) nrm t) as [Lc Fc].
  exists (rounding_candidate (llt S) (nQP s) nrm t).
  split; [|reflexivity]. split; [now rewrite Lc|exact Fc].
Qed.

Lemma rounding_scores_of_signs_witness :
  exists out,
    ((forall M : matrix, length ((fun M => M) M) = length M)
     /\ roundToSol small_eigenvalues (fun M => M) two_var_solver (fun _ _ => 1%Q)
        = Ret (out, two_var_solver))
    /\ length out = Z.to_nat MAX_TRIES_ROUNDING
    /\ Forall (fun q => exists sv, sign_vector (nQP two_var_solver) sv
                                   /\ q = score (problem two_var_solver) sv) out.
Proof.
  assert (H : exists out,
             roundToSol small_eigenvalues (fun M => M) two_var_solver (fun _ _ => 1%Q)
             = Ret (out, two_var_solver)).
  { eexists. unfold roundToSol. cbn [bind getMatrix]. reflexivity. }
  destruct H as [out Ho]. exists out.
  assert (Hl : forall M : matrix, length ((fun M => M) M) = length M) by reflexivity.
  split; [split; [exact Hl|exact Ho]|].
  exact (rounding_scores_of_signs small_eigenvalues (fun M => M) two_var_solver
           two_var_solver (fun _ _ => 1%Q) out Hl Ho).
Defined.
